(** * Ultimate-TTS: layout reconstruction and streaming playback

    A shallow embedding of the TypeScript sources

      - [utils/layoutEngine.ts]   ([clusterTextItems], [determineReadingOrder]),
      - [services/geminiService]  ([processRawLayout], [generateSpeech],
                                   [decodeAudioData]),
      - [services/pdfService]     ([parsePdf]),
      - [services/ocrService]     ([performOCR]),
      - [App.tsx]                 ([handleFileUpload], [stopPlayback],
                                   [playTTS], [readLoop] and the timeline
                                   bookkeeping inside it, the page buttons),
      - [components/Visualizer]   (the bars of [animate]),

    together with the properties the design document states about them.

    Conventions of the embedding.

      - A finite JavaScript [number] is the rational ([Q]) it denotes;
        the inputs are assumed finite (no NaN, no infinities).  Where
        the rounding of binary64 arithmetic decides a discrete outcome
        (the band of a fragment, the split test of the clusterer) the
        operations are those of module [Double]: every result is
        rounded to nearest, ties to even, and may overflow to an
        infinity.  Elsewhere (the comparators, of which only the sign
        is used, the timeline, the audio samples) [Math.floor],
        [Math.abs] and [Math.max] are [Qfloor], [Qabs] and [Qmax] on
        exact values.
      - A JavaScript string is the list of its UTF-16 code units.
      - A promise is modelled by its outcome, [Resolved v] or [Rejected e];
        what the outside world does while a promise is pending is supplied
        by an environment (the replies of the generative service, the
        audio clock, the clicks of the user).
      - [Set<AudioBufferSourceNode>] is a [gset] of node identities, the
        nodes themselves live in a store indexed by identity.
      - React state updates are applied to the state record at once;
        the effect that copies [ttsState.isPlaying] into [isPlayingRef]
        runs when the loop is suspended on a pending request or timer. *)

From Stdlib Require Import ZArith QArith Qpower Qround Qabs Qminmax Lqa Lia.
From Stdlib Require Import Floats.SpecFloat.
From Stdlib Require Import List Permutation Sorted Ascii String DecimalString.
From stdpp Require Import gmap.
Import ListNotations.

Local Open Scope Q_scope.

(** ** JavaScript strings *)

Module JsString.

(** A string is a sequence of 16-bit code units. *)
Definition t : Type := list N.

Definition space : N := 32%N.

(** [lit "abc"] is the JavaScript literal ['abc'] (ASCII only). *)
Fixpoint lit (s : string) : t :=
  match s with
  | EmptyString => []
  | String c s' => N_of_ascii c :: lit s'
  end.

(** The code units matched by the regular expression class [\s] and
    stripped by [String.prototype.trim]: ECMAScript's WhiteSpace and
    LineTerminator productions (both builtins use the same set). *)
Definition is_whitespace (c : N) : bool :=
  ((9 <=? c) && (c <=? 13)            (* TAB, LF, VT, FF, CR *)
   || (c =? 32)                       (* SPACE *)
   || (c =? 160)                      (* NO-BREAK SPACE *)
   || (c =? 5760)                     (* OGHAM SPACE MARK *)
   || ((8192 <=? c) && (c <=? 8202))  (* EN QUAD .. HAIR SPACE *)
   || (c =? 8232) || (c =? 8233)      (* LINE / PARAGRAPH SEPARATOR *)
   || (c =? 8239) || (c =? 8287)      (* NARROW NBSP, MEDIUM MATH SPACE *)
   || (c =? 12288)                    (* IDEOGRAPHIC SPACE *)
   || (c =? 65279))%N.                (* ZERO WIDTH NO-BREAK SPACE *)

(** [parts.join(sep)] *)
Fixpoint join (sep : t) (parts : list t) : t :=
  match parts with
  | [] => []
  | [p] => p
  | p :: rest => p ++ sep ++ join sep rest
  end.

(** [s.replace(/\s+/g, ' ')]: scanning left to right, every maximal
    run of whitespace is one match and is replaced by one space.
    [in_run] tells that the previous code unit belonged to a match
    whose replacement has been emitted already. *)
Fixpoint replace_ws_from (in_run : bool) (s : t) : t :=
  match s with
  | [] => []
  | c :: s' =>
      if is_whitespace c
      then if in_run then replace_ws_from true s'
           else space :: replace_ws_from true s'
      else c :: replace_ws_from false s'
  end.

Definition replace_ws (s : t) : t := replace_ws_from false s.

Fixpoint trimStart (s : t) : t :=
  match s with
  | [] => []
  | c :: s' => if is_whitespace c then trimStart s' else s
  end.

Definition trimEnd (s : t) : t := rev (trimStart (rev s)).

(** [s.trim()] *)
Definition trim (s : t) : t := trimEnd (trimStart s).

End JsString.

(** ** [Array.prototype.sort]

  The builtin is specified to be stable, and for a consistent
  comparator every conforming implementation returns the same array.
  We take the stable insertion sort as its definition: [a] is placed
  before [b] when [compareFn a b <= 0], that is, an element moves
  behind another one only when the comparator says it is strictly
  larger.  By [array_sort_unique] the choice of the algorithm does not
  matter: no other list is a sorted permutation of the input that
  keeps the ties in their input order. *)

Section ArraySort.
Context {A : Type}.
Variable compareFn : A -> A -> Q.

Fixpoint sort_insert (a : A) (l : list A) : list A :=
  match l with
  | [] => [a]
  | b :: l' =>
      if Qle_bool (compareFn a b) 0 then a :: b :: l'
      else b :: sort_insert a l'
  end.

Fixpoint array_sort (l : list A) : list A :=
  match l with
  | [] => []
  | a :: l' => sort_insert a (array_sort l')
  end.

(** The comparator does not order [a] and [b]. *)
Definition sort_tie (a b : A) : bool :=
  Qle_bool (compareFn a b) 0 && Qle_bool (compareFn b a) 0.

End ArraySort.

(** ** The data model ([types.ts]) *)

Record BoundingBox : Type := mkBox {
x : Q;
y : Q;
w : Q;
h : Q
}.

Record TextItem : Type := mkItem {
text : JsString.t;
box : BoundingBox;
fontSize : Q;
fontName : JsString.t
}.

Inductive BlockType : Type :=
| paragraph | heading | list_block | table | sidebar | math | chart_desc.

Record TextBlock : Type := mkBlock {
type : BlockType;
content : JsString.t;
order : Q;
confidence : Q
}.

Record PageContent : Type := mkPage {
pageNumber : nat;
blocks : list TextBlock;
rawText : JsString.t
}.

Record TTSState : Type := mkTTS {
isPlaying : bool;
currentPage : nat;
currentBlockIndex : nat;
speed : Q;
pitch : Q;
voice : JsString.t;
volume : Q
}.

(** ** Binary64 arithmetic

  JavaScript numbers are IEEE 754 binary64.  A finite one is
  represented by the rational it denotes (the two zeros by 0: no
  operation used here tells them apart); the result of an operation
  is the exact result rounded to nearest, ties to even, with 53
  significant bits, gradual underflow down to [2^-1074], and overflow
  to an infinity from [2^1024] on. *)

Module Double.

(** [floor (log2 |q|)], for [q <> 0]. *)
Definition ilog2 (q : Q) : Z :=
  let e := (Z.log2 (Z.abs (Qnum q)) - Z.log2 (Zpos (Qden q)))%Z in
  if Qle_bool (2 ^ e) (Qabs q) then e else (e - 1)%Z.

(** The nearest integer, the even one of two that are equally near. *)
Definition nearest_even (s : Q) : Z :=
  let f := Qfloor s in
  match Qcompare (s - inject_Z f) (1 # 2) with
  | Lt => f
  | Gt => (f + 1)%Z
  | Eq => if Z.even f then f else (f + 1)%Z
  end.

(** The exponent of the last of the 53 significant bits of the doubles
    next to [q]; it is never below that of the subnormal numbers. *)
Definition lsb (q : Q) : Z := Z.max (ilog2 q - 52) (-1074).

(** The multiple of [2^(lsb q)] nearest to [q]: the double that [q]
    is rounded to, as long as it does not overflow. *)
Definition nearest (q : Q) : Q :=
  if Qeq_bool q 0 then 0
  else inject_Z (nearest_even (q / 2 ^ lsb q)) * 2 ^ lsb q.

(** The value of an expression. *)
Inductive number : Type :=
  | Finite (q : Q)
  | Infinity (negative : bool)
  | NaN.

(** The double for the exact result [q] of an operation, or for a
    decimal literal. *)
Definition round (q : Q) : number :=
  let r := nearest q in
  if Qle_bool (2 ^ 1024) (Qabs r) then Infinity (negb (Qle_bool 0 r))
  else Finite r.

(** [a + b] *)
Definition add (a b : number) : number :=
  match a, b with
  | Finite p, Finite q => round (p + q)
  | Finite _, Infinity s | Infinity s, Finite _ => Infinity s
  | Infinity s, Infinity s' => if Bool.eqb s s' then Infinity s else NaN
  | _, _ => NaN
  end.

(** [- a] *)
Definition opp (a : number) : number :=
  match a with
  | Finite q => Finite (- q)
  | Infinity s => Infinity (negb s)
  | NaN => NaN
  end.

(** [a - b] *)
Definition sub (a b : number) : number := add a (opp b).

(** [a * b] *)
Definition mul (a b : number) : number :=
  match a, b with
  | Finite p, Finite q => round (p * q)
  | Finite p, Infinity s | Infinity s, Finite p =>
      if Qeq_bool p 0 then NaN else Infinity (xorb s (negb (Qle_bool 0 p)))
  | Infinity s, Infinity s' => Infinity (xorb s s')
  | _, _ => NaN
  end.

(** [Math.abs(a)] *)
Definition abs (a : number) : number :=
  match a with
  | Finite q => Finite (Qabs q)
  | Infinity _ => Infinity false
  | NaN => NaN
  end.

(** [a > b] *)
Definition gt (a b : number) : bool :=
  match a, b with
  | Finite p, Finite q => negb (Qle_bool p q)
  | Finite _, Infinity s => s
  | Infinity s, Finite _ => negb s
  | Infinity s, Infinity s' => negb s && s'
  | _, _ => false
  end.

(** [a <= b] *)
Definition le (a b : number) : bool :=
  match a, b with
  | Finite p, Finite q => Qle_bool p q
  | Finite _, Infinity s => negb s
  | Infinity s, Finite _ => s
  | Infinity s, Infinity s' => s || negb s'
  | _, _ => false
  end.

(** The same number, up to the representation of the rational. *)
Definition same (a b : number) : bool :=
  match a, b with
  | Finite p, Finite q => Qeq_bool p q
  | Infinity s, Infinity s' => Bool.eqb s s'
  | NaN, NaN => true
  | _, _ => false
  end.

(** The number denoted by a binary64 float of the Standard Library's
    formalization of IEEE 754. *)
Definition of_spec_float (f : spec_float) : number :=
  match f with
  | S754_zero _ => Finite 0
  | S754_infinity s => Infinity s
  | S754_nan => NaN
  | S754_finite s m e =>
      Finite (inject_Z (if s then Z.neg m else Z.pos m) * 2 ^ e)
  end.

(** The binary64 float for [m * 2^e]. *)
Definition spec_float_of (m e : Z) : spec_float :=
  binary_normalize 53 1024 m e false.

End Double.

(** ** [utils/layoutEngine.ts] *)

Module Layout.

(** *** [determineReadingOrder] *)

Definition bandSize : Q := 20.

(** [Math.floor(a.box.y / bandSize)]: the quotient is a double (it
    cannot overflow), its floor an integer. *)
Definition band (a : TextItem) : Z :=
  Qfloor (Double.nearest (y (box a) / bandSize)).

(** The comparator handed to [sort], of which [sort] uses the sign.
    The bands are integers, and the difference of two doubles is
    rounded to a number of the same sign: the sign of the result is
    that of the exact difference. *)
Definition readingCompare (a b : TextItem) : Q :=
  let aBand := band a in
  let bBand := band b in
  if negb (aBand =? bBand)%Z then inject_Z (aBand - bBand)
  else x (box a) - x (box b).

Definition determineReadingOrder (items : list TextItem) : list TextItem :=
  array_sort readingCompare items.

(** *** [clusterTextItems] *)

(** [a.box.y - b.box.y || a.box.x - b.box.x], of which [sort] uses
    the sign. *)
Definition positionCompare (a b : TextItem) : Q :=
  let dy := y (box a) - y (box b) in
  if Qeq_bool dy 0 then x (box a) - x (box b) else dy.

Definition Y_THRESHOLD : Double.number := Double.Finite 15.

(** [pageWidth * 0.15]; the literal is the double nearest to 15/100. *)
Definition X_THRESHOLD (pageWidth : Q) : Double.number :=
  Double.mul (Double.Finite pageWidth) (Double.round (15 # 100)).

(** The variables the [forEach] callback closes over. *)
Record Walk : Type := mkWalk {
  wblocks : list (list JsString.t);
  currentBlock : list JsString.t;
  lastBox : option BoundingBox
}.

Definition walk_init : Walk :=
  {| wblocks := []; currentBlock := []; lastBox := None |}.

(** [Math.abs(item.box.y - lastBox.y)] *)
Definition verticalGap (last : BoundingBox) (item : TextItem) : Double.number :=
  Double.abs
    (Double.sub (Double.Finite (y (box item))) (Double.Finite (y last))).

(** [Math.abs(item.box.x - (lastBox.x + lastBox.w))] *)
Definition horizontalGap (last : BoundingBox) (item : TextItem)
  : Double.number :=
  Double.abs
    (Double.sub (Double.Finite (x (box item)))
       (Double.add (Double.Finite (x last)) (Double.Finite (w last)))).

(** [verticalGap > Y_THRESHOLD || horizontalGap > X_THRESHOLD] *)
Definition farApart (pageWidth : Q) (last : BoundingBox) (item : TextItem)
  : bool :=
  Double.gt (verticalGap last item) Y_THRESHOLD
  || Double.gt (horizontalGap last item) (X_THRESHOLD pageWidth).

(** One call of the [forEach] callback. *)
Definition walk_step (pageWidth : Q) (st : Walk) (item : TextItem) : Walk :=
  match lastBox st with
  | None =>
      {| wblocks := wblocks st;
         currentBlock := currentBlock st ++ [text item];
         lastBox := Some (box item) |}
  | Some last =>
      if farApart pageWidth last item
      then {| wblocks := wblocks st ++ [currentBlock st];
              currentBlock := [text item];
              lastBox := Some (box item) |}
      else {| wblocks := wblocks st;
              currentBlock := currentBlock st ++ [text item];
              lastBox := Some (box item) |}
  end.

Definition sortedItems (items : list TextItem) : list TextItem :=
  array_sort positionCompare items.

(** The value of [blocks] just before the final [map]: the texts of
    the fragments of each block. *)
Definition clusterBlocks (items : list TextItem) (pageWidth : Q)
  : list (list JsString.t) :=
  let st := fold_left (walk_step pageWidth) (sortedItems items) walk_init in
  match currentBlock st with
  | [] => wblocks st
  | _ => wblocks st ++ [currentBlock st]
  end.

(** [b.join(' ').replace(/\s+/g, ' ').trim()] *)
Definition blockText (b : list JsString.t) : JsString.t :=
  JsString.trim (JsString.replace_ws (JsString.join [JsString.space] b)).

Definition clusterTextItems (items : list TextItem) (pageWidth pageHeight : Q)
  : list JsString.t :=
  match items with
  | [] => []
  | _ => map blockText (clusterBlocks items pageWidth)
  end.

End Layout.

(** ** Promises and builtins used by the services *)

Inductive outcome (A : Type) : Type :=
| Resolved (v : A)
| Rejected (e : JsString.t).
Arguments Resolved {A} v.
Arguments Rejected {A} e.

Module Builtins.

(** [atob]: the forgiving base64 decoder of the HTML standard.  The
    result is a binary string, one code unit (below 256) per byte. *)

Definition is_ascii_whitespace (c : N) : bool :=
  ((c =? 9) || (c =? 10) || (c =? 12) || (c =? 13) || (c =? 32))%N.

Definition base64_digit (c : N) : option N :=
  if ((65 <=? c) && (c <=? 90))%N then Some (c - 65)%N
  else if ((97 <=? c) && (c <=? 122))%N then Some (c - 71)%N
  else if ((48 <=? c) && (c <=? 57))%N then Some (c + 4)%N
  else if (c =? 43)%N then Some 62%N
  else if (c =? 47)%N then Some 63%N
  else None.

Fixpoint base64_digits (s : JsString.t) : option (list N) :=
  match s with
  | [] => Some []
  | c :: s' =>
      match base64_digit c, base64_digits s' with
      | Some d, Some ds => Some (d :: ds)
      | _, _ => None
      end
  end.

Fixpoint base64_bytes (ds : list N) : list N :=
  match ds with
  | a :: b :: c :: d :: rest =>
      let n := (a * 262144 + b * 4096 + c * 64 + d)%N in
      (n / 65536)%N :: ((n / 256) mod 256)%N :: (n mod 256)%N
        :: base64_bytes rest
  | [a; b; c] =>
      let n := ((a * 4096 + b * 64 + c) / 4)%N in
      [(n / 256)%N; (n mod 256)%N]
  | [a; b] => [((a * 64 + b) / 16)%N]
  | _ => []
  end.

Definition strip_padding (s : JsString.t) : JsString.t :=
  if (length s mod 4 =? 0)%nat then
    match rev s with
    | 61%N :: 61%N :: r => rev r
    | 61%N :: r => rev r
    | _ => s
    end
  else s.

Definition atob (s : JsString.t) : outcome JsString.t :=
  let s := strip_padding (List.filter (fun c => negb (is_ascii_whitespace c)) s) in
  if (length s mod 4 =? 1)%nat
  then Rejected (JsString.lit "InvalidCharacterError")
  else match base64_digits s with
       | Some ds => Resolved (base64_bytes ds)
       | None => Rejected (JsString.lit "InvalidCharacterError")
       end.

(** Reading a [Uint8Array] buffer through [new Int16Array(buffer)]
    (little-endian, two's complement); the constructor throws when
    the byte length is odd. *)
Definition int16_of_bytes (lo hi : N) : Z :=
  let u := (Z.of_N lo + 256 * Z.of_N hi)%Z in
  if (u <? 32768)%Z then u else (u - 65536)%Z.

Fixpoint int16_view (bytes : list N) : option (list Z) :=
  match bytes with
  | [] => Some []
  | [_] => None
  | lo :: hi :: rest =>
      match int16_view rest with
      | Some l => Some (int16_of_bytes lo hi :: l)
      | None => None
      end
  end.

(** A [Uint8Array]: a window of [byteLength] bytes that begins
    [byteOffset] bytes into its [ArrayBuffer]. *)
Record Uint8Array : Type := mkUint8Array {
  arrayBuffer : list N;     (* the bytes of [data.buffer] *)
  byteOffset : nat;
  byteLength : nat
}.

(** [new Uint8Array(len)] once its elements are [bytes]: the array
    has a buffer of its own, of its own size. *)
Definition Uint8Array_of (bytes : list N) : Uint8Array :=
  {| arrayBuffer := bytes; byteOffset := 0; byteLength := length bytes |}.

(** The conversion of a length to [unsigned long] by the bindings of
    the Web Audio API. *)
Definition ToUint32 (n : nat) : nat := Z.to_nat (Z.of_nat n mod 2 ^ 32).

(** [String(n)] for a natural number. *)
Definition decimal (n : nat) : JsString.t :=
  JsString.lit (DecimalString.NilZero.string_of_uint (Nat.to_uint n)).

End Builtins.

(** ** [services/geminiService] *)

Record AudioBuffer : Type := mkAudioBuffer {
numberOfChannels : nat;
sampleRate : Q;
channelData : list (list Q);  (* one list of samples per channel *)
duration : Q
}.

Module Gemini.

(** The clean-up request.  [reply] is what
    [await ai.models.generateContent(...)] produced: a rejection, or a
    response whose [text] property is a string or [undefined]. *)
Definition processRawLayout
    (reply : outcome (option JsString.t)) (rawText : JsString.t)
  : outcome JsString.t :=
  match reply with
  | Rejected e => Rejected e
  | Resolved response_text =>
      (* [response.text || rawText] *)
      match response_text with
      | None => Resolved rawText
      | Some [] => Resolved rawText
      | Some t => Resolved t
      end
  end.

(** [decode(base64)]: a new array that holds the code units of the
    binary string. *)
Definition decode (base64 : JsString.t) : outcome Builtins.Uint8Array :=
  match Builtins.atob base64 with
  | Resolved binaryString => Resolved (Builtins.Uint8Array_of binaryString)
  | Rejected e => Rejected e
  end.

(** The speech request.  [reply] is the outcome of the call to the
    service, reduced to
    [response.candidates?.[0]?.content?.parts?.[0]?.inlineData?.data]. *)
Definition generateSpeech (reply : outcome (option JsString.t))
  : outcome Builtins.Uint8Array :=
  match reply with
  | Rejected e => Rejected e
  | Resolved base64Audio =>
      match base64Audio with
      | None | Some [] => Rejected (JsString.lit "No audio generated")
      | Some b => decode b
      end
  end.

(** The samples [dataInt16[i * numChannels + channel] / 32768.0] for
    [i < frameCount]. *)
Definition channel_samples
    (dataInt16 : list Z) (numChannels frameCount channel : nat) : list Q :=
  map (fun i => inject_Z (nth (i * numChannels + channel) dataInt16 0%Z) / 32768)
      (seq 0 frameCount).

Definition default_sampleRate : Q := 24000.
Definition default_numChannels : nat := 1.

(** [decodeAudioData(data, ctx)], as the application calls it:
    [sampleRate] and [numChannels] take their default values.

    [new Int16Array(data.buffer)] views the whole buffer behind
    [data], whatever the window of [data] is, and throws when it holds
    an odd number of bytes.  One channel and 24000 Hz are within what
    every implementation of the Web Audio API supports, so that
    [ctx.createBuffer] refuses the buffer only when its length,
    converted to [unsigned long], is zero.  The samples are stored in
    a [Float32Array]; a 16-bit integer divided by 32768 is stored
    exactly. *)
Definition decodeAudioData (data : Builtins.Uint8Array) : outcome AudioBuffer :=
  let sampleRate := default_sampleRate in
  let numChannels := default_numChannels in
  match Builtins.int16_view (Builtins.arrayBuffer data) with
  | None => Rejected (JsString.lit "RangeError")
  | Some dataInt16 =>
      let frameCount := (length dataInt16 / numChannels)%nat in
      let bufferLength := Builtins.ToUint32 frameCount in
      if (bufferLength =? 0)%nat
      then Rejected (JsString.lit "NotSupportedError")
      else Resolved
             {| numberOfChannels := numChannels;
                sampleRate := sampleRate;
                channelData :=
                  map (channel_samples dataInt16 numChannels bufferLength)
                      (seq 0 numChannels);
                duration := inject_Z (Z.of_nat bufferLength) / sampleRate |}
  end.

End Gemini.

(** ** [App.tsx] *)

Module App.

Record DocumentData : Type := mkDoc {
  docId : JsString.t;
  docName : JsString.t;
  docType : JsString.t;
  pages : list PageContent;
  totalBlocks : nat
}.

(** An [AudioBufferSourceNode] of the audio graph. *)
Record SourceNode : Type := mkSource {
  buffer : AudioBuffer;
  playbackRate : Q;
  startTime : option Q;   (* the argument of [start], once called *)
  stopped : bool;         (* [stop] has been called *)
  ended : bool            (* the buffer was played to its end *)
}.

(** A node produces (or is due to produce) sound. *)
Definition audible (n : SourceNode) : bool :=
  match startTime n with
  | Some _ => negb (stopped n) && negb (ended n)
  | None => false
  end.

(** The component's state and refs, and what it touches outside
    itself: the nodes it created ([nodes], a node is named by its
    index), the console and the timers it armed. *)
Record State : Type := mkState {
  doc : option DocumentData;
  ttsState : TTSState;
  currentText : JsString.t;
  processingStatus : JsString.t;
  audioContextRef : bool;          (* an [AudioContext] was created *)
  nextStartTimeRef : Q;
  activeSourcesRef : gset nat;
  isPlayingRef : bool;
  nodes : list SourceNode;
  console : list (JsString.t * JsString.t);
  timers : list Q
}.

Definition set_doc (v : option DocumentData) (st : State) : State :=
  mkState v (ttsState st) (currentText st) (processingStatus st)
    (audioContextRef st) (nextStartTimeRef st) (activeSourcesRef st)
    (isPlayingRef st) (nodes st) (console st) (timers st).

Definition setTtsState (f : TTSState -> TTSState) (st : State) : State :=
  mkState (doc st) (f (ttsState st)) (currentText st) (processingStatus st)
    (audioContextRef st) (nextStartTimeRef st) (activeSourcesRef st)
    (isPlayingRef st) (nodes st) (console st) (timers st).

Definition setCurrentText (v : JsString.t) (st : State) : State :=
  mkState (doc st) (ttsState st) v (processingStatus st)
    (audioContextRef st) (nextStartTimeRef st) (activeSourcesRef st)
    (isPlayingRef st) (nodes st) (console st) (timers st).

Definition setProcessingStatus (v : JsString.t) (st : State) : State :=
  mkState (doc st) (ttsState st) (currentText st) v
    (audioContextRef st) (nextStartTimeRef st) (activeSourcesRef st)
    (isPlayingRef st) (nodes st) (console st) (timers st).

Definition set_nextStartTimeRef (v : Q) (st : State) : State :=
  mkState (doc st) (ttsState st) (currentText st) (processingStatus st)
    (audioContextRef st) v (activeSourcesRef st)
    (isPlayingRef st) (nodes st) (console st) (timers st).

Definition set_activeSourcesRef (v : gset nat) (st : State) : State :=
  mkState (doc st) (ttsState st) (currentText st) (processingStatus st)
    (audioContextRef st) (nextStartTimeRef st) v
    (isPlayingRef st) (nodes st) (console st) (timers st).

Definition set_isPlayingRef (v : bool) (st : State) : State :=
  mkState (doc st) (ttsState st) (currentText st) (processingStatus st)
    (audioContextRef st) (nextStartTimeRef st) (activeSourcesRef st)
    v (nodes st) (console st) (timers st).

Definition set_nodes (v : list SourceNode) (st : State) : State :=
  mkState (doc st) (ttsState st) (currentText st) (processingStatus st)
    (audioContextRef st) (nextStartTimeRef st) (activeSourcesRef st)
    (isPlayingRef st) v (console st) (timers st).

(** [console.error(msg, e)] *)
Definition console_error (msg e : JsString.t) (st : State) : State :=
  mkState (doc st) (ttsState st) (currentText st) (processingStatus st)
    (audioContextRef st) (nextStartTimeRef st) (activeSourcesRef st)
    (isPlayingRef st) (nodes st) (console st ++ [(msg, e)]) (timers st).

(** [setTimeout(r, delay)] *)
Definition setTimeout (delay : Q) (st : State) : State :=
  mkState (doc st) (ttsState st) (currentText st) (processingStatus st)
    (audioContextRef st) (nextStartTimeRef st) (activeSourcesRef st)
    (isPlayingRef st) (nodes st) (console st) (timers st ++ [delay]).

(** The state updaters that occur in the component. *)
Definition with_isPlaying (b : bool) (prev : TTSState) : TTSState :=
  mkTTS b (currentPage prev) (currentBlockIndex prev)
    (speed prev) (pitch prev) (voice prev) (volume prev).

Definition with_cursor (p b : nat) (prev : TTSState) : TTSState :=
  mkTTS (isPlaying prev) p b
    (speed prev) (pitch prev) (voice prev) (volume prev).

(** [useEffect(() => { isPlayingRef.current = ttsState.isPlaying })]:
    what a render commits. *)
Definition render (st : State) : State :=
  set_isPlayingRef (isPlaying (ttsState st)) st.

(** *** [stopPlayback] *)

(** [s.stop()]: an error when [start] was never called. *)
Definition stop (n : SourceNode) : outcome SourceNode :=
  match startTime n with
  | None => Rejected (JsString.lit "InvalidStateError")
  | Some _ => Resolved (mkSource (buffer n) (playbackRate n) (startTime n) true (ended n))
  end.

(** [try { s.stop(); } catch {}] for the node named [s]. *)
Definition try_stop (ns : list SourceNode) (s : nat) : list SourceNode :=
  match ns !! s with
  | Some n =>
      match stop n with
      | Resolved n' => <[s := n']> ns
      | Rejected _ => ns
      end
  | None => ns
  end.

Definition stopPlayback (st : State) : State :=
  let st := setTtsState (with_isPlaying false) st in
  let st := set_nodes (fold_left try_stop (elements (activeSourcesRef st)) (nodes st)) st in
  let st := set_activeSourcesRef ∅ st in
  set_nextStartTimeRef 0 st.

(** *** What happens while the loop is suspended *)

Inductive Event : Type :=
  | StopRequested            (* a handler calls [stopPlayback()] *)
  | SourceEnded (s : nat).   (* the [ended] event of node [s] *)

(** [source.onended = () => activeSourcesRef.current.delete(source)] *)
Definition onended (s : nat) (st : State) : State :=
  set_activeSourcesRef (activeSourcesRef st ∖ {[s]}) st.

Definition mark_ended (s : nat) (ns : list SourceNode) : list SourceNode :=
  match ns !! s with
  | Some n => <[s := mkSource (buffer n) (playbackRate n) (startTime n) (stopped n) true]> ns
  | None => ns
  end.

Definition handle (e : Event) (st : State) : State :=
  match e with
  | StopRequested => stopPlayback st
  | SourceEnded s => onended s (set_nodes (mark_ended s (nodes st)) st)
  end.

(** An [await] that really suspends: pending renders are committed,
    then each event is handled and followed by a render. *)
Definition suspended (events : list Event) (st : State) : State :=
  fold_left (fun st e => render (handle e st)) events (render st).

(** The outside world, as seen by one run of [readLoop]. *)
Record BlockEnv : Type := mkBlockEnv {
  speech_events : list Event;
  speech_reply : JsString.t -> JsString.t -> outcome (option JsString.t);
  currentTime : Q;
  sleep_events : list Event
}.

Record PageEnv : Type := mkPageEnv {
  cleanup_events : list Event;
  cleanup_reply : JsString.t -> outcome (option JsString.t)
}.

Record Env : Type := mkEnv {
  page_env : nat -> PageEnv;
  block_env : nat -> nat -> BlockEnv
}.

(** *** The timeline *)

(** Lines [const startTime = Math.max(nextStartTimeRef.current, now)]
    and [nextStartTimeRef.current = startTime + duration / speed]:
    the start time handed to [source.start] and the new value of
    [nextStartTimeRef]. *)
Definition schedule (nextStartTime now bufferDuration speed : Q) : Q * Q :=
  let startTime := Qmax nextStartTime now in
  (startTime, startTime + bufferDuration / speed).

(** *** [readLoop] *)

Definition pagesOf (st : State) : list PageContent :=
  match doc st with
  | Some d => pages d
  | None => []
  end.

(** [page.blocks = bs] for the page at index [pIdx]. *)
Definition set_page_blocks (pIdx : nat) (bs : list TextBlock) (st : State)
  : State :=
  match doc st with
  | Some d =>
      match pages d !! pIdx with
      | Some page =>
          set_doc
            (Some (mkDoc (docId d) (docName d) (docType d)
                     (<[pIdx := mkPage (pageNumber page) bs (rawText page)]> (pages d))
                     (totalBlocks d)))
            st
      | None => st
      end
  | None => st
  end.

(** The body of the [try] once the audio buffer is there: create the
    source, schedule it, track it, arm the look-ahead timer. *)
Definition startSource
    (snapshot : TTSState) (audioBuffer : AudioBuffer) (now : Q) (st : State)
  : State :=
  let source := length (nodes st) in
  let '(startTime, next) :=
    schedule (nextStartTimeRef st) now (duration audioBuffer) (speed snapshot) in
  let st :=
    set_nodes
      (nodes st ++ [mkSource audioBuffer (speed snapshot) (Some startTime) false false])
      st in
  let st := set_nextStartTimeRef next st in
  let st := set_activeSourcesRef ({[source]} ∪ activeSourcesRef st) st in
  let waitTime :=
    (startTime - now) * 1000
    + (duration audioBuffer / speed snapshot) * 1000 - 150 in
  setTimeout (Qmax 0 waitTime) st.

(** The [try { ... } catch (e) { console.error(...) }] of one block. *)
Definition speakBlock
    (snapshot : TTSState) (block : TextBlock) (be : BlockEnv) (st : State)
  : State :=
  let st := suspended (speech_events be) st in
  match Gemini.generateSpeech (speech_reply be (content block) (voice snapshot)) with
  | Rejected e => console_error (JsString.lit "Audio block failed") e st
  | Resolved audioBytes =>
      match Gemini.decodeAudioData audioBytes with
      | Rejected e => console_error (JsString.lit "Audio block failed") e st
      | Resolved audioBuffer =>
          let st := startSource snapshot audioBuffer (currentTime be) st in
          suspended (sleep_events be) st
      end
  end.

(** How the inner [while] is left. *)
Inductive InnerResult : Type :=
  | InnerDone (st : State)      (* the condition became false *)
  | InnerReturn (st : State)    (* [return] from [readLoop] *)
  | InnerFuel.

Fixpoint blockLoop
    (fuel : nat) (env : Env) (snapshot : TTSState) (pIdx bIdx : nat)
    (st : State) : InnerResult :=
  match pagesOf st !! pIdx with
  | None => InnerDone st
  | Some page =>
      match blocks page !! bIdx with
      | None => InnerDone st               (* [bIdx >= page.blocks.length] *)
      | Some block =>
          match fuel with
          | O => InnerFuel
          | S fuel' =>
              if negb (isPlayingRef st) then InnerReturn st
              else
                let st := setCurrentText (content block) st in
                let st := setTtsState (with_cursor pIdx bIdx) st in
                let st := speakBlock snapshot block (block_env env pIdx bIdx) st in
                blockLoop fuel' env snapshot pIdx (S bIdx) st
          end
      end
  end.

(** How the promise returned by [readLoop] settles. *)
Inductive Completion : Type :=
  | Fulfilled (st : State)
  | Threw (e : JsString.t) (st : State)
  | OutOfFuel.

Definition analyzing (pIdx : nat) : JsString.t :=
  JsString.lit "Analyzing Page " ++ Builtins.decimal (pIdx + 1) ++ JsString.lit "...".

Definition paragraph_of (cleaned : JsString.t) : TextBlock :=
  {| type := paragraph; content := cleaned; order := 0; confidence := 1 |}.

(** A statement either completes or throws. *)
Inductive Step : Type :=
  | Continue (st : State)
  | Throw (e : JsString.t) (st : State).

(** The [if (!page.blocks || page.blocks.length === 0) { ... }] at
    the head of the outer loop; an error of the awaited call is not
    caught there. *)
Definition ensureBlocks
    (env : Env) (pIdx : nat) (page : PageContent) (st : State) : Step :=
  match blocks page with
  | [] =>
      let st := setProcessingStatus (analyzing pIdx) st in
      let st := suspended (cleanup_events (page_env env pIdx)) st in
      match Gemini.processRawLayout
              (cleanup_reply (page_env env pIdx) (rawText page)) (rawText page) with
      | Rejected e => Throw e st
      | Resolved cleaned =>
          let st := set_page_blocks pIdx [paragraph_of cleaned] st in
          Continue (setProcessingStatus [] st)
      end
  | _ :: _ => Continue st
  end.

Definition blocksAt (pIdx : nat) (st : State) : list TextBlock :=
  match pagesOf st !! pIdx with
  | Some page => blocks page
  | None => []
  end.

Definition reset_playback (prev : TTSState) : TTSState :=
  mkTTS false 0 0 (speed prev) (pitch prev) (voice prev) (volume prev).

Fixpoint pageLoop
    (fuel : nat) (env : Env) (snapshot : TTSState) (pIdx bIdx : nat)
    (st : State) : Completion :=
  match pagesOf st !! pIdx with
  | None =>                                 (* [pIdx >= doc.pages.length] *)
      Fulfilled (setTtsState reset_playback st)
  | Some page =>
      match fuel with
      | O => OutOfFuel
      | S fuel' =>
          match ensureBlocks env pIdx page st with
          | Throw e st => Threw e st
          | Continue st =>
              match blockLoop (length (blocksAt pIdx st) - bIdx)
                      env snapshot pIdx bIdx st with
              | InnerFuel => OutOfFuel
              | InnerReturn st => Fulfilled st
              | InnerDone st => pageLoop fuel' env snapshot (S pIdx) 0 st
              end
          end
      end
  end.

(** [readLoop], called from a render whose [ttsState] is [snapshot]. *)
Definition readLoop (env : Env) (snapshot : TTSState) (st : State)
  : Completion :=
  match doc st, audioContextRef st with
  | Some d, true =>
      pageLoop (length (pages d) - currentPage snapshot) env snapshot
        (currentPage snapshot) (currentBlockIndex snapshot) st
  | _, _ => Fulfilled st
  end.

End App.

(** ** Vocabulary of the stated properties *)

Module Spec.

(** The band index [floor (y / 20)] of a fragment at height [y], the
    quotient being the double that JavaScript computes. *)
Definition band_index (y : Q) : Z := Qfloor (Double.nearest (y / 20)).

(** The band index [floor (y / 20)] in exact arithmetic. *)
Definition exact_band_index (y : Q) : Z := Qfloor (y / 20).

(** Reading order: by band index, then by [x]. *)
Definition reading_le (a b : TextItem) : Prop :=
  (band_index (y (box a)) < band_index (y (box b)))%Z
  \/ (band_index (y (box a)) = band_index (y (box b))
      /\ x (box a) <= x (box b)).

(** Equal band index and equal [x]: a tie of the reading order. *)
Definition reading_tie (a b : TextItem) : bool :=
  (band_index (y (box a)) =? band_index (y (box b)))%Z
  && Qeq_bool (x (box a)) (x (box b)).

(** The same order and ties on the exact band index. *)
Definition exact_reading_le (a b : TextItem) : Prop :=
  (exact_band_index (y (box a)) < exact_band_index (y (box b)))%Z
  \/ (exact_band_index (y (box a)) = exact_band_index (y (box b))
      /\ x (box a) <= x (box b)).

Definition exact_reading_tie (a b : TextItem) : bool :=
  (exact_band_index (y (box a)) =? exact_band_index (y (box b)))%Z
  && Qeq_bool (x (box a)) (x (box b)).

(** [q] is a double: rounding leaves it as it is. *)
Definition is_double (q : Q) : Prop :=
  Double.nearest q == q /\ Qabs q < 2 ^ 1024.

(** A double that is neither a negative number within [2^-1070] of
    zero nor beyond [2^55] in magnitude. *)
Definition ordinary (y : Q) : Prop :=
  Double.nearest y == y
  /\ Qabs y <= 2 ^ 55
  /\ (0 <= y \/ y <= - 2 ^ (-1070)).

(** Top-to-bottom, then left-to-right, on the exact coordinates. *)
Definition position_le (a b : TextItem) : Prop :=
  y (box a) < y (box b)
  \/ (y (box a) == y (box b) /\ x (box a) <= x (box b)).

(** The index of the block that holds the [i]-th fragment, counting
    fragments through the blocks in order. *)
Fixpoint block_of {A : Type} (bs : list (list A)) (i : nat) : nat :=
  match bs with
  | [] => 0
  | b :: bs' =>
      if (i <? length b)%nat then 0%nat
      else S (block_of bs' (i - length b))
  end.

(** The gaps between a fragment and its successor,
    [|y - lastBox.y|] and [|x - (lastBox.x + lastBox.w)|], and 15% of
    the page width, as JavaScript computes them. *)
Definition vertical_gap (prev next : TextItem) : Double.number :=
  Double.abs
    (Double.sub (Double.Finite (y (box next))) (Double.Finite (y (box prev)))).

Definition horizontal_gap (prev next : TextItem) : Double.number :=
  Double.abs
    (Double.sub (Double.Finite (x (box next)))
       (Double.add (Double.Finite (x (box prev)))
          (Double.Finite (w (box prev))))).

Definition fifteen_percent (pageWidth : Q) : Double.number :=
  Double.mul (Double.Finite pageWidth) (Double.round (15 # 100)).

Definition exceeds (a b : Double.number) : Prop := Double.gt a b = true.

Definition within (a b : Double.number) : Prop := Double.le a b = true.

(** The split test between a fragment and its successor. *)
Definition gap_exceeded (pageWidth : Q) (prev next : TextItem) : Prop :=
  exceeds (vertical_gap prev next) (Double.Finite 15)
  \/ exceeds (horizontal_gap prev next) (fifteen_percent pageWidth).

(** The invariant of the [forEach] walk, after the callback has seen
    the non-empty prefix [p] of the re-sorted fragments: the blocks
    built so far, the open one included, hold the texts of [p] in
    order, and they are cut exactly where the split test fired. *)
Definition walk_inv (pageWidth : Q) (p : list TextItem) (st : Layout.Walk)
  : Prop :=
  let out := Layout.wblocks st ++ [Layout.currentBlock st] in
  Layout.currentBlock st <> []
  /\ Layout.lastBox st = box <$> last p
  /\ concat out = map text p
  /\ forall i a b,
       p !! i = Some a -> p !! S i = Some b ->
       (block_of out i <> block_of out (S i)
        <-> Layout.farApart pageWidth (box a) b = true).

(** Every whitespace code unit of [s] is a space. *)
Definition spaces_only (s : JsString.t) : Prop :=
  Forall (fun c => JsString.is_whitespace c = true -> c = JsString.space) s.

(** The pieces of [s] between its whitespace code units, as
    [s.split(ws)] would return them: two adjacent whitespace units, or
    one at either end, delimit an empty piece. *)
Fixpoint pieces (s : JsString.t) : list JsString.t :=
  match s with
  | [] => [[]]
  | c :: s' =>
      if JsString.is_whitespace c then [] :: pieces s'
      else match pieces s' with
           | piece :: rest => (c :: piece) :: rest
           | [] => [[c]]
           end
  end.

Definition nonempty (piece : JsString.t) : bool :=
  match piece with
  | [] => false
  | _ :: _ => true
  end.

(** The words of [s]: its maximal runs of non-whitespace. *)
Definition words (s : JsString.t) : list JsString.t :=
  List.filter nonempty (pieces s).

(** No two adjacent code units of [s] both satisfy [p]. *)
Fixpoint no_adjacent (p : N -> bool) (s : JsString.t) : Prop :=
  match s with
  | [] => True
  | c :: s' =>
      match s' with
      | [] => True
      | d :: _ => ~ (p c = true /\ p d = true)
      end /\ no_adjacent p s'
  end.

(** A sequence of [schedule] calls, each given as
    [(bufferDuration, now)], issued at a fixed speed starting from
    [nextStartTime]: the start time and the end of each segment. *)
Fixpoint scheduleAll (speed nextStartTime : Q) (calls : list (Q * Q))
  : list (Q * Q) :=
  match calls with
  | [] => []
  | (bufferDuration, now) :: rest =>
      let '(startTime, next) :=
        App.schedule nextStartTime now bufferDuration speed in
      (startTime, startTime + bufferDuration / speed)
        :: scheduleAll speed next rest
  end.

(** Consecutive segments: the next one starts no earlier than the
    previous one starts, and no earlier than it ends. *)
Fixpoint back_to_back (segments : list (Q * Q)) : Prop :=
  match segments with
  | [] => True
  | (s, e) :: rest =>
      match rest with
      | [] => True
      | (s', _) :: _ => s <= s' /\ e <= s'
      end /\ back_to_back rest
  end.

(** Node [s] of the store produces no sound. *)
Definition silent_at (ns : list App.SourceNode) (s : nat) : Prop :=
  forall n, ns !! s = Some n -> App.audible n = false.

(** What the loop obtains when it asks for the audio of [block]: the
    decoded buffer, or the error of the speech request or of the
    decoder. *)
Definition attempt
    (snapshot : TTSState) (be : App.BlockEnv) (block : TextBlock)
  : outcome AudioBuffer :=
  match Gemini.generateSpeech
          (App.speech_reply be (content block) (voice snapshot)) with
  | Rejected e => Rejected e
  | Resolved audioBytes => Gemini.decodeAudioData audioBytes
  end.

(** The blocks that are read from a page: its own or, when it has
    none, the paragraph that clean-up makes of its raw text. *)
Definition blocks_read (env : App.Env) (pIdx : nat) (page : PageContent)
  : list TextBlock :=
  match blocks page with
  | [] =>
      match Gemini.processRawLayout
              (App.cleanup_reply (App.page_env env pIdx) (rawText page))
              (rawText page) with
      | Resolved cleaned => [App.paragraph_of cleaned]
      | Rejected _ => []
      end
  | _ :: _ => blocks page
  end.

(** One entry for each of the blocks [bs], which sit at the indices
    [bIdx], [bIdx + 1], ... of page [pIdx]: the audio clock when the
    audio of the block arrives, and what arrives. *)
Fixpoint attempts_on_page
    (env : App.Env) (snapshot : TTSState) (pIdx bIdx : nat)
    (bs : list TextBlock) : list (Q * outcome AudioBuffer) :=
  match bs with
  | [] => []
  | block :: bs' =>
      (App.currentTime (App.block_env env pIdx bIdx),
       attempt snapshot (App.block_env env pIdx bIdx) block)
        :: attempts_on_page env snapshot pIdx (S bIdx) bs'
  end.

(** One entry for every block from block [bIdx] of the first of
    [pages], which is page [pIdx] of the document, to the end of the
    document, in reading order. *)
Fixpoint attempts
    (env : App.Env) (snapshot : TTSState) (pIdx bIdx : nat)
    (pages : list PageContent) : list (Q * outcome AudioBuffer) :=
  match pages with
  | [] => []
  | page :: rest =>
      attempts_on_page env snapshot pIdx bIdx
        (drop bIdx (blocks_read env pIdx page))
        ++ attempts env snapshot (S pIdx) 0 rest
  end.

(** What a run leaves behind: the console, the audio buffers of the
    sources created so far, and the end of the timeline. *)
Definition Ledger : Type :=
  list (JsString.t * JsString.t) * list AudioBuffer * Q.

Definition ledger (st : App.State) : Ledger :=
  (App.console st, map App.buffer (App.nodes st), App.nextStartTimeRef st).

(** What a block should add to the ledger: a failure is logged and
    nothing else; a success gets a source, scheduled behind what was
    scheduled before. *)
Definition record_attempt
    (speed : Q) (l : Ledger) (tried : Q * outcome AudioBuffer) : Ledger :=
  let '(log, played, nextStartTime) := l in
  match snd tried with
  | Rejected e =>
      (log ++ [(JsString.lit "Audio block failed", e)], played, nextStartTime)
  | Resolved audioBuffer =>
      (log, played ++ [audioBuffer],
       snd (App.schedule nextStartTime (fst tried) (duration audioBuffer) speed))
  end.

(** Nobody asks to stop while the loop runs on [env]. *)
Definition nobody_stops (env : App.Env) : Prop :=
  forall pIdx bIdx,
    ~ In App.StopRequested (App.cleanup_events (App.page_env env pIdx))
    /\ ~ In App.StopRequested (App.speech_events (App.block_env env pIdx bIdx))
    /\ ~ In App.StopRequested (App.sleep_events (App.block_env env pIdx bIdx)).

(** The clean-up request is never rejected. *)
Definition cleanup_answers (env : App.Env) : Prop :=
  forall pIdx raw e, App.cleanup_reply (App.page_env env pIdx) raw <> Rejected e.

(** The literal reading of "[schedule] advances [nextStartTime] by
    [bufferDuration / speed]". *)
Definition advances_by_duration (nextStartTime now bufferDuration speed : Q)
  : Prop :=
  snd (App.schedule nextStartTime now bufferDuration speed)
  == nextStartTime + bufferDuration / speed.

End Spec.

(** ** Errors and string tests *)

Module Js.

(** An [Error] object, by its [name] and [message]. *)
Record Error : Type := mkError {
  errName : JsString.t;
  errMessage : JsString.t
}.

(** [new Error(message)] *)
Definition newError (message : JsString.t) : Error :=
  {| errName := JsString.lit "Error"; errMessage := message |}.

(** The settlement of a promise whose rejection reason is an [Error]. *)
Inductive result (A : Type) : Type :=
  | Ok (v : A)
  | Err (e : Error).
Arguments Ok {A} v.
Arguments Err {A} e.

(** [s.startsWith(prefix)] *)
Fixpoint startsWith (prefix s : JsString.t) : bool :=
  match prefix, s with
  | [], _ => true
  | _ :: _, [] => false
  | p :: prefix', c :: s' => (p =? c)%N && startsWith prefix' s'
  end.

(** [s.includes(needle)] *)
Fixpoint includes (needle s : JsString.t) : bool :=
  startsWith needle s
  || match s with
     | [] => false
     | _ :: s' => includes needle s'
     end.

End Js.

(** ** [services/ocrService] *)

Module Ocr.

Import Js.

(** What the Tesseract library does for one call of [performOCR]. *)
Record Tesseract : Type := mkTesseract {
  createWorker : result unit;
  recognize : JsString.t -> result JsString.t;
  terminate : result unit
}.

(** [performOCR(imageSrc)], with the number of live workers before
    and after. *)
Definition performOCR (lib : Tesseract) (imageSrc : JsString.t) (workers : nat)
  : nat * result JsString.t :=
  match createWorker lib with
  | Err e => (workers, Err e)
  | Ok _ =>
      let workers := S workers in
      match recognize lib imageSrc with
      | Err e => (workers, Err e)
      | Ok text =>
          match terminate lib with
          | Err e => (workers, Err e)
          | Ok _ => (Nat.pred workers, Ok text)
          end
      end
  end.

End Ocr.

(** ** [services/pdfService] *)

Module Pdf.

Import Js.

(** What pdf.js reports: the text items of a page and its viewport at
    scale 1. *)
Record PdfTextItem : Type := mkPdfTextItem {
  str : JsString.t;
  transform : list Q;
  width : Q;
  height : Q;
  pdfFontName : JsString.t
}.

Record Viewport : Type := mkViewport {
  vpWidth : Q;
  vpHeight : Q
}.

Record PdfPage : Type := mkPdfPage {
  textItems : list PdfTextItem;
  viewport : Viewport
}.

(** Loading the file gives the pages, each of which is fetched in its
    turn; either step may fail. *)
Definition PdfFile : Type := result (list (result PdfPage)).

(** The callback of [textContent.items.map]. *)
Definition toTextItem (vp : Viewport) (item : PdfTextItem) : TextItem :=
  {| text := str item;
     box := {| x := nth 4 (transform item) 0;
               y := vpHeight vp - nth 5 (transform item) 0;
               w := width item;
               h := height item |};
     fontSize := nth 0 (transform item) 0;
     fontName := pdfFontName item |}.

(** The callback of [clusteredBlocks.map]. *)
Definition toBlock (idx : nat) (c : JsString.t) : TextBlock :=
  {| type := paragraph; content := c;
     order := inject_Z (Z.of_nat idx); confidence := 1 |}.

Definition lineFeed : N := 10%N.

(** The body of the [for] loop for page number [i]. *)
Definition pageContent (i : nat) (page : PdfPage) : PageContent :=
  let items := map (toTextItem (viewport page)) (textItems page) in
  let sortedItems := Layout.determineReadingOrder items in
  let clusteredBlocks :=
    Layout.clusterTextItems sortedItems
      (vpWidth (viewport page)) (vpHeight (viewport page)) in
  {| pageNumber := i;
     blocks := imap toBlock clusteredBlocks;
     rawText := JsString.join [lineFeed] clusteredBlocks |}.

(** The [for] loop from page number [i] on: the first page that
    cannot be fetched ends it with its error. *)
Fixpoint readPages (i : nat) (fetched : list (result PdfPage))
  : result (list PageContent) :=
  match fetched with
  | [] => Ok []
  | Err e :: _ => Err e
  | Ok page :: rest =>
      match readPages (S i) rest with
      | Ok pages => Ok (pageContent i page :: pages)
      | Err e => Err e
      end
  end.

Definition corrupted : Error :=
  newError (JsString.lit
    "This PDF appears to be corrupted or encrypted. Try converting it to images.").

(** [parsePdf(file)]: what it logs on the console and how it settles. *)
Definition parsePdf (file : PdfFile)
  : list (JsString.t * Error) * result (list PageContent) :=
  let attempt :=
    match file with
    | Err e => Err e
    | Ok fetched => readPages 1 fetched
    end in
  match attempt with
  | Ok pages => ([], Ok pages)
  | Err error =>
      ([(JsString.lit "PDF Parsing Error:", error)],
       if bool_decide (errName error = JsString.lit "InvalidPDFException")
          || includes (JsString.lit "structure") (errMessage error)
       then Err corrupted
       else Err error)
  end.

End Pdf.

(** ** [App.tsx]: [handleFileUpload] *)

Module Upload.

Import Js.

Record File : Type := mkFile {
  fileType : JsString.t;
  fileName : JsString.t;
  asPdf : Pdf.PdfFile;                    (* what [parsePdf] finds *)
  firstPageImage : result JsString.t;     (* [renderPageToCanvas(file, 1, 3.0)] *)
  dataUrl : option JsString.t;            (* [reader.result] when [onload] fires;
                                             [None] when the read fails *)
  fileText : result JsString.t            (* [file.text()] *)
}.

Record Env : Type := mkEnv {
  tesseract : Ocr.Tesseract;
  cleanup_reply : JsString.t -> outcome (option JsString.t);
  randomUUID : JsString.t
}.

(** The part of the component that an upload touches, the alerts shown
    and the live OCR workers. *)
Record State : Type := mkState {
  doc : option App.DocumentData;
  isProcessing : bool;
  processingStatus : JsString.t;
  alerts : list JsString.t;
  console : list (JsString.t * Error);
  workers : nat
}.

Definition setDoc (v : option App.DocumentData) (st : State) : State :=
  mkState v (isProcessing st) (processingStatus st) (alerts st) (console st)
    (workers st).

Definition setIsProcessing (v : bool) (st : State) : State :=
  mkState (doc st) v (processingStatus st) (alerts st) (console st) (workers st).

Definition setProcessingStatus (v : JsString.t) (st : State) : State :=
  mkState (doc st) (isProcessing st) v (alerts st) (console st) (workers st).

Definition alert (msg : JsString.t) (st : State) : State :=
  mkState (doc st) (isProcessing st) (processingStatus st) (alerts st ++ [msg])
    (console st) (workers st).

Definition console_errors (entries : list (JsString.t * Error)) (st : State)
  : State :=
  mkState (doc st) (isProcessing st) (processingStatus st) (alerts st)
    (console st ++ entries) (workers st).

Definition set_workers (v : nat) (st : State) : State :=
  mkState (doc st) (isProcessing st) (processingStatus st) (alerts st)
    (console st) v.

(** [await performOCR(image)] *)
Definition runOCR (env : Env) (image : JsString.t) (st : State)
  : State * result JsString.t :=
  let '(n, r) := Ocr.performOCR (tesseract env) image (workers st) in
  (set_workers n st, r).

Definition singlePage (rawText : JsString.t) : list PageContent :=
  [ {| pageNumber := 1; blocks := []; rawText := rawText |} ].

(** [pages.reduce((acc, p) => acc + p.rawText.length, 0)] *)
Definition totalText (pages : list PageContent) : nat :=
  fold_left (fun acc p => (acc + length (rawText p))%nat) pages 0%nat.

(** [pages[0].rawText = ocrText] *)
Definition set_first_rawText (ocrText : JsString.t) (pages : list PageContent)
  : list PageContent :=
  match pages with
  | [] => []
  | first :: rest => mkPage (pageNumber first) (blocks first) ocrText :: rest
  end.

Definition unsupported : Error :=
  newError (JsString.lit "Format not supported. Please use PDF, JPG, PNG, or TXT.").

(** The [if ... else if ... else throw] that fills [pages]: it ends
    with the pages ([Some (Ok pages)]) or by an exception
    ([Some (Err e)]), or it does not end ([None]).  The promise that
    wraps the [FileReader] is resolved by [reader.onload] and by
    nothing else: when the read fails it is never settled, and the
    handler stays at that [await]. *)
Definition gatherPages (env : Env) (file : File) (st : State)
  : State * option (result (list PageContent)) :=
  if bool_decide (fileType file = JsString.lit "application/pdf") then
    let st := setProcessingStatus (JsString.lit "Decoding PDF structure...") st in
    let '(logged, parsed) := Pdf.parsePdf (asPdf file) in
    let st := console_errors logged st in
    match parsed with
    | Err e => (st, Some (Err e))
    | Ok pages =>
        if (totalText pages <? 100)%nat && (0 <? length pages)%nat then
          let st :=
            setProcessingStatus
              (JsString.lit "Image-based PDF detected. Initializing OCR...") st in
          match firstPageImage file with
          | Err e => (st, Some (Err e))
          | Ok image =>
              let '(st, r) := runOCR env image st in
              match r with
              | Err e => (st, Some (Err e))
              | Ok ocrText => (st, Some (Ok (set_first_rawText ocrText pages)))
              end
          end
        else (st, Some (Ok pages))
    end
  else if startsWith (JsString.lit "image/") (fileType file) then
    let st := setProcessingStatus (JsString.lit "Performing OCR...") st in
    match dataUrl file with
    | None => (st, None)
    | Some dataUrl =>
        let '(st, r) := runOCR env dataUrl st in
        match r with
        | Err e => (st, Some (Err e))
        | Ok ocrText => (st, Some (Ok (singlePage ocrText)))
        end
    end
  else if bool_decide (fileType file = JsString.lit "text/plain") then
    let st := setProcessingStatus (JsString.lit "Processing text...") st in
    match fileText file with
    | Err e => (st, Some (Err e))
    | Ok text => (st, Some (Ok (singlePage text)))
    end
  else (st, Some (Err unsupported)).

(** [file.type.includes('pdf') ? 'pdf' : (file.type.includes('image') ? 'image' : 'text')] *)
Definition documentType (file : File) : JsString.t :=
  if includes (JsString.lit "pdf") (fileType file) then JsString.lit "pdf"
  else if includes (JsString.lit "image") (fileType file) then JsString.lit "image"
  else JsString.lit "text".

(** The [catch] clause. *)
Definition failed (err : Error) (st : State) : State :=
  let msg :=
    match errMessage err with
    | [] => JsString.lit "An error occurred during processing."
    | m => m
    end in
  console_errors [([], err)] (alert msg st).

(** The [if (pages.length > 0) { ... }] that cleans the first page up
    and publishes the document. *)
Definition publish (env : Env) (file : File) (pages : list PageContent)
    (st : State) : State :=
  match pages with
  | [] => st
  | first :: rest =>
      let st :=
        setProcessingStatus (JsString.lit "Optimizing layout for audio...") st in
      match Gemini.processRawLayout (cleanup_reply env (rawText first))
              (rawText first) with
      | Rejected e => failed (newError e) st
      | Resolved cleaned =>
          setDoc
            (Some {| App.docId := randomUUID env;
                     App.docName := fileName file;
                     App.docType := documentType file;
                     App.pages :=
                       mkPage (pageNumber first) [App.paragraph_of cleaned]
                         (rawText first) :: rest;
                     App.totalBlocks := length pages |})
            st
      end
  end.

(** [handleFileUpload], for the file the input element holds, if any:
    the state when the handler has returned or, when it stays at an
    [await] for good, the state it leaves there (neither the [catch]
    clause nor the [finally] clause runs then). *)
Definition handleFileUpload (env : Env) (file : option File) (st : State)
  : State :=
  match file with
  | None => st
  | Some file =>
      let st := setIsProcessing true st in
      let st := setProcessingStatus (JsString.lit "Identifying document...") st in
      let '(st, gathered) := gatherPages env file st in
      match gathered with
      | None => st
      | Some settled =>
          let st :=
            match settled with
            | Err e => failed e st
            | Ok pages => publish env file pages st
            end in
          setProcessingStatus [] (setIsProcessing false st)
      end
  end.

End Upload.

(** ** [components/Visualizer] *)

Module Visualizer.

Definition bars : nat := 24.

(** The heights the effect starts from: [new Array(bars).fill(2)]. *)
Definition initialHeights : list Q := repeat 2 bars.

(** The new height of one bar; [random] is the value of
    [Math.random()], drawn only while playing. *)
Definition animateBar (isPlaying : bool) (canvasHeight random height : Q) : Q :=
  if isPlaying then
    let target := 5 + random * (canvasHeight - 10) in
    height + (target - height) * (2 # 10)
  else height + (2 - height) * (1 # 10).

(** One frame: every bar is updated in turn. *)
Fixpoint animate (isPlaying : bool) (canvasHeight : Q)
    (randoms heights : list Q) : list Q :=
  match heights with
  | [] => []
  | height :: heights' =>
      animateBar isPlaying canvasHeight (hd 0 randoms) height
        :: animate isPlaying canvasHeight (tl randoms) heights'
  end.

(** The frames of one run of the effect, each with its random draws. *)
Definition frames (isPlaying : bool) (canvasHeight : Q)
    (draws : list (list Q)) : list Q :=
  fold_left (fun heights randoms => animate isPlaying canvasHeight randoms heights)
    draws initialHeights.

(** The rectangle handed to [ctx.roundRect] for bar [i]. *)
Record Rect : Type := mkRect {
  left : Q;
  top : Q;
  rectWidth : Q;
  rectHeight : Q
}.

Definition barRect (canvasWidth canvasHeight : Q) (i : nat) (height : Q) : Rect :=
  let width := canvasWidth / inject_Z (Z.of_nat bars) in
  {| left := inject_Z (Z.of_nat i) * width + 2;
     top := (canvasHeight - height) / 2;
     rectWidth := width - 4;
     rectHeight := height |}.

End Visualizer.

(** ** [App.tsx]: the transport controls *)

Module Controls.

Import App.

Definition set_audioContextRef (v : bool) (st : State) : State :=
  mkState (doc st) (ttsState st) (currentText st) (processingStatus st)
    v (nextStartTimeRef st) (activeSourcesRef st)
    (isPlayingRef st) (nodes st) (console st) (timers st).

(** The state of the audio context when [playTTS] looks at it:
    running, or suspended, in which case [resume()] is awaited. *)
Inductive ContextState : Type :=
  | Running
  | Suspended (events : list Event) (resumed : outcome unit).

Record PlayEnv : Type := mkPlayEnv {
  context_state : ContextState;
  loop_env : Env
}.

(** [playTTS], called from a render whose [ttsState] is [snapshot].
    The call of [readLoop] is not awaited by the source; the result
    given here is the settlement of that call, or of [playTTS] itself
    when it ends before. *)
Definition playTTS (penv : PlayEnv) (snapshot : TTSState) (st : State)
  : Completion :=
  match doc st with
  | None => Fulfilled st
  | Some _ =>
      if isPlaying snapshot then Fulfilled (stopPlayback st)
      else
        let prepared :=
          if audioContextRef st then
            match context_state penv with
            | Running => Continue st
            | Suspended events (Resolved _) => Continue (suspended events st)
            | Suspended events (Rejected e) => Throw e (suspended events st)
            end
          else Continue (set_audioContextRef true st) in
        match prepared with
        | Throw e st => Threw e st
        | Continue st =>
            let st := setTtsState (with_isPlaying true) st in
            readLoop (loop_env penv) snapshot st
        end
  end.

(** The common part of the two page buttons: move the cursor to the
    head of page [target]; when the play flag is set, stop and call
    [playTTS] 100 ms later.  [events] is what else happens during
    that delay: requests to stop and sources that end.  This is the
    handler and the call it delays; a [readLoop] that is in flight
    when the button is pressed is not part of it. *)
Definition seek
    (target : nat) (events : list Event) (penv : PlayEnv)
    (snapshot : TTSState) (st : State) : Completion :=
  let st := setTtsState (with_cursor target 0) st in
  if isPlayingRef st then
    let st := stopPlayback st in
    let st := setTimeout 100 st in
    playTTS penv snapshot (suspended events st)
  else Fulfilled st.

(** [Math.max(0, ttsState.currentPage - 1)] *)
Definition previousTarget (snapshot : TTSState) : nat :=
  Nat.max 0 (currentPage snapshot - 1).

(** [Math.min(doc.pages.length - 1, ttsState.currentPage + 1)]; a
    document has at least one page. *)
Definition nextTarget (d : DocumentData) (snapshot : TTSState) : nat :=
  Nat.min (length (pages d) - 1) (currentPage snapshot + 1).

Definition previousPage
    (events : list Event) (penv : PlayEnv) (snapshot : TTSState) (st : State)
  : Completion :=
  seek (previousTarget snapshot) events penv snapshot st.

Definition nextPage
    (events : list Event) (penv : PlayEnv) (snapshot : TTSState) (st : State)
  : Completion :=
  match doc st with
  | Some d => seek (nextTarget d snapshot) events penv snapshot st
  | None => Fulfilled st
  end.

End Controls.

(** ** Sample inputs *)

Module Samples.

Definition fragment (t : string) (x y w h : Q) : TextItem :=
  {| text := JsString.lit t;
     box := {| x := x; y := y; w := w; h := h |};
     fontSize := 12;
     fontName := JsString.lit "Helvetica" |}.

(** Doubles, each given as [(m, e)] for [m * 2^e]: small integers,
    the literal 0.15, 1.05, numbers with 53 significant bits,
    subnormal numbers, the largest doubles. *)
Definition doubles : list (Z * Z) :=
  [ (0, 0); (15, 0); (7, 0); (-20, 0); (612, 0);
    (5404319552844595, -55); (4728779608739021, -52);
    (-6004799503160661, -54); (4503599627370497, -30);
    (-1, -1074); (11, -1074); (1, -1022);
    (9007199254740991, 971); (-9007199254740991, 971) ]%Z.

Definition left1 : TextItem := fragment "Left1" 0 0 50 10.
Definition right1 : TextItem := fragment "Right1" 300 0 50 10.
Definition left2 : TextItem := fragment "Left2" 0 20 50 10.

(** A two-column page, 400 units wide. *)
Definition two_columns : list TextItem := [left1; right1; left2].

(** Two fragments of one line whose texts carry stray whitespace
    (spaces, a tab, a line feed, a no-break space). *)
Definition ragged : list TextItem :=
  [ {| text := [32; 32; 97; 9; 10; 98; 32]%N;
       box := {| x := 0; y := 0; w := 50; h := 10 |};
       fontSize := 12; fontName := JsString.lit "Helvetica" |};
    {| text := [160; 99; 32; 32; 32; 100; 32; 160]%N;
       box := {| x := 50; y := 2; w := 40; h := 10 |};
       fontSize := 12; fontName := JsString.lit "Helvetica" |} ].

(** A document of one page that holds one block already. *)
Definition hello : TextBlock := App.paragraph_of (JsString.lit "Hello").

Definition one_block_doc : App.DocumentData :=
  {| App.docId := JsString.lit "7f1c";
     App.docName := JsString.lit "hello.txt";
     App.docType := JsString.lit "text";
     App.pages := [ {| pageNumber := 1; blocks := [hello];
                       rawText := JsString.lit "Hello" |} ];
     App.totalBlocks := 1 |}.

(** A document of one page whose clean-up is still to be done. *)
Definition raw_doc : App.DocumentData :=
  {| App.docId := JsString.lit "7f1d";
     App.docName := JsString.lit "raw.txt";
     App.docType := JsString.lit "text";
     App.pages := [ {| pageNumber := 1; blocks := [];
                       rawText := JsString.lit "He llo" |} ];
     App.totalBlocks := 1 |}.

Definition kore : TTSState :=
  {| isPlaying := true; currentPage := 0; currentBlockIndex := 0;
     speed := 1; pitch := 1; voice := JsString.lit "Kore"; volume := 1 |}.

(** The component while it plays [d]: the play flag is set and
    committed, nothing is scheduled yet. *)
Definition playing (d : App.DocumentData) : App.State :=
  {| App.doc := Some d;
     App.ttsState := kore;
     App.currentText := [];
     App.processingStatus := [];
     App.audioContextRef := true;
     App.nextStartTimeRef := 0;
     App.activeSourcesRef := ∅;
     App.isPlayingRef := true;
     App.nodes := [];
     App.console := [];
     App.timers := [] |}.

(** Four bytes of silence (two frames), base64 encoded. *)
Definition silence : JsString.t := JsString.lit "AAAAAA==".

(** The service answers every request; the user asks to stop while the
    speech request is pending; the audio clock reads 3 seconds when the
    answer arrives. *)
Definition stop_while_synthesizing : App.Env :=
  {| App.page_env := fun _ =>
       {| App.cleanup_events := [];
          App.cleanup_reply := fun raw => Resolved (Some raw) |};
     App.block_env := fun _ _ =>
       {| App.speech_events := [App.StopRequested];
          App.speech_reply := fun _ _ => Resolved (Some silence);
          App.currentTime := 3;
          App.sleep_events := [] |} |}.

(** The clean-up request is rejected, nothing else happens. *)
Definition cleanup_unavailable : App.Env :=
  {| App.page_env := fun _ =>
       {| App.cleanup_events := [];
          App.cleanup_reply := fun _ => Rejected (JsString.lit "503") |};
     App.block_env := fun _ _ =>
       {| App.speech_events := [];
          App.speech_reply := fun _ _ => Resolved (Some silence);
          App.currentTime := 3;
          App.sleep_events := [] |} |}.

(** The speech request is rejected, nothing else happens. *)
Definition speech_unavailable : App.Env :=
  {| App.page_env := fun _ =>
       {| App.cleanup_events := [];
          App.cleanup_reply := fun raw => Resolved (Some raw) |};
     App.block_env := fun _ _ =>
       {| App.speech_events := [];
          App.speech_reply := fun _ _ => Rejected (JsString.lit "429");
          App.currentTime := 3;
          App.sleep_events := [] |} |}.

(** A document of one page with three blocks. *)
Definition three_block_doc : App.DocumentData :=
  {| App.docId := JsString.lit "7f1e";
     App.docName := JsString.lit "three.txt";
     App.docType := JsString.lit "text";
     App.pages :=
       [ {| pageNumber := 1;
            blocks := [ App.paragraph_of (JsString.lit "One");
                        App.paragraph_of (JsString.lit "Two");
                        App.paragraph_of (JsString.lit "Three") ];
            rawText := JsString.lit "One Two Three" |} ];
     App.totalBlocks := 1 |}.

(** The speech request for the second block of a page is rejected,
    the others are answered; the first source has ended when the
    third block is asked for. *)
Definition second_block_fails : App.Env :=
  {| App.page_env := fun _ =>
       {| App.cleanup_events := [];
          App.cleanup_reply := fun raw => Resolved (Some raw) |};
     App.block_env := fun _ bIdx =>
       {| App.speech_events :=
            match bIdx with
            | 2%nat => [App.SourceEnded 0]
            | _ => []
            end;
          App.speech_reply := fun _ _ =>
            match bIdx with
            | 1%nat => Rejected (JsString.lit "429")
            | _ => Resolved (Some silence)
            end;
          App.currentTime := 3;
          App.sleep_events := [] |} |}.

Definition beep : AudioBuffer :=
  {| numberOfChannels := 1; sampleRate := 24000;
     channelData := [[0; 1 # 2]]; duration := 2 # 24000 |}.

(** Two nodes are tracked: one that plays, and one that has played to
    its end but whose [ended] event is still to be delivered. *)
Definition two_sources : App.State :=
  {| App.doc := Some one_block_doc;
     App.ttsState := kore;
     App.currentText := [];
     App.processingStatus := [];
     App.audioContextRef := true;
     App.nextStartTimeRef := 7;
     App.activeSourcesRef := {[0%nat; 1%nat]};
     App.isPlayingRef := true;
     App.nodes :=
       [ App.mkSource beep 1 (Some 3) false false;
         App.mkSource beep 1 (Some 1) false true ];
     App.console := [];
     App.timers := [] |}.

(** A PDF page of 400 by 600 units with the three fragments of the
    two-column sample, in pdf.js coordinates (origin at the bottom). *)
Definition pdf_item (t : string) (e f width height : Q) : Pdf.PdfTextItem :=
  {| Pdf.str := JsString.lit t;
     Pdf.transform := [12; 0; 0; 12; e; f];
     Pdf.width := width;
     Pdf.height := height;
     Pdf.pdfFontName := JsString.lit "g_d0_f1" |}.

Definition pdf_page : Pdf.PdfPage :=
  {| Pdf.textItems :=
       [ pdf_item "Left1" 0 600 50 10;
         pdf_item "Right1" 300 600 50 10;
         pdf_item "Left2" 0 580 50 10 ];
     Pdf.viewport := {| Pdf.vpWidth := 400; Pdf.vpHeight := 600 |} |}.

(** A PDF whose second page cannot be fetched. *)
Definition broken_pdf : Pdf.PdfFile :=
  Js.Ok [ Js.Ok pdf_page;
          Js.Err {| Js.errName := JsString.lit "InvalidPDFException";
                    Js.errMessage := JsString.lit "Invalid PDF structure." |} ].

Definition healthy_ocr : Ocr.Tesseract :=
  {| Ocr.createWorker := Js.Ok tt;
     Ocr.recognize := fun _ => Js.Ok (JsString.lit "Scanned text");
     Ocr.terminate := Js.Ok tt |}.

(** The worker starts but cannot read the image. *)
Definition failing_ocr : Ocr.Tesseract :=
  {| Ocr.createWorker := Js.Ok tt;
     Ocr.recognize := fun _ => Js.Err (Js.newError (JsString.lit "Cannot read image"));
     Ocr.terminate := Js.Ok tt |}.

Definition upload_env : Upload.Env :=
  {| Upload.tesseract := healthy_ocr;
     Upload.cleanup_reply := fun raw => Resolved (Some raw);
     Upload.randomUUID := JsString.lit "7f1c" |}.

Definition pdf_upload : Upload.File :=
  {| Upload.fileType := JsString.lit "application/pdf";
     Upload.fileName := JsString.lit "columns.pdf";
     Upload.asPdf := Js.Ok [Js.Ok pdf_page];
     Upload.firstPageImage := Js.Ok (JsString.lit "data:image/jpeg;base64,AAAA");
     Upload.dataUrl := Some (JsString.lit "data:application/pdf;base64,AAAA");
     Upload.fileText := Js.Ok [] |}.

Definition zip_upload : Upload.File :=
  {| Upload.fileType := JsString.lit "application/zip";
     Upload.fileName := JsString.lit "archive.zip";
     Upload.asPdf := Js.Err (Js.newError (JsString.lit "not a PDF"));
     Upload.firstPageImage := Js.Err (Js.newError (JsString.lit "not a PDF"));
     Upload.dataUrl := Some (JsString.lit "data:application/zip;base64,AAAA");
     Upload.fileText := Js.Ok [] |}.


Definition no_upload_yet : Upload.State :=
  {| Upload.doc := None;
     Upload.isProcessing := false;
     Upload.processingStatus := [];
     Upload.alerts := [];
     Upload.console := [];
     Upload.workers := 0 |}.

(** The component at rest on [d]: nothing plays, the flag is clear. *)
Definition at_rest (d : App.DocumentData) : App.State :=
  {| App.doc := Some d;
     App.ttsState := App.with_isPlaying false kore;
     App.currentText := [];
     App.processingStatus := [];
     App.audioContextRef := false;
     App.nextStartTimeRef := 0;
     App.activeSourcesRef := ∅;
     App.isPlayingRef := false;
     App.nodes := [];
     App.console := [];
     App.timers := [] |}.

(** The audio context runs and every request is answered. *)
Definition all_well : Controls.PlayEnv :=
  {| Controls.context_state := Controls.Running;
     Controls.loop_env :=
       {| App.page_env := fun _ =>
            {| App.cleanup_events := [];
               App.cleanup_reply := fun raw => Resolved (Some raw) |};
          App.block_env := fun _ _ =>
            {| App.speech_events := [];
               App.speech_reply := fun _ _ => Resolved (Some silence);
               App.currentTime := 3;
               App.sleep_events := [] |} |} |}.

End Samples.

(** ** Vocabulary of further properties *)

Module Derived.

(** The number of places where the split test fires between a
    fragment of [l] and its successor. *)
Fixpoint count_gaps (pageWidth : Q) (l : list TextItem) : nat :=
  match l with
  | [] => 0
  | a :: l' =>
      match l' with
      | [] => 0
      | b :: _ => if Layout.farApart pageWidth (box a) b then 1 else 0
      end + count_gaps pageWidth l'
  end.

(** The code units of [s] that are not whitespace. *)
Definition ink (s : JsString.t) : JsString.t :=
  List.filter (fun c => negb (JsString.is_whitespace c)) s.

(** Every tracked handle names a source that was started and that
    ends, at its playback rate, no later than [nextStartTimeRef]. *)
Definition timeline_ok (st : App.State) : Prop :=
  forall s, s ∈ App.activeSourcesRef st ->
    exists n t,
      App.nodes st !! s = Some n
      /\ App.startTime n = Some t
      /\ t + duration (App.buffer n) / App.playbackRate n
         <= App.nextStartTimeRef st.

(** A value that [Math.random()] may return. *)
Definition unit_draw (r : Q) : Prop := 0 <= r /\ r < 1.

(** A bar height between the resting height and the highest target. *)
Definition in_band (canvasHeight h : Q) : Prop :=
  2 <= h /\ h <= canvasHeight - 5.

(** A rectangle that lies on a canvas of the given size. *)
Definition inside_canvas (canvasWidth canvasHeight : Q) (r : Visualizer.Rect)
  : Prop :=
  0 <= Visualizer.left r
  /\ 0 <= Visualizer.rectWidth r
  /\ Visualizer.left r + Visualizer.rectWidth r <= canvasWidth
  /\ 0 <= Visualizer.top r
  /\ 0 <= Visualizer.rectHeight r
  /\ Visualizer.top r + Visualizer.rectHeight r <= canvasHeight.

End Derived.

(** * Properties *)

(** ** The stable sort *)

Section ArraySortFacts.
Context {A : Type}.
Variable compareFn : A -> A -> Q.

Lemma sort_insert_perm (a : A) (l : list A) :
  Permutation (a :: l) (sort_insert compareFn a l).
Proof.
  induction l as [|b l IH]; simpl.
  - reflexivity.
  - destruct (Qle_bool (compareFn a b) 0).
    + reflexivity.
    + rewrite perm_swap. now apply perm_skip.
Qed.

Lemma array_sort_perm (l : list A) :
  Permutation l (array_sort compareFn l).
Proof.
  induction l as [|a l IH]; simpl.
  - constructor.
  - rewrite <- sort_insert_perm. now apply perm_skip.
Qed.

Lemma array_sort_length (l : list A) :
  length (array_sort compareFn l) = length l.
Proof. symmetry. apply Permutation_length, array_sort_perm. Qed.

(** Sortedness, for a comparator that decides a total preorder [le]. *)
Variable le : A -> A -> Prop.

Lemma sort_insert_sorted (a : A) (l : list A) :
  (forall u v, compareFn u v <= 0 -> le u v) ->
  (forall u v, ~ compareFn u v <= 0 -> le v u) ->
  (forall u v t, le u v -> le v t -> le u t) ->
  StronglySorted le l -> StronglySorted le (sort_insert compareFn a l).
Proof.
  intros Hle Hgt Htr. induction 1 as [|b l Hs IH Hall]; simpl.
  - repeat constructor.
  - destruct (Qle_bool (compareFn a b) 0) eqn:E.
    + apply Qle_bool_iff, Hle in E.
      constructor; [now constructor|].
      constructor; [exact E|].
      rewrite Forall_forall in Hall |- *. intros c Hc. eauto.
    + assert (Hba : le b a).
      { apply Hgt. rewrite <- Qle_bool_iff. now rewrite E. }
      constructor; [exact IH|].
      eapply Permutation_Forall; [apply sort_insert_perm|].
      now constructor.
Qed.

Lemma array_sort_sorted (l : list A) :
  (forall u v, compareFn u v <= 0 -> le u v) ->
  (forall u v, ~ compareFn u v <= 0 -> le v u) ->
  (forall u v t, le u v -> le v t -> le u t) ->
  StronglySorted le (array_sort compareFn l).
Proof.
  intros Hle Hgt Htr. induction l as [|a l IH]; simpl.
  - constructor.
  - now apply sort_insert_sorted.
Qed.

(** Stability: a class of elements that the comparator cannot tell
    apart comes out in the order it went in. *)
Lemma sort_insert_filter (p : A -> bool) (a : A) (l : list A) :
  (forall u v, p u = true -> p v = true -> compareFn u v <= 0) ->
  List.filter p (sort_insert compareFn a l) = List.filter p (a :: l).
Proof.
  intros Hp. induction l as [|b l IH]; simpl.
  - reflexivity.
  - destruct (Qle_bool (compareFn a b) 0) eqn:E.
    + reflexivity.
    + simpl. rewrite IH. simpl.
      destruct (p a) eqn:Ea; [|reflexivity].
      destruct (p b) eqn:Eb; [|reflexivity].
      exfalso. specialize (Hp a b Ea Eb).
      apply Qle_bool_iff in Hp. congruence.
Qed.

Lemma array_sort_stable (p : A -> bool) (l : list A) :
  (forall u v, p u = true -> p v = true -> compareFn u v <= 0) ->
  List.filter p (array_sort compareFn l) = List.filter p l.
Proof.
  intros Hp. induction l as [|a l IH]; simpl.
  - reflexivity.
  - rewrite sort_insert_filter by exact Hp. simpl. now rewrite IH.
Qed.

End ArraySortFacts.

Section ArraySortUnique.
Context {A : Type}.
Variable compareFn : A -> A -> Q.

(** For a consistent comparator the result of a stable sort is
    determined: a sorted permutation of [l] that keeps the ties in
    their input order is [array_sort l], whatever algorithm produced
    it. *)
Lemma stable_sorted_unique (l1 l2 : list A) :
  (forall u v, ~ compareFn u v <= 0 -> compareFn v u <= 0) ->
  Permutation l1 l2 ->
  StronglySorted (fun u v => compareFn u v <= 0) l1 ->
  StronglySorted (fun u v => compareFn u v <= 0) l2 ->
  (forall a, List.filter (sort_tie compareFn a) l1
             = List.filter (sort_tie compareFn a) l2) ->
  l1 = l2.
Proof.
  intros Htot. revert l2.
  assert (Hrefl : forall u, compareFn u u <= 0).
  { intros u. destruct (Qlt_le_dec 0 (compareFn u u)) as [H|H]; [|exact H].
    apply Htot. now apply Qlt_not_le. }
  induction l1 as [|x l1 IH]; intros l2 Hperm Hs1 Hs2 Hst.
  - now apply Permutation_nil in Hperm.
  - destruct l2 as [|y l2].
    { symmetry in Hperm. now apply Permutation_nil in Hperm. }
    apply StronglySorted_inv in Hs1 as [Hs1 Hx].
    apply StronglySorted_inv in Hs2 as [Hs2 Hy].
    rewrite List.Forall_forall in Hx, Hy.
    assert (Hxy : compareFn x y <= 0).
    { assert (Hin : In y (x :: l1)).
      { eapply Permutation_in; [symmetry; exact Hperm|now left]. }
      destruct Hin as [->|Hin]; [apply Hrefl|now apply Hx]. }
    assert (Hyx : compareFn y x <= 0).
    { assert (Hin : In x (y :: l2)).
      { eapply Permutation_in; [exact Hperm|now left]. }
      destruct Hin as [->|Hin]; [apply Hrefl|now apply Hy]. }
    assert (Exy : x = y).
    { assert (Txx : sort_tie compareFn x x = true).
      { unfold sort_tie. now rewrite (proj2 (Qle_bool_iff _ _) (Hrefl x)). }
      assert (Txy : sort_tie compareFn x y = true).
      { unfold sort_tie.
        now rewrite (proj2 (Qle_bool_iff _ _) Hxy), (proj2 (Qle_bool_iff _ _) Hyx). }
      specialize (Hst x). simpl in Hst. rewrite Txx, Txy in Hst.
      now injection Hst. }
    subst y. f_equal. apply IH.
    + eapply Permutation_cons_inv. exact Hperm.
    + exact Hs1.
    + exact Hs2.
    + intros a. specialize (Hst a). simpl in Hst.
      destruct (sort_tie compareFn a x); [now injection Hst|exact Hst].
Qed.

Lemma array_sort_unique (l l' : list A) :
  (forall u v, ~ compareFn u v <= 0 -> compareFn v u <= 0) ->
  (forall u v t, compareFn u v <= 0 -> compareFn v t <= 0 -> compareFn u t <= 0) ->
  Permutation l l' ->
  StronglySorted (fun u v => compareFn u v <= 0) l' ->
  (forall a, List.filter (sort_tie compareFn a) l'
             = List.filter (sort_tie compareFn a) l) ->
  l' = array_sort compareFn l.
Proof.
  intros Htot Htr Hperm Hsorted Hstable.
  apply stable_sorted_unique; try assumption.
  - rewrite <- Hperm. apply array_sort_perm.
  - apply (array_sort_sorted compareFn (fun u v => compareFn u v <= 0)); auto.
  - intros a. rewrite Hstable. symmetry. apply array_sort_stable.
    intros u v Hu Hv. unfold sort_tie in Hu, Hv.
    apply andb_prop in Hu as [_ Hu]. apply andb_prop in Hv as [Hv _].
    apply Qle_bool_iff in Hu, Hv. eauto.
Qed.

End ArraySortUnique.

(** ** Binary64 arithmetic *)

Module DoubleFacts.

Import Double.

(** *** Powers of two and the binary exponent *)

Lemma pow2_pos (e : Z) : 0 < 2 ^ e.
Proof. now apply Qpower_0_lt. Qed.

Lemma pow2_add (a b : Z) : 2 ^ (a + b) == 2 ^ a * 2 ^ b.
Proof. apply Qpower_plus. discriminate. Qed.

Lemma pow2_succ (a : Z) : 2 ^ (a + 1) == 2 * 2 ^ a.
Proof. rewrite pow2_add. change (2 ^ 1) with 2. ring. Qed.

Lemma pow2_pred (a : Z) : 2 ^ a == 2 * 2 ^ (a - 1).
Proof. rewrite <- pow2_succ. now replace (a - 1 + 1)%Z with a by ring. Qed.

Lemma pow2_sub (a b : Z) : 2 ^ (a - b) == 2 ^ a / 2 ^ b.
Proof.
  unfold Z.sub. rewrite pow2_add, Qpower_opp. reflexivity.
Qed.

Lemma pow2_le (a b : Z) : (a <= b)%Z -> 2 ^ a <= 2 ^ b.
Proof. intros H. apply Qpower_le_compat_l; [exact H|discriminate]. Qed.

Lemma pow2_lt (a b : Z) : (a < b)%Z -> 2 ^ a < 2 ^ b.
Proof. intros H. apply Qpower_lt_compat_l; [exact H|reflexivity]. Qed.

Lemma pow2_inject (n : Z) : (0 <= n)%Z -> 2 ^ n == inject_Z (2 ^ n).
Proof. intros H. now rewrite Zpower_Qpower. Qed.

Lemma Qabs_frac (q : Q) :
  Qabs q == inject_Z (Z.abs (Qnum q)) / inject_Z (Zpos (Qden q)).
Proof.
  destruct q as [n d]. unfold Qabs. simpl Qnum. simpl Qden.
  rewrite (Qmake_Qdiv (Z.abs n) d). reflexivity.
Qed.

Lemma Qnum_nonzero (q : Q) : ~ q == 0 -> (0 < Z.abs (Qnum q))%Z.
Proof.
  intros H. destruct q as [n d]. simpl.
  assert (n <> 0)%Z; [|lia].
  intros ->. apply H. reflexivity.
Qed.

Lemma ilog2_bounds (q : Q) :
  ~ q == 0 ->
  let e := (Z.log2 (Z.abs (Qnum q)) - Z.log2 (Zpos (Qden q)))%Z in
  2 ^ (e - 1) < Qabs q /\ Qabs q < 2 ^ (e + 1).
Proof.
  intros Hq e.
  pose proof (Qnum_nonzero q Hq) as Hn.
  set (n := Z.abs (Qnum q)) in *. set (d := Zpos (Qden q)) in *.
  assert (Hd : (0 < d)%Z) by reflexivity.
  pose proof (Z.log2_spec n Hn) as [Hn1 Hn2].
  pose proof (Z.log2_spec d Hd) as [Hd1 Hd2].
  pose proof (Z.log2_nonneg n) as Ha. pose proof (Z.log2_nonneg d) as Hb.
  set (a := Z.log2 n) in *. set (b := Z.log2 d) in *.
  rewrite Z.pow_succ_r in Hn2, Hd2 by assumption.
  assert (HN1 : 2 ^ a <= inject_Z n).
  { rewrite pow2_inject by assumption. now rewrite <- Zle_Qle. }
  assert (HN2 : inject_Z n < 2 * 2 ^ a).
  { rewrite pow2_inject by assumption.
    change 2 with (inject_Z 2) at 1. rewrite <- inject_Z_mult, <- Zlt_Qlt. exact Hn2. }
  assert (HD1 : 2 ^ b <= inject_Z d).
  { rewrite pow2_inject by assumption. now rewrite <- Zle_Qle. }
  assert (HD2 : inject_Z d < 2 * 2 ^ b).
  { rewrite pow2_inject by assumption.
    change 2 with (inject_Z 2) at 1. rewrite <- inject_Z_mult, <- Zlt_Qlt. exact Hd2. }
  pose proof (pow2_pos a) as Pa. pose proof (pow2_pos b) as Pb.
  assert (HD0 : 0 < inject_Z d) by lra.
  rewrite (Qabs_frac q). fold n. fold d.
  unfold e.
  replace (a - b - 1)%Z with (a - (b + 1))%Z by ring.
  replace (a - b + 1)%Z with (a + 1 - b)%Z by ring.
  rewrite !pow2_sub, !pow2_succ.
  set (P := 2 ^ a) in *. set (R := 2 ^ b) in *.
  set (N := inject_Z n) in *. set (D := inject_Z d) in *.
  assert (HR : 2 * R * / (2 * R) == 1) by (field; lra).
  assert (HR' : R * / R == 1) by (field; lra).
  split.
  - apply Qlt_shift_div_l; [exact HD0|].
    unfold Qdiv.
    assert (0 < P * / (2 * R)).
    { apply Qmult_lt_0_compat; [exact Pa|]. apply Qinv_lt_0_compat. lra. }
    apply Qlt_le_trans with (y := P * / (2 * R) * (2 * R)).
    + apply Qmult_lt_l; assumption.
    + rewrite <- Qmult_assoc, (Qmult_comm (/ (2 * R))), HR. lra.
  - apply Qlt_shift_div_r; [exact HD0|].
    unfold Qdiv.
    assert (0 < 2 * P * / R).
    { apply Qmult_lt_0_compat; [lra|]. now apply Qinv_lt_0_compat. }
    apply Qlt_le_trans with (y := 2 * P * / R * R).
    + rewrite <- Qmult_assoc, (Qmult_comm (/ R)), HR'. lra.
    + apply Qmult_le_l; assumption.
Qed.

Lemma ilog2_spec (q : Q) :
  ~ q == 0 -> 2 ^ ilog2 q <= Qabs q /\ Qabs q < 2 ^ (ilog2 q + 1).
Proof.
  intros Hq. destruct (ilog2_bounds q Hq) as [Hlo Hhi]. unfold ilog2.
  set (e := (Z.log2 (Z.abs (Qnum q)) - Z.log2 (Zpos (Qden q)))%Z) in *.
  destruct (Qle_bool (2 ^ e) (Qabs q)) eqn:E.
  - apply Qle_bool_iff in E. split; assumption.
  - split; [now apply Qlt_le_weak|].
    replace (e - 1 + 1)%Z with e by ring.
    apply Qnot_le_lt. intros H. apply Qle_bool_iff in H. congruence.
Qed.

Lemma ilog2_unique (q : Q) (e : Z) :
  2 ^ e <= Qabs q -> Qabs q < 2 ^ (e + 1) -> ilog2 q = e.
Proof.
  intros Hlo Hhi.
  assert (Hq : ~ q == 0).
  { intros H. rewrite H in Hlo. pose proof (pow2_pos e).
    change (Qabs 0) with 0 in Hlo. lra. }
  destruct (ilog2_spec q Hq) as [Hlo' Hhi'].
  destruct (Z.lt_trichotomy (ilog2 q) e) as [L|[E|G]]; [|exact E|].
  - pose proof (pow2_le (ilog2 q + 1) e ltac:(lia)). lra.
  - pose proof (pow2_le (e + 1) (ilog2 q) ltac:(lia)). lra.
Qed.

Lemma ilog2_comp (p q : Q) : ~ q == 0 -> p == q -> ilog2 p = ilog2 q.
Proof.
  intros NZ E.
  destruct (ilog2_spec q NZ) as [Hlo Hhi].
  apply ilog2_unique; now rewrite E.
Qed.

(** *** Rounding to an integer *)

Lemma nearest_even_cases (s : Q) :
  let f := Qfloor s in
  inject_Z f <= s /\ s < inject_Z f + 1
  /\ ((s - inject_Z f < 1 # 2 /\ nearest_even s = f)
      \/ (s - inject_Z f == 1 # 2
          /\ nearest_even s = (if Z.even f then f else f + 1)%Z)
      \/ (1 # 2 < s - inject_Z f /\ nearest_even s = (f + 1)%Z)).
Proof.
  intros f. pose proof (Qfloor_le s) as H1. pose proof (Qlt_floor s) as H2.
  fold f in H1, H2. rewrite inject_Z_plus in H2. change (inject_Z 1) with 1 in H2.
  split; [exact H1|]. split; [exact H2|].
  unfold nearest_even. fold f.
  destruct (Qcompare (s - inject_Z f) (1 # 2)) eqn:E.
  - right. left. split; [now apply Qeq_alt|reflexivity].
  - left. split; [now apply Qlt_alt|reflexivity].
  - right. right. split; [now apply Qgt_alt|reflexivity].
Qed.

Lemma nearest_even_spec (s : Q) :
  s - (1 # 2) <= inject_Z (nearest_even s)
  /\ inject_Z (nearest_even s) <= s + (1 # 2).
Proof.
  destruct (nearest_even_cases s) as (H1 & H2 & [[H ->]|[[H ->]|[H ->]]]).
  - split; lra.
  - destruct (Z.even _); [split; lra|].
    rewrite inject_Z_plus. change (inject_Z 1) with 1. split; lra.
  - rewrite inject_Z_plus. change (inject_Z 1) with 1. split; lra.
Qed.

Lemma nearest_even_comp (s t : Q) : s == t -> nearest_even s = nearest_even t.
Proof.
  intros E. unfold nearest_even.
  rewrite (Qfloor_comp s t E).
  assert (H : s - inject_Z (Qfloor t) == t - inject_Z (Qfloor t)) by now rewrite E.
  now rewrite (Qcompare_comp _ _ H _ _ (Qeq_refl (1 # 2))).
Qed.

Lemma nearest_even_Z (k : Z) : nearest_even (inject_Z k) = k.
Proof.
  unfold nearest_even. rewrite Qfloor_Z.
  assert (H : inject_Z k - inject_Z k == 0) by ring.
  now rewrite (Qcompare_comp _ _ H _ _ (Qeq_refl (1 # 2))).
Qed.

Lemma nearest_even_mono (s t : Q) :
  s <= t -> (nearest_even s <= nearest_even t)%Z.
Proof.
  intros Hst.
  pose proof (Qfloor_resp_le s t Hst) as Hf.
  destruct (nearest_even_cases s) as (Hs1 & Hs2 & Cs).
  destruct (nearest_even_cases t) as (Ht1 & Ht2 & Ct).
  destruct (Z.eq_dec (Qfloor s) (Qfloor t)) as [E|NE].
  - rewrite E in *.
    destruct Cs as [[Hs ->]|[[Hs ->]|[Hs ->]]];
      destruct Ct as [[Ht ->]|[[Ht ->]|[Ht ->]]];
      try destruct (Z.even (Qfloor t)); try lia; exfalso; lra.
  - assert (Hlt : (Qfloor s + 1 <= Qfloor t)%Z) by lia.
    assert (Hs : (nearest_even s <= Qfloor s + 1)%Z).
    { destruct Cs as [[_ ->]|[[_ ->]|[_ ->]]];
        try destruct (Z.even (Qfloor s)); lia. }
    assert (Ht : (Qfloor t <= nearest_even t)%Z).
    { destruct Ct as [[_ ->]|[[_ ->]|[_ ->]]];
        try destruct (Z.even (Qfloor t)); lia. }
    lia.
Qed.

(** *** Rounding to a double *)

Lemma nearest_zero (q : Q) : q == 0 -> nearest q = 0.
Proof.
  intros H. unfold nearest. now rewrite (proj2 (Qeq_bool_iff q 0) H).
Qed.

Lemma nearest_nonzero (q : Q) :
  ~ q == 0 ->
  nearest q = inject_Z (nearest_even (q / 2 ^ lsb q)) * 2 ^ lsb q.
Proof.
  intros H. unfold nearest.
  destruct (Qeq_bool q 0) eqn:E; [|reflexivity].
  now apply Qeq_bool_iff in E.
Qed.

Lemma lsb_comp (p q : Q) : ~ q == 0 -> p == q -> lsb p = lsb q.
Proof. intros NZ E. unfold lsb. now rewrite (ilog2_comp p q NZ E). Qed.

Lemma nearest_comp (p q : Q) : p == q -> nearest p == nearest q.
Proof.
  intros E. destruct (Qeq_dec q 0) as [Z0|NZ].
  - rewrite (nearest_zero q Z0), (nearest_zero p); [reflexivity|].
    now rewrite E.
  - assert (NZ' : ~ p == 0) by now rewrite E.
    rewrite (nearest_nonzero p NZ'), (nearest_nonzero q NZ).
    rewrite (lsb_comp p q NZ E).
    assert (H : p / 2 ^ lsb q == q / 2 ^ lsb q) by now rewrite E.
    now rewrite (nearest_even_comp _ _ H).
Qed.

(** The scaled value of a non-zero number has at most 53 bits before
    the point, and exactly 53 when the number is in the normal
    range. *)
Lemma scaled_bounds (q : Q) :
  ~ q == 0 ->
  Qabs (q / 2 ^ lsb q) < 2 ^ 53
  /\ ((-1022 <= ilog2 q)%Z -> 2 ^ 52 <= Qabs (q / 2 ^ lsb q)).
Proof.
  intros NZ. destruct (ilog2_spec q NZ) as [Hlo Hhi].
  pose proof (pow2_pos (lsb q)) as Pl.
  assert (Habs : Qabs (q / 2 ^ lsb q) == Qabs q / 2 ^ lsb q).
  { unfold Qdiv. rewrite Qabs_Qmult. rewrite (Qabs_pos (/ 2 ^ lsb q)); [reflexivity|].
    apply Qlt_le_weak. now apply Qinv_lt_0_compat. }
  rewrite Habs. split.
  - apply Qlt_shift_div_r; [exact Pl|].
    rewrite <- pow2_add.
    apply Qlt_le_trans with (y := 2 ^ (ilog2 q + 1)); [exact Hhi|].
    apply pow2_le. unfold lsb. lia.
  - intros Hn. apply Qle_shift_div_l; [exact Pl|].
    rewrite <- pow2_add.
    apply Qle_trans with (y := 2 ^ ilog2 q); [|exact Hlo].
    apply pow2_le. unfold lsb. lia.
Qed.

Lemma pow2_split (a b : Z) :
  (b <= a)%Z -> 2 ^ a == inject_Z (2 ^ (a - b)) * 2 ^ b.
Proof.
  intros H. rewrite <- pow2_inject by lia. rewrite <- pow2_add.
  now replace (a - b + b)%Z with a by ring.
Qed.

(** A double is an integer multiple of its least significant bit. *)
Lemma representable_grid (y : Q) :
  ~ y == 0 -> nearest y == y -> exists K : Z, y == inject_Z K * 2 ^ lsb y.
Proof.
  intros NZ H. rewrite (nearest_nonzero y NZ) in H. eexists. symmetry. exact H.
Qed.

Lemma positive_multiple (M : Z) (P : Q) :
  0 < P -> 0 < inject_Z M * P -> P <= inject_Z M * P.
Proof.
  intros HP H.
  assert (HM : (1 <= M)%Z).
  { destruct (Z.le_gt_cases M 0) as [L|G]; [|lia].
    exfalso. rewrite Zle_Qle in L. change (inject_Z 0) with 0 in L.
    assert (inject_Z M * P <= 0 * P) by (apply Qmult_le_compat_r; lra). lra. }
  rewrite Zle_Qle in HM. change (inject_Z 1) with 1 in HM.
  assert (1 * P <= inject_Z M * P) by (apply Qmult_le_compat_r; lra). lra.
Qed.

Lemma Qfloor_lt (x : Q) (n : Z) : x < inject_Z n + 1 -> (Qfloor x <= n)%Z.
Proof.
  intros H. pose proof (Qfloor_le x) as Hf.
  assert (L : inject_Z (Qfloor x) < inject_Z (n + 1)).
  { rewrite inject_Z_plus. change (inject_Z 1) with 1. lra. }
  rewrite <- Zlt_Qlt in L. lia.
Qed.

Lemma ilog2_lt (q : Q) (e : Z) : ~ q == 0 -> Qabs q < 2 ^ e -> (ilog2 q < e)%Z.
Proof.
  intros NZ H. destruct (ilog2_spec q NZ) as [Hlo _].
  destruct (Z.lt_ge_cases (ilog2 q) e) as [L|G]; [exact L|].
  pose proof (pow2_le e (ilog2 q) G). lra.
Qed.

Lemma ilog2_ge (q : Q) (e : Z) : ~ q == 0 -> 2 ^ e <= Qabs q -> (e <= ilog2 q)%Z.
Proof.
  intros NZ H. destruct (ilog2_spec q NZ) as [_ Hhi].
  destruct (Z.le_gt_cases e (ilog2 q)) as [L|G]; [exact L|].
  pose proof (pow2_le (ilog2 q + 1) e ltac:(lia)). lra.
Qed.

(** For a double [y] that is not a negative number within [2^-1070]
    of zero and not beyond [2^55] in magnitude, the floor of the
    rounded quotient [y / 20] is the floor of the exact quotient. *)
Lemma band_exact (y : Q) :
  nearest y == y ->
  Qabs y <= 2 ^ 55 ->
  0 <= y \/ y <= - 2 ^ (-1070) ->
  Qfloor (nearest (y / 20)) = Qfloor (y / 20).
Proof.
  intros Hrep Hmax Hmin.
  destruct (Qeq_dec y 0) as [Z0|NZ].
  { assert (Hc : y / 20 == 0) by (rewrite Z0; reflexivity).
    rewrite (nearest_zero _ Hc). now rewrite (Qfloor_comp _ _ Hc). }
  set (c := y / 20).
  assert (Hy : y == 20 * c) by (unfold c; field).
  assert (NZc : ~ c == 0).
  { intros H. apply NZ. rewrite Hy, H. reflexivity. }
  assert (Habs : Qabs y == 20 * Qabs c).
  { rewrite Hy, Qabs_Qmult. reflexivity. }
  set (n := Qfloor c).
  pose proof (Qfloor_le c) as Hn1. pose proof (Qlt_floor c) as Hn2.
  fold n in Hn1, Hn2. rewrite inject_Z_plus in Hn2. change (inject_Z 1) with 1 in Hn2.
  destruct (ilog2_spec c NZc) as [Hclo Hchi].
  (* the quotient is below [2^51] *)
  assert (Hc51 : (ilog2 c < 51)%Z).
  { apply ilog2_lt; [exact NZc|].
    assert (E55 : 2 ^ 55 == 16 * 2 ^ 51) by reflexivity.
    pose proof (pow2_pos 51). lra. }
  set (E := lsb c).
  assert (HE : (E <= -2)%Z) by (unfold E, lsb; lia).
  pose proof (pow2_pos E) as PE.
  rewrite (nearest_nonzero c NZc). fold E.
  set (s := c / 2 ^ E).
  assert (Hs : c == s * 2 ^ E) by (unfold s; field; lra).
  (* integers are on the grid *)
  assert (Hgrid : forall k : Z, inject_Z k == inject_Z (k * 2 ^ (- E)) * 2 ^ E).
  { intros k. rewrite inject_Z_mult, <- Qmult_assoc.
    rewrite <- (pow2_split 0 E) by lia. change (2 ^ 0) with 1. ring. }
  apply Z.le_antisymm.
  - (* the rounded quotient stays below [n + 1] *)
    apply Qfloor_lt.
    assert (Hgap : 10 * 2 ^ E < 20 * (inject_Z n + 1) - y).
    { destruct (Z.le_gt_cases (-1074) (ilog2 c - 52)) as [Hnormal|Hsub].
      - (* both numbers are multiples of [2^(E+4)] *)
        assert (HEq : E = (ilog2 c - 52)%Z) by (unfold E, lsb; lia).
        destruct (representable_grid y NZ Hrep) as [K HK].
        assert (Hly : (E + 4 <= lsb y)%Z).
        { assert ((ilog2 c + 4 <= ilog2 y)%Z); [|unfold lsb; lia].
          apply ilog2_ge; [exact NZ|].
          rewrite pow2_add. change (2 ^ 4) with 16.
          pose proof (pow2_pos (ilog2 c)). lra. }
        rewrite (pow2_split (lsb y) (E + 4) Hly) in HK.
        assert (H4 : 20 * (inject_Z n + 1)
                     == inject_Z (5 * (n + 1) * 2 ^ (- E - 2)) * 2 ^ (E + 4)).
        { rewrite !inject_Z_mult, inject_Z_plus.
          change (inject_Z 5) with 5. change (inject_Z 1) with 1.
          rewrite <- !Qmult_assoc.
          replace (- E - 2)%Z with (2 - (E + 4))%Z by ring.
          rewrite <- (pow2_split 2 (E + 4)) by lia. change (2 ^ 2) with 4. ring. }
        set (M := (5 * (n + 1) * 2 ^ (- E - 2) + - (K * 2 ^ (lsb y - (E + 4))))%Z).
        assert (HD : 20 * (inject_Z n + 1) - y == inject_Z M * 2 ^ (E + 4)).
        { rewrite H4, HK. unfold M.
          rewrite inject_Z_plus, inject_Z_opp, (inject_Z_mult K). ring. }
        assert (Hpos : 0 < inject_Z M * 2 ^ (E + 4)).
        { rewrite <- HD. lra. }
        pose proof (positive_multiple M _ (pow2_pos (E + 4)) Hpos) as Hone.
        rewrite HD. rewrite pow2_add in Hone |- *. change (2 ^ 4) with 16 in *.
        rewrite pow2_add in Hpos. change (2 ^ 4) with 16 in Hpos.
        lra.
      - (* the quotient is subnormal *)
        assert (HEq : E = (-1074)%Z) by (unfold E, lsb; lia).
        assert (Hsmall : Qabs c < 2 ^ (-1022)).
        { apply Qlt_le_trans with (y := 2 ^ (ilog2 c + 1)); [exact Hchi|].
          apply pow2_le. lia. }
        pose proof (pow2_le (-1022) (-1) ltac:(lia)) as P1.
        pose proof (pow2_le (-1074) (-1) ltac:(lia)) as P2.
        change (2 ^ (-1)) with (1 # 2) in P1, P2.
        assert (P3 : 2 ^ (-1070) == 16 * 2 ^ (-1074)).
        { replace (-1070)%Z with (-1074 + 4)%Z by reflexivity.
          rewrite pow2_add. change (2 ^ 4) with 16. ring. }
        rewrite HEq in *.
        pose proof (Qle_Qabs c) as A1.
        pose proof (Qle_Qabs (- c)) as A2. rewrite Qabs_opp in A2.
        destruct Hmin as [Hpos|Hneg].
        + assert (Hn0 : (0 <= n)%Z).
          { change 0%Z with (Qfloor 0). apply Qfloor_resp_le. lra. }
          rewrite Zle_Qle in Hn0. change (inject_Z 0) with 0 in Hn0. lra.
        + assert (Hn0 : (-1 < n + 1)%Z).
          { rewrite Zlt_Qlt, inject_Z_plus.
            change (inject_Z (-1)) with (-1). change (inject_Z 1) with 1. lra. }
          assert (Hn0' : (0 <= n + 1)%Z) by lia.
          rewrite Zle_Qle, inject_Z_plus in Hn0'.
          change (inject_Z 0) with 0 in Hn0'. change (inject_Z 1) with 1 in Hn0'.
          lra. }
    pose proof (nearest_even_spec s) as [_ Hup].
    assert (Hs' : s * 2 ^ E + (1 # 2) * 2 ^ E < inject_Z n + 1).
    { rewrite <- Hs. lra. }
    assert (inject_Z (nearest_even s) * 2 ^ E <= (s + (1 # 2)) * 2 ^ E).
    { apply Qmult_le_compat_r; lra. }
    lra.
  - (* the rounded quotient is at least [n] *)
    assert (Hle : inject_Z (n * 2 ^ (- E)) <= s).
    { unfold s. apply Qle_shift_div_l; [exact PE|]. rewrite <- Hgrid. exact Hn1. }
    apply nearest_even_mono in Hle. rewrite nearest_even_Z in Hle.
    rewrite Zle_Qle in Hle.
    assert (inject_Z (n * 2 ^ (- E)) * 2 ^ E <= inject_Z (nearest_even s) * 2 ^ E).
    { apply Qmult_le_compat_r; lra. }
    rewrite <- Hgrid in H.
    apply Qfloor_resp_le in H. now rewrite Qfloor_Z in H.
Qed.

(** *** Symmetry and monotonicity of rounding *)

Lemma Qfloor_unique (x : Q) (k : Z) :
  inject_Z k <= x -> x < inject_Z k + 1 -> Qfloor x = k.
Proof.
  intros H1 H2. apply Z.le_antisymm.
  - now apply Qfloor_lt.
  - apply Qfloor_resp_le in H1. now rewrite Qfloor_Z in H1.
Qed.

Lemma nearest_even_opp (s : Q) : nearest_even (- s) = (- nearest_even s)%Z.
Proof.
  destruct (nearest_even_cases s) as (H1 & H2 & Cs).
  set (f := Qfloor s) in *.
  destruct (Qeq_dec s (inject_Z f)) as [E|NE].
  - (* an integer *)
    assert (E' : - s == inject_Z (- f)) by (rewrite inject_Z_opp, E; reflexivity).
    rewrite (nearest_even_comp _ _ E'), (nearest_even_comp _ _ E).
    now rewrite !nearest_even_Z.
  - assert (Hf : Qfloor (- s) = (- f - 1)%Z).
    { apply Qfloor_unique.
      - unfold Z.sub. rewrite inject_Z_plus, !inject_Z_opp.
        change (inject_Z 1) with 1. lra.
      - unfold Z.sub. rewrite inject_Z_plus, !inject_Z_opp.
        change (inject_Z 1) with 1.
        assert (inject_Z f < s); [|lra].
        apply Qle_lteq in H1 as [L|L]; [exact L|]. exfalso. apply NE. now symmetry. }
    destruct (nearest_even_cases (- s)) as (_ & _ & Cn).
    rewrite Hf in Cn. unfold Z.sub in Cn.
    rewrite inject_Z_plus, !inject_Z_opp in Cn.
    change (inject_Z 1) with 1 in Cn.
    rewrite Z.even_add, Z.even_opp in Cn. change (Z.even (-1)) with false in Cn.
    destruct Cs as [[Hs ->]|[[Hs ->]|[Hs ->]]];
      destruct Cn as [[Hn ->]|[[Hn ->]|[Hn ->]]];
      try (exfalso; lra); try destruct (Z.even f); simpl; lia.
Qed.

Lemma ilog2_opp (q : Q) : ~ q == 0 -> ilog2 (- q) = ilog2 q.
Proof.
  intros NZ. destruct (ilog2_spec q NZ) as [Hlo Hhi].
  apply ilog2_unique; now rewrite Qabs_opp.
Qed.

Lemma nearest_opp (q : Q) : nearest (- q) == - nearest q.
Proof.
  destruct (Qeq_dec q 0) as [Z0|NZ].
  - rewrite (nearest_zero q Z0), (nearest_zero (- q)); [reflexivity|].
    rewrite Z0. reflexivity.
  - assert (NZ' : ~ - q == 0).
    { intros H. apply NZ. rewrite <- (Qopp_involutive q), H. reflexivity. }
    rewrite (nearest_nonzero q NZ), (nearest_nonzero _ NZ').
    unfold lsb. rewrite (ilog2_opp q NZ). fold (lsb q).
    assert (H : - q / 2 ^ lsb q == - (q / 2 ^ lsb q)).
    { field. pose proof (pow2_pos (lsb q)). lra. }
    rewrite (nearest_even_comp _ _ H), nearest_even_opp, inject_Z_opp. ring.
Qed.

Lemma nearest_nonneg (q : Q) : 0 <= q -> 0 <= nearest q.
Proof.
  intros H. destruct (Qeq_dec q 0) as [Z0|NZ].
  - rewrite (nearest_zero q Z0). apply Qle_refl.
  - rewrite (nearest_nonzero q NZ). pose proof (pow2_pos (lsb q)) as P.
    apply Qmult_le_0_compat; [|lra].
    change 0 with (inject_Z 0). rewrite <- Zle_Qle.
    rewrite <- (nearest_even_Z 0). apply nearest_even_mono.
    change (inject_Z 0) with 0. apply Qle_shift_div_l; [exact P|lra].
Qed.

Lemma ilog2_mono (p q : Q) :
  0 < p -> p <= q -> (ilog2 p <= ilog2 q)%Z.
Proof.
  intros Hp Hpq.
  assert (NZp : ~ p == 0) by lra. assert (NZq : ~ q == 0) by lra.
  destruct (ilog2_spec p NZp) as [Hlo _].
  apply ilog2_ge; [exact NZq|].
  rewrite Qabs_pos in Hlo |- * by lra. lra.
Qed.

Lemma nearest_mono_pos (p q : Q) :
  0 < p -> p <= q -> nearest p <= nearest q.
Proof.
  intros Hp Hpq.
  assert (NZp : ~ p == 0) by lra. assert (NZq : ~ q == 0) by lra.
  rewrite (nearest_nonzero p NZp), (nearest_nonzero q NZq).
  pose proof (ilog2_mono p q Hp Hpq) as Hlog.
  pose proof (pow2_pos (lsb p)) as Pp. pose proof (pow2_pos (lsb q)) as Pq.
  destruct (Z.eq_dec (lsb p) (lsb q)) as [E|NE].
  - rewrite E. apply Qmult_le_compat_r; [|lra].
    rewrite <- Zle_Qle. apply nearest_even_mono.
    unfold Qdiv. apply Qmult_le_compat_r; [exact Hpq|].
    apply Qlt_le_weak. now apply Qinv_lt_0_compat.
  - assert (Hlt : (ilog2 p < ilog2 q)%Z /\ lsb q = (ilog2 q - 52)%Z
                  /\ (lsb p < lsb q)%Z) by (unfold lsb in *; lia).
    destruct Hlt as (Hlt & Hq & Hl).
    destruct (ilog2_spec p NZp) as [_ Hphi].
    destruct (ilog2_spec q NZq) as [Hqlo _].
    rewrite Qabs_pos in Hphi, Hqlo by lra.
    set (T := 2 ^ ilog2 q).
    assert (HpT : p <= T).
    { pose proof (pow2_le (ilog2 p + 1) (ilog2 q) ltac:(lia)). unfold T. lra. }
    apply Qle_trans with (y := T).
    + (* [T] is on the grid of [p] *)
      assert (HT : T == inject_Z (2 ^ (ilog2 q - lsb p)) * 2 ^ lsb p).
      { unfold T. apply pow2_split. lia. }
      rewrite HT. apply Qmult_le_compat_r; [|lra].
      rewrite <- Zle_Qle.
      rewrite <- (nearest_even_Z (2 ^ (ilog2 q - lsb p))).
      apply nearest_even_mono. apply Qle_shift_div_r; [exact Pp|].
      now rewrite <- HT.
    + assert (HT : T == inject_Z (2 ^ 52) * 2 ^ lsb q).
      { unfold T. rewrite (pow2_split (ilog2 q) (lsb q)) by lia.
        rewrite Hq. now replace (ilog2 q - (ilog2 q - 52))%Z with 52%Z by ring. }
      rewrite HT at 1. apply Qmult_le_compat_r; [|lra].
      rewrite <- Zle_Qle.
      rewrite <- (nearest_even_Z (2 ^ 52)).
      apply nearest_even_mono. apply Qle_shift_div_l; [exact Pq|].
      rewrite <- HT. exact Hqlo.
Qed.

Lemma nearest_mono (p q : Q) : p <= q -> nearest p <= nearest q.
Proof.
  intros Hpq.
  destruct (Qlt_le_dec 0 p) as [Hp|Hp].
  - now apply nearest_mono_pos.
  - destruct (Qlt_le_dec q 0) as [Hq|Hq].
    + (* both negative *)
      assert (H : nearest (- q) <= nearest (- p)) by (apply nearest_mono_pos; lra).
      rewrite !nearest_opp in H. lra.
    + assert (H : nearest (- p) >= 0) by (apply nearest_nonneg; lra).
      rewrite nearest_opp in H.
      pose proof (nearest_nonneg q Hq). lra.
Qed.

(** A non-zero multiple of [2^-1074], the smallest positive double,
    is not rounded to zero: its sign is kept. *)
Lemma nearest_positive (q : Q) :
  2 ^ (-1074) <= q -> 0 < nearest q.
Proof.
  intros H. pose proof (pow2_pos (-1074)) as P.
  apply Qlt_le_trans with (y := 2 ^ (-1074)); [exact P|].
  assert (E : nearest (2 ^ (-1074)) == 2 ^ (-1074)) by (vm_compute; reflexivity).
  rewrite <- E. now apply nearest_mono.
Qed.

(** *** Comparisons *)

Lemma le_not_gt (a b : number) : le a b = true -> gt a b = false.
Proof.
  destruct a as [p|s|], b as [q|s'|]; simpl; try discriminate.
  - now intros ->.
  - now destruct s'.
  - now intros ->.
  - destruct s, s'; simpl; congruence.
Qed.

Lemma round_finite (q : Q) :
  Qabs (nearest q) < 2 ^ 1024 -> round q = Finite (nearest q).
Proof.
  intros H. unfold round.
  destruct (Qle_bool (2 ^ 1024) (Qabs (nearest q))) eqn:E; [|reflexivity].
  apply Qle_bool_iff in E. lra.
Qed.

(** Fragments whose heights differ by at most 15 in exact arithmetic
    are never found more than 15 apart by the doubles. *)
Lemma close_in_doubles (a b bound : Q) :
  nearest bound == bound -> bound < 2 ^ 1024 ->
  Qabs (a - b) <= bound ->
  gt (abs (sub (Finite a) (Finite b))) (Finite bound) = false.
Proof.
  intros Hb Hmax Hd. unfold sub, opp, add.
  assert (E : a + - b == a - b) by reflexivity.
  apply Qabs_Qle_condition in Hd as [Hlo Hhi].
  assert (Hn : - bound <= nearest (a + - b) /\ nearest (a + - b) <= bound).
  { split.
    - rewrite <- Hb. rewrite <- nearest_opp. apply nearest_mono. now rewrite E.
    - rewrite <- Hb. apply nearest_mono. now rewrite E. }
  assert (Habs : Qabs (nearest (a + - b)) <= bound).
  { apply Qabs_Qle_condition. exact Hn. }
  rewrite round_finite by lra. simpl.
  apply negb_false_iff, Qle_bool_iff. exact Habs.
Qed.

(** *** The sign of a difference *)

(** Every double is a multiple of the smallest positive one. *)
Lemma double_grid (y : Q) :
  nearest y == y -> exists K : Z, y == inject_Z K * 2 ^ (-1074).
Proof.
  intros H. destruct (Qeq_dec y 0) as [Z0|NZ].
  - exists 0%Z. rewrite Z0. reflexivity.
  - destruct (representable_grid y NZ H) as [K HK].
    exists (K * 2 ^ (lsb y - -1074))%Z.
    rewrite inject_Z_mult, <- Qmult_assoc, <- pow2_split; [exact HK|].
    unfold lsb. lia.
Qed.

(** The double difference of two doubles is positive exactly when
    the exact difference is, and negative exactly when it is: a
    comparator that returns [a - b] orders doubles as their values
    are ordered. *)
Lemma sub_sign (a b : Q) :
  nearest a == a -> nearest b == b ->
  (gt (sub (Finite a) (Finite b)) (Finite 0) = true <-> b < a)
  /\ (gt (Finite 0) (sub (Finite a) (Finite b)) = true <-> a < b).
Proof.
  intros Ha Hb.
  destruct (double_grid a Ha) as [Ka HKa]. destruct (double_grid b Hb) as [Kb HKb].
  pose proof (pow2_pos (-1074)) as P.
  assert (Hd : a + - b == inject_Z (Ka + - Kb) * 2 ^ (-1074)).
  { rewrite inject_Z_plus, inject_Z_opp, HKa, HKb. ring. }
  assert (Hsign : (0 < a + - b -> 0 < nearest (a + - b))
                  /\ (a + - b < 0 -> nearest (a + - b) < 0)
                  /\ (a + - b == 0 -> nearest (a + - b) == 0)).
  { split; [|split].
    - intros H. apply nearest_positive. rewrite Hd in H |- *.
      now apply positive_multiple.
    - intros H.
      assert (H' : 0 < nearest (- (a + - b))).
      { apply nearest_positive.
        assert (E : - (a + - b) == inject_Z (- (Ka + - Kb)) * 2 ^ (-1074)).
        { rewrite inject_Z_opp, Hd. ring. }
        rewrite E. apply positive_multiple; [exact P|]. rewrite <- E. lra. }
      rewrite nearest_opp in H'. lra.
    - intros H. now rewrite (nearest_zero _ H). }
  destruct Hsign as (Hpos & Hneg & Hzero).
  unfold sub, opp, add, round.
  set (r := nearest (a + - b)) in *.
  pose proof (pow2_pos 1024) as P'.
  destruct (Qle_bool (2 ^ 1024) (Qabs r)) eqn:Ebig; simpl.
  - apply Qle_bool_iff in Ebig.
    destruct (Qle_bool 0 r) eqn:E0; simpl.
    + apply Qle_bool_iff in E0. split; split; try discriminate; try reflexivity.
      * intros _.
        destruct (Qlt_le_dec b a) as [L|L]; [exact L|].
        destruct (Qeq_dec (a + - b) 0) as [Z0|NZ].
        -- specialize (Hzero Z0). rewrite Hzero in Ebig.
           change (Qabs 0) with 0 in Ebig. lra.
        -- assert (a + - b < 0) by lra. specialize (Hneg H). lra.
      * intros L. assert (a + - b < 0) by lra. specialize (Hneg H). lra.
    + assert (Hr : r < 0).
      { apply Qnot_le_lt. intros H. apply Qle_bool_iff in H. congruence. }
      split; split; try discriminate; try reflexivity.
      * intros L. assert (0 < a + - b) by lra. specialize (Hpos H). lra.
      * intros _.
        destruct (Qlt_le_dec a b) as [L|L]; [exact L|].
        destruct (Qeq_dec (a + - b) 0) as [Z0|NZ].
        -- specialize (Hzero Z0). lra.
        -- assert (0 < a + - b) by lra. specialize (Hpos H). lra.
  - split; split.
    + intros H. apply negb_true_iff in H.
      destruct (Qlt_le_dec b a) as [L|L]; [exact L|].
      exfalso. assert (Hle : r <= 0).
      { destruct (Qeq_dec (a + - b) 0) as [Z0|NZ].
        - rewrite (Hzero Z0). apply Qle_refl.
        - assert (a + - b < 0) by lra. specialize (Hneg H0). lra. }
      apply Qle_bool_iff in Hle. congruence.
    + intros L. apply negb_true_iff.
      assert (0 < a + - b) by lra. specialize (Hpos H).
      destruct (Qle_bool r 0) eqn:E; [|reflexivity].
      apply Qle_bool_iff in E. lra.
    + intros H. apply negb_true_iff in H.
      destruct (Qlt_le_dec a b) as [L|L]; [exact L|].
      exfalso. assert (Hle : 0 <= r).
      { destruct (Qeq_dec (a + - b) 0) as [Z0|NZ].
        - rewrite (Hzero Z0). apply Qle_refl.
        - assert (0 < a + - b) by lra. specialize (Hpos H0). lra. }
      apply Qle_bool_iff in Hle. congruence.
    + intros L. apply negb_true_iff.
      assert (a + - b < 0) by lra. specialize (Hneg H).
      destruct (Qle_bool 0 r) eqn:E; [|reflexivity].
      apply Qle_bool_iff in E. lra.
Qed.

(** *** Agreement with the Standard Library's IEEE 754 *)

(** On the sample doubles (small integers, the literal 0.15, numbers
    with 53 significant bits, subnormal numbers, the largest doubles)
    the four operations and the comparison give what [SpecFloat]
    specifies for binary64. *)
Lemma agrees_with_SpecFloat :
  forallb
    (fun a =>
       forallb
         (fun b =>
            let fa := spec_float_of (fst a) (snd a) in
            let fb := spec_float_of (fst b) (snd b) in
            let na := round (inject_Z (fst a) * 2 ^ snd a) in
            let nb := round (inject_Z (fst b) * 2 ^ snd b) in
            same (of_spec_float fa) na
            && same (of_spec_float (SFadd 53 1024 fa fb)) (add na nb)
            && same (of_spec_float (SFsub 53 1024 fa fb)) (sub na nb)
            && same (of_spec_float (SFmul 53 1024 fa fb)) (mul na nb)
            && Bool.eqb (SFltb fb fa) (gt na nb)
            && Bool.eqb (SFleb fa fb) (le na nb))
         Samples.doubles)
    Samples.doubles
  = true.
Proof. vm_compute. reflexivity. Qed.

(** The quotient [y / 20] behind the band index, likewise. *)
Lemma quotient_agrees_with_SpecFloat :
  forallb
    (fun a =>
       same
         (of_spec_float
            (SFdiv 53 1024 (spec_float_of (fst a) (snd a)) (spec_float_of 20 0)))
         (match round (inject_Z (fst a) * 2 ^ snd a) with
          | Finite y => Finite (nearest (y / 20))
          | other => other
          end))
    Samples.doubles
  = true.
Proof. vm_compute. reflexivity. Qed.

End DoubleFacts.

(** ** The fragment sorter *)

Module ReadingOrder.

Import Layout Spec.

Lemma inject_Z_nonpos (z : Z) : inject_Z z <= 0 <-> (z <= 0)%Z.
Proof. unfold Qle, inject_Z; simpl. lia. Qed.

(** The band that the comparator computes is the band index. *)
Lemma band_band_index (a : TextItem) : band a = band_index (y (box a)).
Proof. reflexivity. Qed.

(** The comparator decides the reading order. *)
Lemma readingCompare_le (a b : TextItem) :
  readingCompare a b <= 0 <-> reading_le a b.
Proof.
  unfold readingCompare, reading_le. rewrite <- !band_band_index.
  destruct (Z.eqb_spec (band a) (band b)) as [E|E]; simpl.
  - split.
    + intros H. right. split; [exact E|]. lra.
    + intros [H|[_ H]]; [lia|lra].
  - rewrite inject_Z_nonpos. split.
    + intros H. left. lia.
    + intros [H|[H _]]; [lia|contradiction].
Qed.

Lemma reading_le_total (a b : TextItem) : ~ reading_le a b -> reading_le b a.
Proof.
  unfold reading_le. rewrite <- !band_band_index. intros H.
  destruct (Z.lt_trichotomy (band a) (band b)) as [L|[E|G]].
  - exfalso. apply H. now left.
  - right. split; [now symmetry|].
    destruct (Qlt_le_dec (x (box a)) (x (box b))) as [L|L]; [|exact L].
    exfalso. apply H. right. split; [exact E|]. now apply Qlt_le_weak.
  - now left.
Qed.

Lemma reading_le_trans (a b c : TextItem) :
  reading_le a b -> reading_le b c -> reading_le a c.
Proof.
  unfold reading_le. intros [H1|[H1 H1']] [H2|[H2 H2']].
  - left. lia.
  - left. lia.
  - left. lia.
  - right. split; [congruence|]. eapply Qle_trans; eassumption.
Qed.

(** Two fragments that tie with a third one are not told apart by the
    comparator. *)
Lemma reading_tie_compare (c a b : TextItem) :
  reading_tie c a = true -> reading_tie c b = true -> readingCompare a b <= 0.
Proof.
  unfold reading_tie. intros Ha Hb.
  apply andb_prop in Ha as [Ha1 Ha2]. apply andb_prop in Hb as [Hb1 Hb2].
  apply Z.eqb_eq in Ha1, Hb1. apply Qeq_bool_iff in Ha2, Hb2.
  apply readingCompare_le. right. split; [congruence|].
  rewrite <- Ha2, <- Hb2. apply Qle_refl.
Qed.

(** On an ordinary double the band index is the exact one. *)
Lemma band_index_exact (y : Q) :
  ordinary y -> band_index y = exact_band_index y.
Proof.
  intros (Hrep & Hmax & Hmin). now apply DoubleFacts.band_exact.
Qed.

Lemma sorted_exact (l : list TextItem) :
  List.Forall (fun a => ordinary (y (box a))) l ->
  StronglySorted reading_le l -> StronglySorted exact_reading_le l.
Proof.
  intros Hord Hs. induction Hs as [|a l Hs IH Hall]; [constructor|].
  inversion Hord as [|? ? Ha Hl]; subst.
  constructor; [now apply IH|].
  rewrite List.Forall_forall in Hall, Hl |- *. intros b Hb.
  specialize (Hall b Hb). specialize (Hl b Hb). simpl in Hl.
  unfold reading_le, exact_reading_le in *.
  now rewrite <- !band_index_exact.
Qed.

Lemma ties_exact (c : TextItem) (l : list TextItem) :
  ordinary (y (box c)) ->
  List.Forall (fun a => ordinary (y (box a))) l ->
  List.filter (exact_reading_tie c) l = List.filter (reading_tie c) l.
Proof.
  intros Hc Hord. induction Hord as [|a l Ha Hl IH]; [reflexivity|].
  simpl. rewrite IH. unfold exact_reading_tie, reading_tie.
  now rewrite <- !band_index_exact.
Qed.

(** C3. For every fragment list, [determineReadingOrder] returns a
    permutation of its input, sorted by ascending band index
    [floor (y / 20)] and, within a band, by ascending [x]; the
    fragments that tie (equal band index and equal [x]) keep the
    relative order they had in the input; the empty list is mapped to
    the empty list.  The quotient [y / 20] is the double that
    JavaScript computes.  Whenever every [y] is an ordinary double
    (not a negative number within [2^-1070] of zero, not beyond
    [2^55] in magnitude) the band index is the floor of the exact
    quotient, and the same holds with the exact band index. *)
Theorem determineReadingOrder_sorted_stable (items : list TextItem) :
  Permutation items (determineReadingOrder items)
  /\ StronglySorted reading_le (determineReadingOrder items)
  /\ (forall c : TextItem,
        List.filter (reading_tie c) (determineReadingOrder items)
        = List.filter (reading_tie c) items)
  /\ determineReadingOrder [] = []
  /\ (List.Forall (fun a => ordinary (y (box a))) items ->
      StronglySorted exact_reading_le (determineReadingOrder items)
      /\ forall c : TextItem,
           ordinary (y (box c)) ->
           List.filter (exact_reading_tie c) (determineReadingOrder items)
           = List.filter (exact_reading_tie c) items).
Proof.
  assert (Hperm : Permutation items (determineReadingOrder items))
    by apply array_sort_perm.
  assert (Hsorted : StronglySorted reading_le (determineReadingOrder items)).
  { apply array_sort_sorted.
    - intros u v. apply readingCompare_le.
    - intros u v H. apply reading_le_total. now rewrite <- readingCompare_le.
    - apply reading_le_trans. }
  assert (Hstable : forall c : TextItem,
             List.filter (reading_tie c) (determineReadingOrder items)
             = List.filter (reading_tie c) items).
  { intros c. apply array_sort_stable. apply reading_tie_compare. }
  split; [exact Hperm|]. split; [exact Hsorted|]. split; [exact Hstable|].
  split; [reflexivity|].
  intros Hord.
  assert (Hord' : List.Forall (fun a => ordinary (y (box a)))
                    (determineReadingOrder items)).
  { eapply Permutation_Forall; eassumption. }
  split; [now apply sorted_exact|].
  intros c Hc. rewrite !ties_exact by assumption. apply Hstable.
Qed.

(** The two-column page: all heights are ordinary doubles. *)
Lemma determineReadingOrder_sorted_stable_witness :
  List.Forall (fun a => ordinary (y (box a))) Samples.two_columns
  /\ StronglySorted exact_reading_le (determineReadingOrder Samples.two_columns).
Proof.
  assert (H : List.Forall (fun a => ordinary (y (box a))) Samples.two_columns).
  { repeat constructor; vm_compute; try reflexivity; try discriminate.
    all: left; discriminate. }
  split; [exact H|].
  exact (proj1 (proj2 (proj2 (proj2 (proj2
           (determineReadingOrder_sorted_stable Samples.two_columns)))) H)).
Defined.

(** Outside the ordinary doubles the two band indices may differ.
    The quotient of the negative double nearest to zero by 20 is
    rounded to zero: its band is 0, not -1.  The quotient of the
    double [5 * 2^53 + 16] by 20, which is [2^51 + 0.8], is rounded to
    [2^51 + 1]. *)
Lemma band_index_not_exact :
  ordinary (- 2 ^ (-1070))
  /\ is_double (- 2 ^ (-1074))
  /\ band_index (- 2 ^ (-1074)) = 0%Z
  /\ exact_band_index (- 2 ^ (-1074)) = (-1)%Z
  /\ ordinary (2 ^ 55)
  /\ is_double (5 * 2 ^ 53 + 16)
  /\ band_index (5 * 2 ^ 53 + 16) = (2 ^ 51 + 1)%Z
  /\ exact_band_index (5 * 2 ^ 53 + 16) = (2 ^ 51)%Z.
Proof.
  repeat split; vm_compute; try reflexivity; try discriminate.
  - right. discriminate.
  - left. discriminate.
Qed.

End ReadingOrder.

(** ** The block clusterer *)

Module Clusterer.

Import Layout Spec.

(** *** Block indices *)

Lemma block_of_app_l {A : Type} (bs rest : list (list A)) (i : nat) :
  (i < length (concat bs))%nat -> block_of (bs ++ rest) i = block_of bs i.
Proof.
  revert i. induction bs as [|b bs IH]; simpl; intros i Hi.
  - lia.
  - rewrite length_app in Hi.
    destruct (Nat.ltb_spec i (length b)); [reflexivity|].
    f_equal. apply IH. lia.
Qed.

Lemma block_of_app_r {A : Type} (bs rest : list (list A)) (i : nat) :
  (length (concat bs) <= i)%nat ->
  block_of (bs ++ rest) i
  = (length bs + block_of rest (i - length (concat bs)))%nat.
Proof.
  revert i. induction bs as [|b bs IH]; simpl; intros i Hi.
  - now rewrite Nat.sub_0_r.
  - rewrite length_app in Hi |- *.
    destruct (Nat.ltb_spec i (length b)); [lia|].
    rewrite IH by lia. f_equal. f_equal. f_equal. lia.
Qed.

(** A position inside the last block. *)
Lemma block_of_last {A : Type} (bs : list (list A)) (cur : list A) (i : nat) :
  (length (concat bs) <= i < length (concat bs) + length cur)%nat ->
  block_of (bs ++ [cur]) i = length bs.
Proof.
  intros Hi. rewrite block_of_app_r by lia. simpl.
  destruct (Nat.ltb_spec (i - length (concat bs)) (length cur)); lia.
Qed.

(** *** The split test *)

(** The test of the code is the split test of the design. *)
Lemma farApart_spec (pageWidth : Q) (a b : TextItem) :
  farApart pageWidth (box a) b = true <-> gap_exceeded pageWidth a b.
Proof.
  unfold farApart, gap_exceeded, exceeds.
  change (verticalGap (box a) b) with (vertical_gap a b).
  change (horizontalGap (box a) b) with (horizontal_gap a b).
  change (X_THRESHOLD pageWidth) with (fifteen_percent pageWidth).
  change Y_THRESHOLD with (Double.Finite 15).
  apply orb_true_iff.
Qed.

(** *** The walk *)

Lemma walk_inv_first (pageWidth : Q) (a : TextItem) :
  walk_inv pageWidth [a] (walk_step pageWidth walk_init a).
Proof.
  unfold walk_inv; simpl. repeat split; try discriminate.
  all: intros; destruct i; discriminate.
Qed.

Lemma walk_inv_snoc (pageWidth : Q) (p : list TextItem) (st : Walk) (c : TextItem) :
  walk_inv pageWidth p st ->
  walk_inv pageWidth (p ++ [c]) (walk_step pageWidth st c).
Proof.
  intros (Hcur & Hlast & Hcat & Hsplit).
  assert (Hlen : (length (concat (wblocks st)) + length (currentBlock st)
                  = length p)%nat).
  { rewrite <- (length_map text p), <- Hcat, concat_app, length_app. simpl.
    rewrite app_nil_r. reflexivity. }
  assert (Hout : length (concat (wblocks st ++ [currentBlock st])) = length p).
  { now rewrite Hcat, length_map. }
  assert (Hpos : (0 < length (currentBlock st))%nat).
  { destruct (currentBlock st); [congruence|simpl; lia]. }
  destruct (last p) as [q|] eqn:Hq.
  2:{ apply last_None in Hq. subst p. simpl in Hlen. lia. }
  assert (Hql : p !! (length p - 1)%nat = Some q).
  { rewrite <- Hq. rewrite last_lookup. f_equal. lia. }
  assert (Hends : forall i a b,
            (p ++ [c]) !! i = Some a -> (p ++ [c]) !! S i = Some b ->
            (S i < length p)%nat /\ p !! i = Some a /\ p !! S i = Some b
            \/ S i = length p /\ a = q /\ b = c).
  { intros i a b Ha Hb.
    destruct (Nat.lt_ge_cases (S i) (length p)) as [Hi|Hi].
    - left. rewrite !lookup_app_l in Ha, Hb by lia. auto.
    - right.
      assert (S i = length p).
      { apply lookup_lt_Some in Hb. rewrite length_app in Hb. simpl in Hb. lia. }
      rewrite lookup_app_l in Ha by lia.
      replace i with (length p - 1)%nat in Ha by lia.
      rewrite lookup_app_r in Hb by lia.
      replace (S i - length p)%nat with 0%nat in Hb by lia. simpl in Hb.
      repeat split; congruence. }
  unfold walk_step. rewrite Hlast. simpl.
  destruct (farApart pageWidth (box q) c) eqn:Hfar.
  - (* the block is closed and a new one starts with [c] *)
    unfold walk_inv; simpl.
    split; [discriminate|]. split; [now rewrite last_snoc|].
    split; [rewrite concat_app, Hcat, map_app; reflexivity|].
    intros i a b Ha Hb.
    destruct (Hends i a b Ha Hb) as [(Hi & Ha' & Hb')|(Hi & -> & ->)].
    + rewrite (block_of_app_l _ [[text c]] i), (block_of_app_l _ [[text c]] (S i)) by lia.
      exact (Hsplit i a b Ha' Hb').
    + rewrite Hfar.
      rewrite (block_of_app_l _ _ i) by lia.
      rewrite block_of_last by lia.
      rewrite block_of_app_r by lia.
      rewrite length_app. simpl.
      split; [reflexivity|]. intros _. lia.
  - (* [c] joins the current block *)
    unfold walk_inv; simpl.
    assert (Hblock : forall j, (j < length p)%nat ->
              block_of (wblocks st ++ [currentBlock st ++ [text c]]) j
              = block_of (wblocks st ++ [currentBlock st]) j).
    { intros j Hj.
      destruct (Nat.lt_ge_cases j (length (concat (wblocks st)))) as [Hl|Hl].
      - now rewrite !block_of_app_l by exact Hl.
      - rewrite !block_of_last; [reflexivity|lia|rewrite length_app; simpl; lia]. }
    split; [now destruct (currentBlock st)|]. split; [now rewrite last_snoc|].
    split.
    { rewrite concat_app in Hcat |- *. simpl in Hcat |- *.
      rewrite app_nil_r in Hcat |- *.
      rewrite map_app, <- Hcat, app_assoc. reflexivity. }
    intros i a b Ha Hb.
    destruct (Hends i a b Ha Hb) as [(Hi & Ha' & Hb')|(Hi & -> & ->)].
    + rewrite !Hblock by lia. exact (Hsplit i a b Ha' Hb').
    + rewrite Hfar.
      rewrite !block_of_last by (rewrite length_app; simpl; lia).
      split; [congruence|discriminate].
Qed.

Lemma walk_inv_fold (pageWidth : Q) (a : TextItem) (l : list TextItem) :
  walk_inv pageWidth (a :: l)
    (fold_left (walk_step pageWidth) (a :: l) walk_init).
Proof.
  induction l as [|c l IH] using rev_ind.
  - apply walk_inv_first.
  - rewrite app_comm_cons, fold_left_app.
    exact (walk_inv_snoc pageWidth (a :: l) _ c IH).
Qed.

(** *** The re-sort *)

Lemma positionCompare_le (a b : TextItem) :
  positionCompare a b <= 0 <-> position_le a b.
Proof.
  unfold positionCompare, position_le.
  destruct (Qeq_bool (y (box a) - y (box b)) 0) eqn:E.
  - apply Qeq_bool_iff in E. split.
    + intros H. right. split; lra.
    + intros [H|[_ H]]; lra.
  - apply Qeq_bool_neq in E. split.
    + intros H. left.
      destruct (Qlt_le_dec (y (box a)) (y (box b))) as [L|L]; [exact L|].
      exfalso. apply E. lra.
    + intros [H|[H _]]; [lra|]. exfalso. apply E. lra.
Qed.

Lemma position_le_total (a b : TextItem) : ~ position_le a b -> position_le b a.
Proof.
  unfold position_le. intros H.
  destruct (Qlt_le_dec (y (box a)) (y (box b))) as [L|L].
  - exfalso. apply H. now left.
  - destruct (Qlt_le_dec (y (box b)) (y (box a))) as [L'|L']; [now left|].
    right. split; [lra|].
    destruct (Qlt_le_dec (x (box a)) (x (box b))) as [K|K]; [|exact K].
    exfalso. apply H. right. split; lra.
Qed.

Lemma position_le_trans (a b c : TextItem) :
  position_le a b -> position_le b c -> position_le a c.
Proof.
  unfold position_le. intros [H1|[H1 H1']] [H2|[H2 H2']].
  - left. lra.
  - left. lra.
  - left. lra.
  - right. split; lra.
Qed.

Lemma sortedItems_sorted (items : list TextItem) :
  Permutation items (sortedItems items)
  /\ StronglySorted position_le (sortedItems items).
Proof.
  split.
  - apply array_sort_perm.
  - apply array_sort_sorted.
    + intros u v. apply positionCompare_le.
    + intros u v H. apply position_le_total. now rewrite <- positionCompare_le.
    + apply position_le_trans.
Qed.

(** *** The output of the walk *)

Lemma clusterBlocks_walk (items : list TextItem) (pageWidth : Q) :
  items <> [] ->
  let st := fold_left (walk_step pageWidth) (sortedItems items) walk_init in
  clusterBlocks items pageWidth = wblocks st ++ [currentBlock st]
  /\ walk_inv pageWidth (sortedItems items) st.
Proof.
  intros Hne. simpl. unfold clusterBlocks.
  destruct (sortedItems items) as [|a l] eqn:Es.
  - exfalso. apply Hne. apply length_zero_iff_nil.
    unfold sortedItems in Es. rewrite <- (array_sort_length positionCompare), Es.
    reflexivity.
  - pose proof (walk_inv_fold pageWidth a l) as Hinv.
    split; [|exact Hinv].
    destruct Hinv as (Hcur & _).
    now destruct (currentBlock (fold_left (walk_step pageWidth) (a :: l) walk_init)).
Qed.

Lemma clusterTextItems_blocks (items : list TextItem) (pageWidth pageHeight : Q) :
  clusterTextItems items pageWidth pageHeight
  = map blockText (clusterBlocks items pageWidth).
Proof. now destruct items. Qed.

Lemma clusterBlocks_concat (items : list TextItem) (pageWidth : Q) :
  concat (clusterBlocks items pageWidth) = map text (sortedItems items).
Proof.
  destruct items as [|a l]; [reflexivity|].
  destruct (clusterBlocks_walk (a :: l) pageWidth) as (-> & _ & _ & H & _);
    [discriminate|exact H].
Qed.

Lemma clusterBlocks_split (items : list TextItem) (pageWidth : Q) (i : nat)
    (a b : TextItem) :
  sortedItems items !! i = Some a ->
  sortedItems items !! S i = Some b ->
  block_of (clusterBlocks items pageWidth) i
    <> block_of (clusterBlocks items pageWidth) (S i)
  <-> gap_exceeded pageWidth a b.
Proof.
  intros Ha Hb.
  destruct items as [|c l]; [discriminate|].
  destruct (clusterBlocks_walk (c :: l) pageWidth) as (-> & _ & _ & _ & H);
    [discriminate|].
  rewrite <- farApart_spec. exact (H i a b Ha Hb).
Qed.

(** C2. Let [sorted] be the fragments after the clusterer's own
    re-sort (a permutation of the input, ordered by exact [y], then
    [x]) and [out] the blocks of fragment texts it builds, so that the
    [i]-th fragment of [sorted] is the [i]-th text of [out] read
    block after block.  Two fragments [a], [b] that are adjacent in
    [sorted] are placed into different blocks if and only if
    [|b.y - a.y| > 15] or [|b.x - (a.x + a.w)| > 0.15 * pageWidth],
    the gaps and the product being the doubles that JavaScript
    computes.  In particular they share a block when both gaps are
    within the thresholds, and they are split whenever the vertical
    gap exceeds 15.  Fragments whose heights differ by at most 15 in
    exact arithmetic are never split by the vertical test. *)
Theorem clusterTextItems_split_rule
    (items : list TextItem) (pageWidth pageHeight : Q) :
  let sorted := sortedItems items in
  let out := clusterBlocks items pageWidth in
  Permutation items sorted
  /\ StronglySorted position_le sorted
  /\ clusterTextItems items pageWidth pageHeight = map blockText out
  /\ concat out = map text sorted
  /\ (forall i a b,
        sorted !! i = Some a -> sorted !! S i = Some b ->
        (block_of out i <> block_of out (S i) <-> gap_exceeded pageWidth a b))
  /\ (forall i a b,
        sorted !! i = Some a -> sorted !! S i = Some b ->
        within (vertical_gap a b) (Double.Finite 15) ->
        within (horizontal_gap a b) (fifteen_percent pageWidth) ->
        block_of out i = block_of out (S i))
  /\ (forall i a b,
        sorted !! i = Some a -> sorted !! S i = Some b ->
        exceeds (vertical_gap a b) (Double.Finite 15) ->
        block_of out i <> block_of out (S i))
  /\ (forall i a b,
        sorted !! i = Some a -> sorted !! S i = Some b ->
        Qabs (y (box b) - y (box a)) <= 15 ->
        ~ exceeds (vertical_gap a b) (Double.Finite 15)).
Proof.
  simpl. split; [apply sortedItems_sorted|]. split; [apply sortedItems_sorted|].
  split; [apply clusterTextItems_blocks|]. split; [apply clusterBlocks_concat|].
  split; [|split; [|split]].
  - intros i a b. apply clusterBlocks_split.
  - intros i a b Ha Hb Hv Hh.
    destruct (Nat.eq_dec (block_of (clusterBlocks items pageWidth) i)
                (block_of (clusterBlocks items pageWidth) (S i))) as [E|E];
      [exact E|].
    apply (clusterBlocks_split items pageWidth i a b Ha Hb) in E.
    unfold within, exceeds in *.
    apply DoubleFacts.le_not_gt in Hv, Hh.
    destruct E as [E|E]; congruence.
  - intros i a b Ha Hb Hv.
    apply (clusterBlocks_split items pageWidth i a b Ha Hb). now left.
  - intros i a b _ _ Hd. unfold exceeds, vertical_gap.
    rewrite (DoubleFacts.close_in_doubles (y (box b)) (y (box a)) 15);
      [discriminate| | |exact Hd].
    + vm_compute. reflexivity.
    + vm_compute. reflexivity.
Qed.

(** The two-column page: "Left1" and "Right1" are adjacent after the
    re-sort, 250 units apart horizontally (more than 60), hence split;
    their heights are equal, so the vertical test does not fire. *)
Lemma clusterTextItems_split_rule_witness :
  sortedItems Samples.two_columns !! 0%nat = Some Samples.left1
  /\ sortedItems Samples.two_columns !! 1%nat = Some Samples.right1
  /\ (block_of (clusterBlocks Samples.two_columns 400) 0
        <> block_of (clusterBlocks Samples.two_columns 400) 1
      <-> gap_exceeded 400 Samples.left1 Samples.right1)
  /\ Qabs (y (box Samples.right1) - y (box Samples.left1)) <= 15
  /\ ~ exceeds (vertical_gap Samples.left1 Samples.right1) (Double.Finite 15).
Proof.
  assert (H0 : sortedItems Samples.two_columns !! 0%nat = Some Samples.left1)
    by reflexivity.
  assert (H1 : sortedItems Samples.two_columns !! 1%nat = Some Samples.right1)
    by reflexivity.
  assert (Hd : Qabs (y (box Samples.right1) - y (box Samples.left1)) <= 15).
  { vm_compute. discriminate. }
  split; [exact H0|]. split; [exact H1|]. split; [|split; [exact Hd|]].
  - exact (proj1 (proj2 (proj2 (proj2 (proj2
             (clusterTextItems_split_rule Samples.two_columns 400 600)))))
             0%nat Samples.left1 Samples.right1 H0 H1).
  - exact (proj2 (proj2 (proj2 (proj2 (proj2 (proj2 (proj2
             (clusterTextItems_split_rule Samples.two_columns 400 600)))))))
             0%nat Samples.left1 Samples.right1 H0 H1 Hd).
Defined.

(** The converse fails, and so does the test on exact values.  The
    doubles written 15.3 and 0.3 are more than 15 apart, but their
    difference is rounded to 15 and the vertical test does not fire.
    On a page 7 units wide the double written 1.05 exceeds 15% of the
    width, but not the product [7 * 0.15] of the doubles. *)
Lemma split_test_rounds :
  let a := Double.nearest (153 # 10) in
  let b := Double.nearest (3 # 10) in
  let c := Double.nearest (105 # 100) in
  15 < a - b
  /\ Double.gt
       (Double.abs (Double.sub (Double.Finite a) (Double.Finite b)))
       (Double.Finite 15) = false
  /\ 7 * (15 # 100) < c
  /\ Double.gt (Double.Finite c) (X_THRESHOLD 7) = false.
Proof. repeat split; vm_compute; reflexivity. Qed.

(** C9. A page with fewer than two fragments yields at most one
    block: no fragment yields no block, and a single fragment yields
    exactly one block, the normalized text of that fragment. *)
Theorem clusterTextItems_few_fragments (pageWidth pageHeight : Q) :
  (forall items : list TextItem,
      (length items < 2)%nat ->
      (length (clusterTextItems items pageWidth pageHeight) <= 1)%nat)
  /\ clusterTextItems [] pageWidth pageHeight = []
  /\ (forall a : TextItem,
        clusterTextItems [a] pageWidth pageHeight = [blockText [text a]]).
Proof.
  split; [|split].
  - intros [|a [|b l]] H; simpl in H; try lia.
    + simpl. lia.
    + cbn. lia.
  - reflexivity.
  - reflexivity.
Qed.

Lemma clusterTextItems_few_fragments_witness :
  (length [Samples.left1] < 2)%nat
  /\ (length (clusterTextItems [Samples.left1] 400 600) <= 1)%nat.
Proof.
  split; [simpl; lia|].
  apply (proj1 (clusterTextItems_few_fragments 400 600) [Samples.left1]).
  simpl; lia.
Defined.

End Clusterer.

(** ** Whitespace normalization of a block *)

Module Normalization.

Import JsString Layout Spec.

Lemma no_adjacent_cons (p : N -> bool) (c : N) (s : JsString.t) :
  no_adjacent p (c :: s)
  <-> (forall d, head s = Some d -> ~ (p c = true /\ p d = true))
      /\ no_adjacent p s.
Proof.
  destruct s as [|d s]; simpl.
  - split; [intros _; split; [discriminate|exact I]|tauto].
  - split.
    + intros [H1 H2]. split; [|exact H2]. now intros ? [= <-].
    + intros [H1 H2]. split; [|exact H2]. now apply H1.
Qed.

Lemma no_adjacent_app_r (p : N -> bool) (s1 s2 : JsString.t) :
  no_adjacent p (s1 ++ s2) -> no_adjacent p s2.
Proof.
  induction s1 as [|c s1 IH]; [intros H; exact H|].
  change ((c :: s1) ++ s2) with (c :: (s1 ++ s2)).
  rewrite no_adjacent_cons. intros [_ H]. auto.
Qed.

Lemma no_adjacent_app_l (p : N -> bool) (s1 s2 : JsString.t) :
  no_adjacent p (s1 ++ s2) -> no_adjacent p s1.
Proof.
  induction s1 as [|c s1 IH]; [intros _; exact I|].
  change ((c :: s1) ++ s2) with (c :: (s1 ++ s2)).
  rewrite !no_adjacent_cons. intros [H1 H2]. split; [|auto].
  intros d Hd. apply H1. destruct s1; [discriminate|exact Hd].
Qed.

Lemma no_adjacent_weaken (p q : N -> bool) (s : JsString.t) :
  (forall c, q c = true -> p c = true) -> no_adjacent p s -> no_adjacent q s.
Proof.
  intros Hpq. induction s as [|c s IH]; [intros _; exact I|].
  rewrite !no_adjacent_cons. intros [H1 H2]. split; [|auto].
  intros d Hd [Hc Hd']. apply (H1 d Hd). auto.
Qed.

(** *** [replace(/\s+/g, ' ')] *)

Lemma replace_ws_from_spec (s : JsString.t) (in_run : bool) :
  no_adjacent is_whitespace (replace_ws_from in_run s)
  /\ (in_run = true ->
      forall c, head (replace_ws_from in_run s) = Some c -> is_whitespace c = false).
Proof.
  revert in_run. induction s as [|c s IH]; intros in_run; simpl.
  - split; [exact I|discriminate].
  - destruct (is_whitespace c) eqn:Ec.
    + destruct in_run.
      * apply IH.
      * split; [|discriminate].
        apply no_adjacent_cons. split; [|apply IH].
        intros d Hd [_ Hd']. destruct (IH true) as [_ H].
        rewrite (H eq_refl d Hd) in Hd'. discriminate.
    + split.
      * apply no_adjacent_cons. split; [|apply IH].
        intros d _ [Hc _]. congruence.
      * intros _ d [= <-]. exact Ec.
Qed.

(** *** [trim()] *)

Lemma trimStart_suffix (s : JsString.t) : exists pre, s = pre ++ trimStart s.
Proof.
  induction s as [|c s [pre IH]]; simpl.
  - now exists [].
  - destruct (is_whitespace c).
    + exists (c :: pre). simpl. now f_equal.
    + now exists [].
Qed.

Lemma trimStart_head (s : JsString.t) (c : N) :
  head (trimStart s) = Some c -> is_whitespace c = false.
Proof.
  induction s as [|d s IH]; simpl; [discriminate|].
  destruct (is_whitespace d) eqn:Ed; [exact IH|].
  now intros [= <-].
Qed.

Lemma trimEnd_prefix (s : JsString.t) : exists post, s = trimEnd s ++ post.
Proof.
  unfold trimEnd. destruct (trimStart_suffix (rev s)) as [pre H].
  exists (rev pre).
  rewrite <- rev_app_distr, <- H. symmetry. apply rev_involutive.
Qed.

Lemma trimEnd_last (s : JsString.t) (c : N) :
  last (trimEnd s) = Some c -> is_whitespace c = false.
Proof.
  unfold trimEnd. intros H. apply last_Some in H as [l' H].
  apply (trimStart_head (rev s)).
  rewrite <- (rev_involutive (trimStart (rev s))), H, rev_app_distr.
  reflexivity.
Qed.

(** Trimming the end leaves a clean start alone. *)
Lemma trimStart_snoc (s : JsString.t) (c : N) :
  is_whitespace c = false -> exists s', trimStart (s ++ [c]) = s' ++ [c].
Proof.
  intros Hc. induction s as [|d s [s' IH]]; simpl.
  - rewrite Hc. now exists [].
  - destruct (is_whitespace d).
    + now exists s'.
    + now exists (d :: s).
Qed.

Lemma trimEnd_head (s : JsString.t) (c : N) :
  (forall d, head s = Some d -> is_whitespace d = false) ->
  head (trimEnd s) = Some c -> is_whitespace c = false.
Proof.
  intros Hs. destruct s as [|d s]; [discriminate|].
  unfold trimEnd. simpl.
  destruct (trimStart_snoc (rev s) d (Hs d eq_refl)) as [s' ->].
  rewrite rev_app_distr. simpl. intros [= <-]. now apply Hs.
Qed.

Lemma trim_clean (s : JsString.t) :
  no_adjacent is_whitespace s ->
  no_adjacent is_whitespace (trim s)
  /\ (forall c, head (trim s) = Some c -> is_whitespace c = false)
  /\ (forall c, last (trim s) = Some c -> is_whitespace c = false).
Proof.
  intros Hs. unfold trim. split; [|split].
  - destruct (trimStart_suffix s) as [pre Hpre].
    destruct (trimEnd_prefix (trimStart s)) as [post Hpost].
    rewrite Hpre in Hs. apply no_adjacent_app_r in Hs.
    rewrite Hpost in Hs. now apply no_adjacent_app_l in Hs.
  - intros c. apply trimEnd_head. apply trimStart_head.
  - intros c. apply trimEnd_last.
Qed.

Lemma blockText_clean (b : list JsString.t) :
  no_adjacent is_whitespace (blockText b)
  /\ (forall c, head (blockText b) = Some c -> is_whitespace c = false)
  /\ (forall c, last (blockText b) = Some c -> is_whitespace c = false).
Proof. apply trim_clean, replace_ws_from_spec. Qed.

(** *** Words *)

Lemma pieces_cons (s : JsString.t) :
  exists piece rest, pieces s = piece :: rest.
Proof.
  destruct s as [|c s]; simpl; [eauto|].
  destruct (is_whitespace c); [eauto|].
  destruct (pieces s); eauto.
Qed.

Lemma join_cons_pieces (c : N) (piece : JsString.t) (rest : list JsString.t) :
  join [space] ((c :: piece) :: rest) = c :: join [space] (piece :: rest).
Proof. now destruct rest. Qed.

(** Joining the pieces by a space gives the string back, when its
    whitespace is made of spaces. *)
Lemma join_pieces (s : JsString.t) :
  spaces_only s -> join [space] (pieces s) = s.
Proof.
  induction 1 as [|c s Hc Hs IH]; simpl; [reflexivity|].
  destruct (pieces_cons s) as (piece & rest & E). rewrite E in IH |- *.
  destruct (is_whitespace c) eqn:Ec.
  - rewrite (Hc eq_refl), <- IH. reflexivity.
  - now rewrite join_cons_pieces, IH.
Qed.

(** Collapsing the runs of whitespace keeps the words, and the first
    piece when it starts outside of a run. *)
Lemma replace_ws_from_words (s : JsString.t) (in_run : bool) :
  words (replace_ws_from in_run s) = words s
  /\ (in_run = false ->
      head (pieces (replace_ws_from in_run s)) = head (pieces s)).
Proof.
  revert in_run. induction s as [|c s IH]; intros in_run; simpl.
  - split; reflexivity.
  - destruct (is_whitespace c) eqn:Ec.
    + destruct in_run.
      * split; [|discriminate]. unfold words. simpl. rewrite Ec. apply IH.
      * unfold words. simpl. rewrite Ec. split; [apply IH|reflexivity].
    + unfold words. simpl. rewrite Ec.
      destruct (IH false) as [Hw Hh]. specialize (Hh eq_refl).
      unfold words in Hw.
      destruct (pieces_cons (replace_ws_from false s)) as (p1 & r1 & E1).
      destruct (pieces_cons s) as (p2 & r2 & E2).
      rewrite E1, E2 in *. simpl in Hh. injection Hh as ->.
      simpl in *. split; [|reflexivity].
      f_equal. destruct (nonempty p2); [now injection Hw|exact Hw].
Qed.

Lemma trimStart_words (s : JsString.t) : words (trimStart s) = words s.
Proof.
  induction s as [|c s IH]; simpl; [reflexivity|].
  destruct (is_whitespace c) eqn:Ec; [|reflexivity].
  rewrite IH. unfold words. simpl. now rewrite Ec.
Qed.

Lemma trimStart_dropped (s : JsString.t) :
  exists pre, s = pre ++ trimStart s /\ Forall (fun c => is_whitespace c = true) pre.
Proof.
  induction s as [|c s (pre & IH & Hpre)]; simpl.
  - now exists [].
  - destruct (is_whitespace c) eqn:Ec.
    + exists (c :: pre). split; [simpl; now f_equal|now constructor].
    + now exists [].
Qed.

Lemma trimEnd_dropped (s : JsString.t) :
  exists post, s = trimEnd s ++ post /\ Forall (fun c => is_whitespace c = true) post.
Proof.
  unfold trimEnd. destruct (trimStart_dropped (rev s)) as (pre & H & Hpre).
  exists (rev pre). split.
  - rewrite <- rev_app_distr, <- H. symmetry. apply rev_involutive.
  - apply List.Forall_forall. intros c Hc. apply in_rev in Hc.
    now apply (proj1 (List.Forall_forall _ _) Hpre).
Qed.

(** Whitespace at the end adds no word. *)
Lemma words_app_whitespace (s post : JsString.t) :
  Forall (fun c => is_whitespace c = true) post ->
  words (s ++ post) = words s
  /\ head (pieces (s ++ post)) = head (pieces s).
Proof.
  intros Hpost. induction s as [|c s [IHw IHh]]; simpl.
  - induction Hpost as [|c post Hc _ [IHw IHh]]; [split; reflexivity|].
    unfold words in *. simpl. rewrite Hc. simpl. split; [|reflexivity].
    destruct (pieces_cons post) as (p & r & E). rewrite E in *.
    simpl in IHh. injection IHh as ->. exact IHw.
  - unfold words in *. simpl. destruct (is_whitespace c); simpl.
    + split; [exact IHw|reflexivity].
    + destruct (pieces_cons (s ++ post)) as (p1 & r1 & E1).
      destruct (pieces_cons s) as (p2 & r2 & E2).
      rewrite E1, E2 in *. simpl in IHh. injection IHh as ->.
      simpl in *. split; [|reflexivity].
      f_equal. destruct (nonempty p2); [now injection IHw|exact IHw].
Qed.

Lemma trim_words (s : JsString.t) : words (trim s) = words s.
Proof.
  unfold trim. rewrite <- (trimStart_words s).
  destruct (trimEnd_dropped (trimStart s)) as (post & H & Hpost).
  rewrite H at 2. symmetry. now apply words_app_whitespace.
Qed.

(** A clean string has no empty piece. *)
Lemma pieces_clean (s : JsString.t) :
  s <> [] ->
  no_adjacent is_whitespace s ->
  (forall c, last s = Some c -> is_whitespace c = false) ->
  match head s with
  | Some c =>
      if is_whitespace c
      then exists rest, pieces s = [] :: rest /\ List.filter nonempty rest = rest
      else List.filter nonempty (pieces s) = pieces s
  | None => True
  end.
Proof.
  induction s as [|c s IH]; [congruence|]. intros _ Hadj Hlast.
  apply no_adjacent_cons in Hadj as [Hcd Hadj].
  destruct s as [|d s].
  - cbn. rewrite (Hlast c eq_refl). reflexivity.
  - specialize (IH ltac:(discriminate) Hadj
                  (fun e He => Hlast e (eq_trans (last_cons_cons c d s) He))).
    cbn [head] in IH |- *.
    assert (Epc : pieces (c :: d :: s)
                  = if is_whitespace c then [] :: pieces (d :: s)
                    else match pieces (d :: s) with
                         | piece :: rest => (c :: piece) :: rest
                         | [] => [[c]]
                         end) by reflexivity.
    rewrite Epc. clear Epc.
    set (ps := pieces (d :: s)) in *. clearbody ps.
    destruct (is_whitespace c) eqn:Ec.
    + destruct (is_whitespace d) eqn:Ed.
      * exfalso. apply (Hcd d eq_refl). now split.
      * exists ps. split; [reflexivity|exact IH].
    + destruct (is_whitespace d) eqn:Ed.
      * destruct IH as (rest & -> & Hrest). simpl. now rewrite Hrest.
      * destruct ps as [|p r]; [reflexivity|].
        simpl in *. f_equal.
        destruct (nonempty p); [now injection IH|].
        exfalso.
        assert (Hlen : (length (List.filter nonempty r) <= length r)%nat)
          by apply List.filter_length_le.
        rewrite IH in Hlen. simpl in Hlen. lia.
Qed.

(** A clean string whose whitespace is made of spaces is the join of
    its words. *)
Lemma join_words_clean (s : JsString.t) :
  spaces_only s ->
  no_adjacent is_whitespace s ->
  (forall c, head s = Some c -> is_whitespace c = false) ->
  (forall c, last s = Some c -> is_whitespace c = false) ->
  join [space] (words s) = s.
Proof.
  intros Hsp Hadj Hhead Hlast.
  destruct s as [|c s]; [reflexivity|].
  pose proof (pieces_clean (c :: s) ltac:(discriminate) Hadj Hlast) as H.
  simpl head in H. rewrite (Hhead c eq_refl) in H.
  unfold words. rewrite H. now apply join_pieces.
Qed.

Lemma replace_ws_from_spaces (s : JsString.t) (in_run : bool) :
  spaces_only (replace_ws_from in_run s).
Proof.
  revert in_run. induction s as [|c s IH]; intros in_run; simpl.
  - constructor.
  - destruct (is_whitespace c) eqn:Ec.
    + destruct in_run; [apply IH|]. constructor; [reflexivity|apply IH].
    + constructor; [congruence|apply IH].
Qed.

Lemma trim_spaces (s : JsString.t) : spaces_only s -> spaces_only (trim s).
Proof.
  unfold spaces_only, trim. intros Hs.
  destruct (trimStart_suffix s) as [pre Hpre].
  destruct (trimEnd_prefix (trimStart s)) as [post Hpost].
  rewrite Hpre, Hpost in Hs.
  apply Forall_app in Hs as [_ Hs]. now apply Forall_app in Hs as [Hs _].
Qed.

(** The text of a block is the space-join of the words of the
    space-join of its fragments. *)
Lemma blockText_words (b : list JsString.t) :
  blockText b = join [space] (words (join [space] b)).
Proof.
  unfold blockText.
  set (s := join [space] b).
  destruct (trim_clean (replace_ws s) (proj1 (replace_ws_from_spec s false)))
    as (Hadj & Hhead & Hlast).
  rewrite <- (join_words_clean (trim (replace_ws s))); try assumption.
  - rewrite trim_words. unfold replace_ws.
    now rewrite (proj1 (replace_ws_from_words s false)).
  - apply trim_spaces, replace_ws_from_spaces.
Qed.

(** C8. Every string returned by [clusterTextItems] is obtained from
    the texts of the fragments of one block (the blocks partition the
    re-sorted fragments) by joining them with a space, replacing every
    run of whitespace by a single space and trimming; this is the
    sequence of the words of the joined texts, separated by single
    spaces.  Hence it never holds two adjacent whitespace code units,
    in particular never two consecutive spaces, and it neither starts
    nor ends with whitespace. *)
Theorem clusterTextItems_normalized
    (items : list TextItem) (pageWidth pageHeight : Q) :
  let out := clusterBlocks items pageWidth in
  concat out = map text (sortedItems items)
  /\ clusterTextItems items pageWidth pageHeight
     = map (fun b => trim (replace_ws (join [space] b))) out
  /\ clusterTextItems items pageWidth pageHeight
     = map (fun b => join [space] (words (join [space] b))) out
  /\ Forall (fun t =>
               no_adjacent is_whitespace t
               /\ no_adjacent (N.eqb space) t
               /\ (forall c, head t = Some c -> is_whitespace c = false)
               /\ (forall c, last t = Some c -> is_whitespace c = false))
       (clusterTextItems items pageWidth pageHeight).
Proof.
  simpl. split; [apply Clusterer.clusterBlocks_concat|].
  split; [apply Clusterer.clusterTextItems_blocks|].
  rewrite Clusterer.clusterTextItems_blocks.
  split; [apply map_ext, blockText_words|].
  apply List.Forall_forall. intros t Ht. apply in_map_iff in Ht as (b & <- & _).
  destruct (blockText_clean b) as (H1 & H2 & H3).
  split; [exact H1|]. split; [|split; assumption].
  revert H1. apply no_adjacent_weaken.
  intros c Hc. apply N.eqb_eq in Hc. now subst c.
Qed.

(** The two ragged fragments form one block, ["a b c d"]. *)
Lemma clusterTextItems_normalized_witness :
  clusterTextItems Samples.ragged 400 600 = [JsString.lit "a b c d"]
  /\ Forall (fun t =>
               no_adjacent is_whitespace t
               /\ no_adjacent (N.eqb space) t
               /\ (forall c, head t = Some c -> is_whitespace c = false)
               /\ (forall c, last t = Some c -> is_whitespace c = false))
       (clusterTextItems Samples.ragged 400 600).
Proof.
  split; [reflexivity|].
  exact (proj2 (proj2 (proj2
           (clusterTextItems_normalized Samples.ragged 400 600)))).
Defined.

End Normalization.

(** ** The timeline *)

Module Timeline.

Import App Spec.

Lemma duration_over_speed_nonneg (d speed : Q) :
  0 <= d -> 0 < speed -> 0 <= d / speed.
Proof.
  intros Hd Hs. unfold Qdiv. apply Qmult_le_0_compat; [exact Hd|].
  apply Qlt_le_weak, Qinv_lt_0_compat, Hs.
Qed.

(** The start time is never before [nextStartTime] nor before [now]. *)
Lemma schedule_start (next now d speed : Q) :
  next <= fst (schedule next now d speed)
  /\ now <= fst (schedule next now d speed).
Proof. simpl. split; [apply Q.le_max_l|apply Q.le_max_r]. Qed.

(** The first segment of a sequence starts at or after [next]. *)
Lemma scheduleAll_head (speed next : Q) (calls : list (Q * Q)) (s e : Q)
    (rest : list (Q * Q)) :
  scheduleAll speed next calls = (s, e) :: rest -> next <= s.
Proof.
  destruct calls as [|[d now] calls]; simpl; [discriminate|].
  intros [= <- _ _]. apply Q.le_max_l.
Qed.

Lemma scheduleAll_back_to_back (speed next : Q) (calls : list (Q * Q)) :
  0 < speed ->
  Forall (fun c => 0 <= fst c) calls ->
  back_to_back (scheduleAll speed next calls).
Proof.
  intros Hs Hd. revert next.
  induction Hd as [|[d now] calls Hd _ IH]; intros next; simpl; [exact I|].
  split; [|apply IH].
  destruct (scheduleAll speed (Qmax next now + d / speed) calls)
    as [|[s' e'] rest] eqn:E; [exact I|].
  apply scheduleAll_head in E.
  pose proof (duration_over_speed_nonneg d speed Hd Hs).
  split; lra.
Qed.

(** The first call after a stop, with the audio clock at 5 seconds. *)
Lemma schedule_does_not_advance_by_duration :
  ~ advances_by_duration 0 5 2 1.
Proof. unfold advances_by_duration. simpl. vm_compute. discriminate. Qed.

(** C1, as amended.  One scheduling step returns
    [max (nextStartTime, now)] as start time and sets [nextStartTime]
    to that start time plus [bufferDuration / speed]; this advances
    [nextStartTime] by [bufferDuration / speed] exactly when [now]
    does not exceed it.  Consequently, for a positive speed and every sequence
    of calls with non-negative durations, each segment starts no
    earlier than the previous one starts and no earlier than the
    previous one ends.  Three 2-second segments at speed 1 with [now]
    constantly 0 start at 0, 2 and 4. *)
Theorem schedule_timeline (speed : Q) :
  0 < speed ->
  (forall next now d,
      schedule next now d speed = (Qmax next now, Qmax next now + d / speed))
  /\ (forall next now d,
        advances_by_duration next now d speed <-> now <= next)
  /\ (forall next calls,
        Forall (fun c => 0 <= fst c) calls ->
        back_to_back (scheduleAll speed next calls))
  /\ map fst (scheduleAll 1 0 [(2, 0); (2, 0); (2, 0)]) = [0; 2; 4].
Proof.
  intros Hs. split; [reflexivity|]. split; [|split].
  - intros next now d. unfold advances_by_duration. simpl.
    rewrite <- Q.max_l_iff. split; intros H.
    + apply (Qplus_inj_r _ _ (d / speed)). exact H.
    + now rewrite H.
  - intros next calls H. now apply scheduleAll_back_to_back.
  - reflexivity.
Qed.

(** At speed 1/2: two 2-second segments requested at clock time 5,
    one at clock time 20. *)
Lemma schedule_timeline_witness :
  0 < (1 # 2)
  /\ Forall (fun c : Q * Q => 0 <= fst c) [(2, 5); (2, 5); (2, 20)]
  /\ back_to_back (scheduleAll (1 # 2) 0 [(2, 5); (2, 5); (2, 20)]).
Proof.
  assert (Hs : 0 < (1 # 2)) by reflexivity.
  assert (Hd : Forall (fun c : Q * Q => 0 <= fst c) [(2, 5); (2, 5); (2, 20)]).
  { repeat constructor; simpl; discriminate. }
  split; [exact Hs|]. split; [exact Hd|].
  exact (proj1 (proj2 (proj2 (schedule_timeline (1 # 2) Hs))) 0 _ Hd).
Defined.

End Timeline.

(** ** The services *)

Module Services.

Import Gemini.

(** C10. When the clean-up call completes without throwing but its
    response carries no text, or an empty text, [processRawLayout]
    returns its raw input unchanged; a non-empty text is returned as
    it is; an error thrown by the call is not covered by the fallback
    and propagates. *)
Theorem processRawLayout_fallback (rawText : JsString.t) :
  processRawLayout (Resolved None) rawText = Resolved rawText
  /\ processRawLayout (Resolved (Some [])) rawText = Resolved rawText
  /\ (forall c t,
        processRawLayout (Resolved (Some (c :: t))) rawText = Resolved (c :: t))
  /\ (forall e, processRawLayout (Rejected e) rawText = Rejected e).
Proof. repeat split. Qed.

End Services.

(** ** Playback *)

Module Playback.

Import App Spec.

(** *** [stopPlayback] *)

Lemma try_stop_self (ns : list SourceNode) (s : nat) :
  silent_at (try_stop ns s) s.
Proof.
  unfold silent_at, try_stop. intros n.
  destruct (ns !! s) as [m|] eqn:E; [|now rewrite E].
  unfold stop. destruct (startTime m) as [t|] eqn:Et.
  - rewrite list_lookup_insert_eq by (eapply lookup_lt_Some; eassumption).
    intros [= <-]. reflexivity.
  - rewrite E. intros [= <-]. unfold audible. now rewrite Et.
Qed.

Lemma try_stop_other (ns : list SourceNode) (s s' : nat) :
  silent_at ns s' -> silent_at (try_stop ns s) s'.
Proof.
  intros H. destruct (decide (s = s')) as [->|Hne]; [apply try_stop_self|].
  unfold silent_at, try_stop in *. intros n.
  destruct (ns !! s) as [m|]; [|apply H].
  destruct (stop m); [|apply H].
  rewrite list_lookup_insert_ne by exact Hne. apply H.
Qed.

Lemma fold_try_stop (l : list nat) (ns : list SourceNode) (s : nat) :
  s ∈ l \/ silent_at ns s -> silent_at (fold_left try_stop l ns) s.
Proof.
  revert ns. induction l as [|s0 l IH]; intros ns H; simpl.
  - destruct H as [H|H]; [|exact H]. now apply elem_of_nil in H.
  - apply IH. destruct H as [H|H].
    + apply elem_of_cons in H as [->|H]; [|now left].
      right. apply try_stop_self.
    + right. now apply try_stop_other.
Qed.

(** C4. Whatever the state before, however many handles were tracked
    and whatever became of them (playing, finished, never started):
    after [stopPlayback] the set of tracked handles is empty,
    [nextStartTime] is zero, none of the handles that were tracked
    produces sound, and a second [stopPlayback] changes nothing. *)
Theorem stopPlayback_clears (st : State) :
  activeSourcesRef (stopPlayback st) = ∅
  /\ nextStartTimeRef (stopPlayback st) = 0
  /\ (forall s, s ∈ activeSourcesRef st -> silent_at (nodes (stopPlayback st)) s)
  /\ stopPlayback (stopPlayback st) = stopPlayback st.
Proof.
  split; [reflexivity|]. split; [reflexivity|]. split.
  - intros s Hs. unfold stopPlayback. simpl.
    apply fold_try_stop. left. now apply elem_of_elements.
  - unfold stopPlayback. simpl. rewrite elements_empty. reflexivity.
Qed.

Lemma stopPlayback_clears_witness :
  0%nat ∈ activeSourcesRef Samples.two_sources
  /\ silent_at (nodes (stopPlayback Samples.two_sources)) 0.
Proof.
  assert (H : 0%nat ∈ activeSourcesRef Samples.two_sources).
  { simpl. set_solver. }
  split; [exact H|].
  exact (proj1 (proj2 (proj2 (stopPlayback_clears Samples.two_sources))) 0%nat H).
Defined.

(** *** [readLoop]: what leaves the document alone *)

Lemma doc_handle (e : Event) (st : State) : doc (handle e st) = doc st.
Proof. now destruct e. Qed.

Lemma doc_suspended (events : list Event) (st : State) :
  doc (suspended events st) = doc st.
Proof.
  unfold suspended.
  assert (H : forall st0, doc (fold_left (fun st e => render (handle e st)) events st0)
                          = doc st0).
  { induction events as [|e events IH]; intros st0; simpl; [reflexivity|].
    rewrite IH. simpl. apply doc_handle. }
  now rewrite H.
Qed.

Lemma doc_speakBlock (snapshot : TTSState) (block : TextBlock) (be : BlockEnv)
    (st : State) :
  doc (speakBlock snapshot block be st) = doc st.
Proof.
  unfold speakBlock.
  destruct (Gemini.generateSpeech _) as [audioBytes|e]; simpl.
  - destruct (Gemini.decodeAudioData _) as [audioBuffer|e]; simpl.
    + rewrite doc_suspended. simpl. apply doc_suspended.
    + apply doc_suspended.
  - apply doc_suspended.
Qed.

Lemma blocksAt_doc (pIdx : nat) (st st' : State) :
  doc st' = doc st -> blocksAt pIdx st' = blocksAt pIdx st.
Proof. unfold blocksAt, pagesOf. now intros ->. Qed.

(** *** [readLoop]: termination *)

(** The inner loop ends, by its condition or by [return], within
    [page.blocks.length - bIdx] iterations. *)
Lemma blockLoop_total (env : Env) (snapshot : TTSState) (pIdx : nat)
    (fuel bIdx : nat) (st : State) :
  (length (blocksAt pIdx st) - bIdx <= fuel)%nat ->
  exists st',
    (blockLoop fuel env snapshot pIdx bIdx st = InnerDone st'
     \/ blockLoop fuel env snapshot pIdx bIdx st = InnerReturn st')
    /\ doc st' = doc st.
Proof.
  revert bIdx st. induction fuel as [|fuel IH]; intros bIdx st Hfuel.
  - unfold blocksAt in Hfuel. simpl.
    destruct (pagesOf st !! pIdx) as [page|]; [|eauto].
    destruct (blocks page !! bIdx) as [block|] eqn:Eb; [|eauto].
    apply lookup_lt_Some in Eb. lia.
  - simpl. unfold blocksAt in Hfuel.
    destruct (pagesOf st !! pIdx) as [page|] eqn:Ep; [|eauto].
    destruct (blocks page !! bIdx) as [block|] eqn:Eb; [|eauto].
    destruct (isPlayingRef st); simpl; [|eauto].
    set (st1 := speakBlock snapshot block (block_env env pIdx bIdx) _).
    assert (Hdoc : doc st1 = doc st).
    { unfold st1. now rewrite doc_speakBlock. }
    destruct (IH (S bIdx) st1) as (st' & Hres & Hdoc').
    { rewrite (blocksAt_doc pIdx st st1 Hdoc). unfold blocksAt. rewrite Ep. lia. }
    exists st'. split; [exact Hres|congruence].
Qed.

Lemma pages_set_page_blocks (pIdx : nat) (bs : list TextBlock) (st : State) :
  length (pagesOf (set_page_blocks pIdx bs st)) = length (pagesOf st).
Proof.
  unfold set_page_blocks, pagesOf.
  destruct (doc st) as [d|] eqn:Ed; [|now rewrite Ed].
  destruct (pages d !! pIdx); simpl; [|now rewrite Ed].
  apply length_insert.
Qed.

Lemma ensureBlocks_answers (env : Env) (pIdx : nat) (page : PageContent)
    (st : State) :
  cleanup_answers env ->
  exists st',
    ensureBlocks env pIdx page st = Continue st'
    /\ length (pagesOf st') = length (pagesOf st).
Proof.
  intros Hans. unfold ensureBlocks.
  destruct (blocks page); [|eauto].
  destruct (cleanup_reply (page_env env pIdx) (rawText page)) as [r|e] eqn:Er.
  2:{ now apply Hans in Er. }
  assert (Hok : exists cleaned,
             Gemini.processRawLayout (Resolved r) (rawText page) = Resolved cleaned).
  { destruct r as [[|c t]|]; simpl; eauto. }
  destruct Hok as [cleaned ->].
  eexists. split; [reflexivity|].
  unfold pagesOf at 1. simpl. fold (pagesOf (set_page_blocks pIdx [paragraph_of cleaned]
    (suspended (cleanup_events (page_env env pIdx))
       (setProcessingStatus (analyzing pIdx) st)))).
  rewrite pages_set_page_blocks. unfold pagesOf. now rewrite doc_suspended.
Qed.

(** When the clean-up request is never rejected the outer loop ends
    within [doc.pages.length - pIdx] iterations, and the promise is
    fulfilled. *)
Lemma pageLoop_total (env : Env) (snapshot : TTSState) (fuel pIdx bIdx : nat)
    (st : State) :
  cleanup_answers env ->
  (length (pagesOf st) - pIdx <= fuel)%nat ->
  exists st', pageLoop fuel env snapshot pIdx bIdx st = Fulfilled st'.
Proof.
  intros Hans. revert pIdx bIdx st.
  induction fuel as [|fuel IH]; intros pIdx bIdx st Hfuel; simpl.
  - destruct (pagesOf st !! pIdx) as [page|] eqn:Ep; [|eauto].
    apply lookup_lt_Some in Ep. lia.
  - destruct (pagesOf st !! pIdx) as [page|] eqn:Ep; [|eauto].
    destruct (ensureBlocks_answers env pIdx page st Hans) as (st1 & -> & Hlen).
    destruct (blockLoop_total env snapshot pIdx
                (length (blocksAt pIdx st1) - bIdx) bIdx st1 (Nat.le_refl _))
      as (st2 & [-> | ->] & Hdoc); [|eauto].
    apply IH. unfold pagesOf in *. rewrite Hdoc. lia.
Qed.

(** *** [readLoop]: what a run leaves behind *)

Lemma buffers_mark_ended (s : nat) (ns : list SourceNode) :
  map buffer (mark_ended s ns) = map buffer ns.
Proof.
  unfold mark_ended. destruct (ns !! s) as [n|] eqn:E; [|reflexivity].
  change (map buffer) with (fmap (M := list) buffer).
  rewrite list_fmap_insert. simpl. apply list_insert_id.
  now rewrite list_lookup_fmap, E.
Qed.

(** An event other than a request to stop leaves the play flag, the
    cursor and the ledger alone, and tracks nothing new. *)
Lemma handle_quiet (e : Event) (st : State) :
  e <> StopRequested ->
  ttsState (handle e st) = ttsState st
  /\ ledger (handle e st) = ledger st
  /\ length (nodes (handle e st)) = length (nodes st)
  /\ activeSourcesRef (handle e st) ⊆ activeSourcesRef st.
Proof.
  destruct e as [|s]; [congruence|]. intros _. unfold ledger. simpl.
  rewrite buffers_mark_ended. split; [reflexivity|]. split; [reflexivity|].
  split; [|apply subseteq_difference_l; reflexivity].
  unfold mark_ended. destruct (nodes st !! s); [apply length_insert|reflexivity].
Qed.

Lemma suspended_quiet (events : list Event) (st : State) :
  ~ In StopRequested events ->
  ttsState (suspended events st) = ttsState st
  /\ isPlayingRef (suspended events st) = isPlaying (ttsState st)
  /\ ledger (suspended events st) = ledger st
  /\ length (nodes (suspended events st)) = length (nodes st)
  /\ activeSourcesRef (suspended events st) ⊆ activeSourcesRef st.
Proof.
  unfold suspended. intros Hq.
  assert (H0 : ttsState (render st) = ttsState st
               /\ isPlayingRef (render st) = isPlaying (ttsState st)
               /\ ledger (render st) = ledger st
               /\ length (nodes (render st)) = length (nodes st)
               /\ activeSourcesRef (render st) ⊆ activeSourcesRef st).
  { simpl. repeat split; reflexivity. }
  revert H0. generalize (render st).
  induction events as [|e events IH]; intros st0 H0; simpl; [exact H0|].
  apply IH.
  - intros H. apply Hq. now right.
  - destruct H0 as (H1 & H2 & H3 & H4 & H5).
    destruct (handle_quiet e st0) as (G1 & G2 & G3 & G4).
    { intros ->. apply Hq. now left. }
    unfold ledger in *. simpl.
    rewrite G1, G3, H1, H4. split; [reflexivity|]. split; [reflexivity|].
    split; [congruence|]. split; [reflexivity|].
    etransitivity; [exact G4|exact H5].
Qed.

(** One block, while the flag is set and nobody asks to stop: the
    ledger gets the entry of the block, the flag stays set, and no
    handle is tracked but that of a source created for the block. *)
Lemma speakBlock_ledger
    (snapshot : TTSState) (block : TextBlock) (be : BlockEnv) (st : State) :
  ~ In StopRequested (speech_events be) ->
  ~ In StopRequested (sleep_events be) ->
  isPlaying (ttsState st) = true ->
  let st' := speakBlock snapshot block be st in
  ttsState st' = ttsState st
  /\ isPlayingRef st' = true
  /\ ledger st'
     = record_attempt (speed snapshot) (ledger st)
         (currentTime be, attempt snapshot be block)
  /\ (length (nodes st) <= length (nodes st'))%nat
  /\ (forall s, s ∈ activeSourcesRef st' ->
        s ∈ activeSourcesRef st
        \/ (length (nodes st) <= s < length (nodes st'))%nat).
Proof.
  intros Hq1 Hq2 Hplay. cbv zeta. unfold speakBlock, attempt.
  destruct (suspended_quiet (speech_events be) st Hq1)
    as (H1 & H2 & H3 & H4 & H5).
  set (st1 := suspended (speech_events be) st) in *.
  assert (Hfail : forall e,
    let st' := console_error (JsString.lit "Audio block failed") e st1 in
    ttsState st' = ttsState st
    /\ isPlayingRef st' = true
    /\ ledger st'
       = (let '(log, played, nextStartTime) := ledger st in
          (log ++ [(JsString.lit "Audio block failed", e)], played, nextStartTime))
    /\ (length (nodes st) <= length (nodes st'))%nat
    /\ (forall s, s ∈ activeSourcesRef st' ->
          s ∈ activeSourcesRef st
          \/ (length (nodes st) <= s < length (nodes st'))%nat)).
  { intros e. simpl. split; [exact H1|]. split; [congruence|].
    split; [|split; [lia|]].
    - unfold ledger in *. simpl. now injection H3 as -> -> ->.
    - intros s Hs. left. set_solver. }
  destruct (Gemini.generateSpeech _) as [audioBytes|e]; [|apply Hfail].
  destruct (Gemini.decodeAudioData audioBytes) as [audioBuffer|e]; [|apply Hfail].
  clear Hfail.
  set (st2 := startSource snapshot audioBuffer (currentTime be) st1).
  assert (Hflag2 : isPlaying (ttsState st2) = true).
  { unfold st2. simpl. congruence. }
  destruct (suspended_quiet (sleep_events be) st2 Hq2)
    as (G1 & G2 & G3 & G4 & G5).
  assert (Hlen2 : length (nodes st2) = S (length (nodes st))).
  { unfold st2. simpl. rewrite length_app. simpl. lia. }
  split; [rewrite G1; exact H1|]. split; [congruence|].
  split; [|split; [lia|]].
  - rewrite G3. unfold ledger in *. unfold st2. simpl.
    rewrite map_app. simpl. now injection H3 as -> -> ->.
  - intros s Hs. apply G5 in Hs. unfold st2 in Hs. simpl in Hs.
    apply elem_of_union in Hs as [Hs|Hs].
    + apply elem_of_singleton in Hs. right. lia.
    + left. set_solver.
Qed.

(** The inner loop over the blocks of a page that are still to be
    read. *)
Lemma blockLoop_ledger
    (env : Env) (snapshot : TTSState) (pIdx : nat) (page : PageContent)
    (fuel bIdx : nat) (st : State) :
  nobody_stops env ->
  pagesOf st !! pIdx = Some page ->
  (length (blocks page) - bIdx <= fuel)%nat ->
  isPlayingRef st = true ->
  isPlaying (ttsState st) = true ->
  exists st',
    blockLoop fuel env snapshot pIdx bIdx st = InnerDone st'
    /\ doc st' = doc st
    /\ isPlayingRef st' = true
    /\ isPlaying (ttsState st') = true
    /\ reset_playback (ttsState st') = reset_playback (ttsState st)
    /\ ledger st'
       = fold_left (record_attempt (speed snapshot))
           (attempts_on_page env snapshot pIdx bIdx (drop bIdx (blocks page)))
           (ledger st)
    /\ (length (nodes st) <= length (nodes st'))%nat
    /\ (forall s, s ∈ activeSourcesRef st' ->
          s ∈ activeSourcesRef st
          \/ (length (nodes st) <= s < length (nodes st'))%nat).
Proof.
  intros Hquiet. revert bIdx st.
  induction fuel as [|fuel IH]; intros bIdx st Hp Hfuel Href Hflag.
  - simpl. rewrite Hp.
    destruct (blocks page !! bIdx) as [block|] eqn:Eb.
    { apply lookup_lt_Some in Eb. lia. }
    rewrite drop_ge by (now apply lookup_ge_None). simpl.
    exists st. repeat split; auto.
  - simpl. rewrite Hp.
    destruct (blocks page !! bIdx) as [block|] eqn:Eb.
    2:{ rewrite drop_ge by (now apply lookup_ge_None). simpl.
        exists st. repeat split; auto. }
    rewrite Href. simpl negb. cbv iota.
    rewrite (drop_S _ _ _ Eb). simpl attempts_on_page. simpl fold_left.
    set (st0 := setTtsState (with_cursor pIdx bIdx)
                  (setCurrentText (content block) st)).
    destruct (Hquiet pIdx bIdx) as (_ & Hq1 & Hq2).
    destruct (speakBlock_ledger snapshot block (block_env env pIdx bIdx) st0
                Hq1 Hq2 Hflag) as (H1 & H2 & H3 & H4 & H5).
    set (st1 := speakBlock snapshot block (block_env env pIdx bIdx) st0) in *.
    assert (Hdoc1 : doc st1 = doc st).
    { unfold st1. now rewrite doc_speakBlock. }
    destruct (IH (S bIdx) st1) as (st' & E & G1 & G2 & G3 & G4 & G5 & G6 & G7).
    + unfold pagesOf in *. now rewrite Hdoc1.
    + apply lookup_lt_Some in Eb. lia.
    + exact H2.
    + now rewrite H1.
    + exists st'. split; [exact E|]. split; [congruence|].
      split; [exact G2|]. split; [exact G3|].
      split; [rewrite G4, H1; reflexivity|].
      split; [rewrite G5, H3; reflexivity|].
      change (length (nodes st0)) with (length (nodes st)) in *.
      change (activeSourcesRef st0) with (activeSourcesRef st) in *.
      split; [lia|].
      intros s Hs. destruct (G7 s Hs) as [Hs'|Hs']; [|right; lia].
      destruct (H5 s Hs') as [Hs''|Hs'']; [now left|right; lia].
Qed.

(** The clean-up at the head of the outer loop, when the request is
    answered and nobody asks to stop: afterwards the page holds the
    blocks that will be read. *)
Lemma ensureBlocks_ledger
    (env : Env) (pIdx : nat) (page : PageContent) (st : State) :
  nobody_stops env -> cleanup_answers env ->
  pagesOf st !! pIdx = Some page ->
  isPlayingRef st = true ->
  isPlaying (ttsState st) = true ->
  exists st' page',
    ensureBlocks env pIdx page st = Continue st'
    /\ pagesOf st' = <[pIdx := page']> (pagesOf st)
    /\ blocks page' = blocks_read env pIdx page
    /\ isPlayingRef st' = true
    /\ ttsState st' = ttsState st
    /\ ledger st' = ledger st
    /\ length (nodes st') = length (nodes st)
    /\ activeSourcesRef st' ⊆ activeSourcesRef st.
Proof.
  intros Hquiet Hans Hp Href Hflag. unfold ensureBlocks, blocks_read.
  destruct (blocks page) as [|b bs] eqn:Eb.
  - destruct (cleanup_reply (page_env env pIdx) (rawText page)) as [r|e] eqn:Er.
    2:{ now apply Hans in Er. }
    assert (Hok : exists cleaned,
               Gemini.processRawLayout (Resolved r) (rawText page)
               = Resolved cleaned).
    { destruct r as [[|c t]|]; simpl; eauto. }
    destruct Hok as [cleaned ->].
    destruct (Hquiet pIdx 0%nat) as (Hq & _).
    destruct (suspended_quiet (cleanup_events (page_env env pIdx))
                (setProcessingStatus (analyzing pIdx) st) Hq)
      as (H1 & H2 & H3 & H4 & H5).
    set (st1 := suspended (cleanup_events (page_env env pIdx))
                  (setProcessingStatus (analyzing pIdx) st)) in *.
    assert (Hdoc1 : doc st1 = doc st).
    { unfold st1. now rewrite doc_suspended. }
    unfold pagesOf in Hp. destruct (doc st) as [d|] eqn:Ed; [|discriminate].
    eexists _, (mkPage (pageNumber page) [paragraph_of cleaned] (rawText page)).
    split; [reflexivity|].
    unfold set_page_blocks. rewrite Hdoc1, Hp. unfold pagesOf. simpl. rewrite Ed.
    split; [reflexivity|]. split; [reflexivity|]. split; [simpl in *; congruence|].
    split; [exact H1|]. split; [exact H3|]. split; [exact H4|exact H5].
  - exists st, page. split; [reflexivity|].
    split; [now rewrite list_insert_id|]. auto 10.
Qed.

(** The outer loop over the pages that are still to be read. *)
Lemma pageLoop_ledger
    (env : Env) (snapshot : TTSState) (rest : list PageContent) :
  nobody_stops env -> cleanup_answers env ->
  forall (fuel pIdx bIdx : nat) (st : State),
    drop pIdx (pagesOf st) = rest ->
    (length rest <= fuel)%nat ->
    isPlayingRef st = true ->
    isPlaying (ttsState st) = true ->
    exists st',
      pageLoop fuel env snapshot pIdx bIdx st = Fulfilled st'
      /\ ttsState st' = reset_playback (ttsState st)
      /\ ledger st'
         = fold_left (record_attempt (speed snapshot))
             (attempts env snapshot pIdx bIdx rest) (ledger st)
      /\ (length (nodes st) <= length (nodes st'))%nat
      /\ (forall s, s ∈ activeSourcesRef st' ->
            s ∈ activeSourcesRef st
            \/ (length (nodes st) <= s < length (nodes st'))%nat).
Proof.
  intros Hquiet Hans.
  induction rest as [|page rest IH]; intros fuel pIdx bIdx st Hrest Hfuel Href Hflag.
  - assert (Hnone : pagesOf st !! pIdx = None).
    { apply lookup_ge_None. apply (f_equal length) in Hrest.
      rewrite length_drop in Hrest. simpl in Hrest. lia. }
    exists (setTtsState reset_playback st).
    split; [destruct fuel; simpl; now rewrite Hnone|].
    simpl. repeat split; auto.
  - assert (Hp : pagesOf st !! pIdx = Some page).
    { rewrite <- (Nat.add_0_r pIdx), <- lookup_drop, Hrest. reflexivity. }
    destruct fuel as [|fuel]; [simpl in Hfuel; lia|].
    simpl pageLoop. rewrite Hp.
    destruct (ensureBlocks_ledger env pIdx page st Hquiet Hans Hp Href Hflag)
      as (st1 & page1 & -> & Hpages1 & Hblocks1 & Href1 & Htts1 & Hled1 & Hlen1 & Hact1).
    assert (Hp1 : pagesOf st1 !! pIdx = Some page1).
    { rewrite Hpages1. apply list_lookup_insert_eq.
      eapply lookup_lt_Some. exact Hp. }
    assert (Hat1 : blocksAt pIdx st1 = blocks page1).
    { unfold blocksAt. now rewrite Hp1. }
    rewrite Hat1.
    destruct (blockLoop_ledger env snapshot pIdx page1
                (length (blocks page1) - bIdx) bIdx st1 Hquiet Hp1
                (Nat.le_refl _) Href1)
      as (st2 & -> & Hdoc2 & Href2 & Hflag2 & Hreset2 & Hled2 & Hlen2 & Hact2).
    { now rewrite Htts1. }
    destruct (IH fuel (S pIdx) 0%nat st2) as (st' & E & G1 & G2 & G3 & G4).
    + unfold pagesOf in *. rewrite Hdoc2, Hpages1.
      rewrite drop_insert_lt by lia.
      rewrite (drop_S _ _ _ Hp) in Hrest. now injection Hrest.
    + simpl in Hfuel. lia.
    + exact Href2.
    + exact Hflag2.
    + exists st'. split; [exact E|].
      split; [rewrite G1, Hreset2, Htts1; reflexivity|].
      split.
      { rewrite G2, Hled2, Hled1, Hblocks1. simpl attempts.
        now rewrite fold_left_app. }
      split; [lia|].
      intros s Hs. destruct (G4 s Hs) as [Hs'|Hs']; [|right; lia].
      destruct (Hact2 s Hs') as [Hs''|Hs'']; [|right; lia].
      left. set_solver.
Qed.

(** C5. A run of [readLoop] in which no clean-up request is rejected
    is fulfilled, whichever speech requests and decodings fail and
    whoever asks to stop: it never throws.  When moreover nobody asks
    to stop, the run reads every block from the cursor to the end of
    the document, one after the other.  A block whose synthesis or
    decoding fails leaves one entry on the console and nothing else:
    no source node is created for it, no handle is tracked for it and
    [nextStartTime] stays as it is.  Every other block gets its
    source, scheduled behind the sources before it, whether or not a
    block before it failed.  At the end the cursor is reset and the
    play flag cleared, as after a document without any failure. *)
Theorem block_failure_contained (env : Env) (snapshot : TTSState) :
  cleanup_answers env ->
  (forall st, exists st', readLoop env snapshot st = Fulfilled st')
  /\ (forall (st : State) (d : DocumentData),
        nobody_stops env ->
        doc st = Some d -> audioContextRef st = true ->
        isPlayingRef st = true -> isPlaying (ttsState st) = true ->
        let tried :=
          attempts env snapshot (currentPage snapshot)
            (currentBlockIndex snapshot) (drop (currentPage snapshot) (pages d)) in
        exists st',
          readLoop env snapshot st = Fulfilled st'
          /\ ledger st'
             = fold_left (record_attempt (speed snapshot)) tried (ledger st)
          /\ ttsState st' = reset_playback (ttsState st)
          /\ (forall s, s ∈ activeSourcesRef st' ->
                s ∈ activeSourcesRef st
                \/ (length (nodes st) <= s < length (nodes st'))%nat)).
Proof.
  intros Hans. split.
  - intros st. unfold readLoop.
    destruct (doc st) as [d|] eqn:Ed; [|eauto].
    destruct (audioContextRef st); [|eauto].
    apply pageLoop_total; [exact Hans|].
    unfold pagesOf. rewrite Ed. lia.
  - intros st d Hquiet Hd Hctx Href Hflag. cbv zeta.
    unfold readLoop. rewrite Hd, Hctx.
    destruct (pageLoop_ledger env snapshot
                (drop (currentPage snapshot) (pages d)) Hquiet Hans
                (length (pages d) - currentPage snapshot)
                (currentPage snapshot) (currentBlockIndex snapshot) st)
      as (st' & E & H1 & H2 & H3 & H4).
    + unfold pagesOf. now rewrite Hd.
    + rewrite length_drop. lia.
    + exact Href.
    + exact Hflag.
    + exists st'. auto.
Qed.

(** Three blocks, of which the second cannot be synthesized: the
    run is fulfilled with one console entry and two sources, the
    second of them scheduled right behind the first. *)
Lemma block_failure_contained_witness :
  cleanup_answers Samples.second_block_fails
  /\ nobody_stops Samples.second_block_fails
  /\ exists st',
       readLoop Samples.second_block_fails Samples.kore
         (Samples.playing Samples.three_block_doc) = Fulfilled st'
       /\ console st'
          = [(JsString.lit "Audio block failed", JsString.lit "429")]
       /\ map startTime (nodes st') = [Some 3; Some (3 + 2 / 24000)]
       /\ isPlaying (ttsState st') = false.
Proof.
  assert (Hans : cleanup_answers Samples.second_block_fails).
  { intros pIdx raw e. discriminate. }
  assert (Hquiet : nobody_stops Samples.second_block_fails).
  { intros pIdx bIdx. simpl. split; [tauto|]. split; [|tauto].
    destruct bIdx as [|[|[|bIdx]]]; simpl; intuition discriminate. }
  split; [exact Hans|]. split; [exact Hquiet|].
  destruct (proj2 (block_failure_contained Samples.second_block_fails
                     Samples.kore Hans)
              (Samples.playing Samples.three_block_doc) Samples.three_block_doc
              Hquiet eq_refl eq_refl eq_refl eq_refl)
    as (st' & E & Hled & Htts & _).
  exists st'. split; [exact E|].
  assert (E' : readLoop Samples.second_block_fails Samples.kore
                 (Samples.playing Samples.three_block_doc) = Fulfilled st')
    by exact E.
  set (run := readLoop _ _ _) in E'. vm_compute in run. subst run.
  injection E' as <-.
  split; [vm_compute; reflexivity|].
  split; [vm_compute; reflexivity|]. now rewrite Htts.
Defined.

(** *** [readLoop]: a stop request while the speech request is pending *)

(** Once the audio buffer is there, the source is started and tracked
    whatever the play flag says. *)
Lemma startSource_ignores_play_flag
    (snapshot : TTSState) (audioBuffer : AudioBuffer) (now : Q) (st : State) :
  exists n,
    nodes (startSource snapshot audioBuffer now st) = nodes st ++ [n]
    /\ startTime n = Some (Qmax (nextStartTimeRef st) now)
    /\ audible n = true
    /\ length (nodes st) ∈ activeSourcesRef (startSource snapshot audioBuffer now st).
Proof.
  eexists. split; [reflexivity|]. split; [reflexivity|]. split; [reflexivity|].
  simpl. set_solver.
Qed.

(** C6, on the code.  A one-block document is being played and the user
    asks to stop while the speech request is pending.  The request is
    served: the play flag is cleared, committed to [isPlayingRef], and
    nothing is tracked.  When the audio arrives the loop nevertheless
    starts a new source at the clock time 3 and tracks it, without
    reading the flag again. *)
Theorem readLoop_starts_source_after_stop :
  let env := Samples.stop_while_synthesizing in
  let st := Samples.playing Samples.one_block_doc in
  let stopped_state :=
    suspended (speech_events (block_env env 0 0))
      (setTtsState (with_cursor 0 0)
         (setCurrentText (content Samples.hello) st)) in
  isPlayingRef st = true
  /\ isPlayingRef stopped_state = false
  /\ isPlaying (ttsState stopped_state) = false
  /\ nodes stopped_state = []
  /\ elements (activeSourcesRef stopped_state) = []
  /\ exists st' n,
       readLoop env Samples.kore st = Fulfilled st'
       /\ nodes st' = [n]
       /\ startTime n = Some 3
       /\ audible n = true
       /\ elements (activeSourcesRef st') = [0%nat].
Proof.
  cbv zeta. repeat (split; [vm_compute; reflexivity|]).
  set (run := readLoop _ _ _). vm_compute in run. subst run.
  eexists _, _. split; [reflexivity|].
  repeat (split; [vm_compute; reflexivity|]). vm_compute; reflexivity.
Qed.

(** *** [readLoop]: a rejected clean-up request *)

(** The rejection of the clean-up request leaves the [if] by an
    exception; the document is as it was. *)
Lemma ensureBlocks_rejection (env : Env) (pIdx : nat) (page : PageContent)
    (st : State) (e : JsString.t) :
  blocks page = [] ->
  cleanup_reply (page_env env pIdx) (rawText page) = Rejected e ->
  exists st', ensureBlocks env pIdx page st = Throw e st' /\ doc st' = doc st.
Proof.
  intros Hb He. unfold ensureBlocks. rewrite Hb, He. simpl.
  eexists. split; [reflexivity|]. now rewrite doc_suspended.
Qed.

(** C7, on the code.  The page of a one-page document has no block yet
    and the clean-up request is rejected.  [readLoop] throws the
    error: the page keeps an empty block list (the raw text is not
    used), no audio is scheduled and the play flag stays set. *)
Theorem readLoop_cleanup_rejection_propagates :
  let env := Samples.cleanup_unavailable in
  let st := Samples.playing Samples.raw_doc in
  exists st',
    readLoop env Samples.kore st = Threw (JsString.lit "503") st'
    /\ blocksAt 0 st' = []
    /\ nodes st' = []
    /\ isPlaying (ttsState st') = true.
Proof.
  cbv zeta.
  set (run := readLoop _ _ _). vm_compute in run. subst run.
  eexists. split; [reflexivity|].
  repeat (split; [vm_compute; reflexivity|]). vm_compute; reflexivity.
Qed.

End Playback.

(** ** Further properties of the layout engine *)

Module LayoutFacts.

Import JsString Layout Spec Derived.

(** *** Sorting twice *)

Lemma array_sort_sorted_id {A : Type} (compareFn : A -> A -> Q) (l : list A) :
  StronglySorted (fun u v => compareFn u v <= 0) l ->
  array_sort compareFn l = l.
Proof.
  induction 1 as [|a l Hs IH Hall]; simpl; [reflexivity|].
  rewrite IH. destruct l as [|b l]; [reflexivity|]. simpl.
  apply Forall_inv in Hall. apply Qle_bool_iff in Hall. now rewrite Hall.
Qed.

Lemma readingCompare_sorted (l : list TextItem) :
  StronglySorted (fun u v => readingCompare u v <= 0)
    (array_sort readingCompare l).
Proof.
  apply array_sort_sorted.
  - auto.
  - intros u v H. apply ReadingOrder.readingCompare_le.
    apply ReadingOrder.reading_le_total.
    now rewrite <- ReadingOrder.readingCompare_le.
  - intros u v t. rewrite !ReadingOrder.readingCompare_le.
    apply ReadingOrder.reading_le_trans.
Qed.

Lemma positionCompare_total (u v : TextItem) :
  ~ positionCompare u v <= 0 -> positionCompare v u <= 0.
Proof.
  intros H. apply Clusterer.positionCompare_le, Clusterer.position_le_total.
  now rewrite <- Clusterer.positionCompare_le.
Qed.

Lemma positionCompare_trans (u v t : TextItem) :
  positionCompare u v <= 0 -> positionCompare v t <= 0 ->
  positionCompare u t <= 0.
Proof.
  rewrite !Clusterer.positionCompare_le. apply Clusterer.position_le_trans.
Qed.

Lemma positionCompare_sorted (l : list TextItem) :
  StronglySorted (fun u v => positionCompare u v <= 0)
    (array_sort positionCompare l).
Proof.
  apply array_sort_sorted.
  - auto.
  - apply positionCompare_total.
  - apply positionCompare_trans.
Qed.

(** Both sorts are idempotent: a list in reading order is left as it
    is by [determineReadingOrder], and so is a list in position order
    by the clusterer's re-sort. *)
Theorem sorting_twice (items : list TextItem) :
  determineReadingOrder (determineReadingOrder items)
  = determineReadingOrder items
  /\ sortedItems (sortedItems items) = sortedItems items.
Proof.
  split.
  - apply array_sort_sorted_id, readingCompare_sorted.
  - apply array_sort_sorted_id, positionCompare_sorted.
Qed.

(** *** The reading-order pass before the clusterer *)

(** Fragments that the position comparator cannot tell apart sit at
    the same place, so the reading comparator cannot tell them apart
    either. *)
Lemma position_tie_reading (a u v : TextItem) :
  sort_tie positionCompare a u = true ->
  sort_tie positionCompare a v = true ->
  readingCompare u v <= 0.
Proof.
  unfold sort_tie. intros Hu Hv.
  apply andb_prop in Hu as [Hu1 Hu2]. apply andb_prop in Hv as [Hv1 Hv2].
  apply Qle_bool_iff, Clusterer.positionCompare_le in Hu1, Hu2, Hv1, Hv2.
  unfold position_le in *.
  assert (Hyu : y (box a) == y (box u)) by (destruct Hu1, Hu2; lra).
  assert (Hxu : x (box a) == x (box u)) by (destruct Hu1, Hu2; lra).
  assert (Hyv : y (box a) == y (box v)) by (destruct Hv1, Hv2; lra).
  assert (Hxv : x (box a) == x (box v)) by (destruct Hv1, Hv2; lra).
  apply ReadingOrder.readingCompare_le. right. split.
  - unfold band_index. apply Qfloor_comp, DoubleFacts.nearest_comp.
    rewrite <- Hyu, <- Hyv. reflexivity.
  - lra.
Qed.

Lemma sortedItems_after_reading_order (items : list TextItem) :
  sortedItems (determineReadingOrder items) = sortedItems items.
Proof.
  unfold sortedItems, determineReadingOrder.
  apply array_sort_unique.
  - apply positionCompare_total.
  - apply positionCompare_trans.
  - rewrite <- array_sort_perm. apply array_sort_perm.
  - apply positionCompare_sorted.
  - intros a.
    rewrite array_sort_stable.
    + apply array_sort_stable. apply position_tie_reading.
    + intros u v Hu Hv. unfold sort_tie in Hu, Hv.
      apply andb_prop in Hu as [_ Hu]. apply andb_prop in Hv as [Hv _].
      apply Qle_bool_iff in Hu, Hv. eapply positionCompare_trans; eassumption.
Qed.

(** Running [determineReadingOrder] on the fragments before
    [clusterTextItems], as [parsePdf] does, does not change the
    blocks: the clusterer's own re-sort decides the order. *)
Theorem clusterTextItems_after_reading_order
    (items : list TextItem) (pageWidth pageHeight : Q) :
  clusterTextItems (determineReadingOrder items) pageWidth pageHeight
  = clusterTextItems items pageWidth pageHeight.
Proof.
  rewrite !Clusterer.clusterTextItems_blocks. unfold clusterBlocks.
  now rewrite sortedItems_after_reading_order.
Qed.

(** *** The number of blocks *)

Lemma count_gaps_snoc (pageWidth : Q) (p : list TextItem) (c : TextItem) :
  count_gaps pageWidth (p ++ [c])
  = (count_gaps pageWidth p
     + match last p with
       | Some q => if farApart pageWidth (box q) c then 1 else 0
       | None => 0
       end)%nat.
Proof.
  induction p as [|a p IH]; [reflexivity|].
  destruct p as [|b p].
  - simpl. lia.
  - change (count_gaps pageWidth ((a :: b :: p) ++ [c]))
      with ((if farApart pageWidth (box a) b then 1 else 0)
            + count_gaps pageWidth ((b :: p) ++ [c]))%nat.
    rewrite IH, last_cons_cons.
    change (count_gaps pageWidth (a :: b :: p))
      with ((if farApart pageWidth (box a) b then 1 else 0)
            + count_gaps pageWidth (b :: p))%nat.
    lia.
Qed.

Lemma count_gaps_lt (pageWidth : Q) (a : TextItem) (l : list TextItem) :
  (count_gaps pageWidth (a :: l) <= length l)%nat.
Proof.
  revert a. induction l as [|b l IH]; intros a; [simpl; lia|].
  change (count_gaps pageWidth (a :: b :: l))
    with ((if farApart pageWidth (box a) b then 1 else 0)
          + count_gaps pageWidth (b :: l))%nat.
  specialize (IH b). simpl length.
  destruct (farApart pageWidth (box a) b); lia.
Qed.

Lemma walk_closed_blocks (pageWidth : Q) (a : TextItem) (l : list TextItem) :
  length (wblocks (fold_left (walk_step pageWidth) (a :: l) walk_init))
  = count_gaps pageWidth (a :: l).
Proof.
  induction l as [|c l IH] using rev_ind; [reflexivity|].
  rewrite app_comm_cons, fold_left_app, count_gaps_snoc, <- IH.
  destruct (Clusterer.walk_inv_fold pageWidth a l) as (_ & Hlast & _).
  set (st := fold_left (walk_step pageWidth) (a :: l) walk_init) in *.
  cbn [fold_left]. unfold walk_step. rewrite Hlast.
  destruct (last (a :: l)) as [q|] eqn:Eq.
  - simpl. destruct (farApart pageWidth (box q) c); simpl.
    + rewrite length_app. simpl. lia.
    + lia.
  - apply last_None in Eq. discriminate.
Qed.

Lemma sortedItems_cons (items : list TextItem) :
  items <> [] ->
  exists a l, sortedItems items = a :: l /\ length items = S (length l).
Proof.
  intros Hne.
  pose proof (array_sort_length positionCompare items) as Hlen.
  fold (sortedItems items) in Hlen.
  destruct (sortedItems items) as [|a l].
  - destruct items; [congruence|discriminate].
  - exists a, l. split; [reflexivity|]. now rewrite <- Hlen.
Qed.

(** A non-empty page yields one block more than there are places
    where the split test fires between fragments adjacent after the
    re-sort: at least one block, and never more blocks than
    fragments. *)
Theorem clusterTextItems_block_count
    (items : list TextItem) (pageWidth pageHeight : Q) :
  items <> [] ->
  length (clusterTextItems items pageWidth pageHeight)
  = S (count_gaps pageWidth (sortedItems items))
  /\ (1 <= length (clusterTextItems items pageWidth pageHeight)
         <= length items)%nat.
Proof.
  intros Hne.
  rewrite Clusterer.clusterTextItems_blocks, length_map.
  destruct (Clusterer.clusterBlocks_walk items pageWidth Hne) as [-> _].
  rewrite length_app. simpl length.
  destruct (sortedItems_cons items Hne) as (a & l & -> & ->).
  rewrite walk_closed_blocks.
  pose proof (count_gaps_lt pageWidth a l). lia.
Qed.

Lemma clusterTextItems_at_most (items : list TextItem) (pageWidth pageHeight : Q) :
  (length (clusterTextItems items pageWidth pageHeight) <= length items)%nat
  /\ (clusterTextItems items pageWidth pageHeight = [] <-> items = []).
Proof.
  destruct items as [|a0 items]; [split; [simpl; lia|tauto]|].
  assert (Hne : a0 :: items <> []) by discriminate.
  rewrite Clusterer.clusterTextItems_blocks.
  destruct (Clusterer.clusterBlocks_walk (a0 :: items) pageWidth Hne) as [-> _].
  destruct (sortedItems_cons (a0 :: items) Hne) as (a & l & -> & ->).
  rewrite length_map, length_app, walk_closed_blocks. simpl length.
  pose proof (count_gaps_lt pageWidth a l) as Hgaps. split; [lia|].
  split; [|discriminate].
  intros Hnil. apply (f_equal (@length _)) in Hnil.
  rewrite length_map, length_app in Hnil. simpl in Hnil. lia.
Qed.

Lemma clusterTextItems_block_count_witness :
  Samples.two_columns <> []
  /\ length (clusterTextItems Samples.two_columns 400 600) = 3%nat.
Proof.
  assert (H : Samples.two_columns <> []) by discriminate.
  split; [exact H|].
  exact (proj1 (clusterTextItems_block_count Samples.two_columns 400 600 H)).
Defined.

(** *** What normalization keeps *)

Lemma ink_app (s1 s2 : JsString.t) : ink (s1 ++ s2) = ink s1 ++ ink s2.
Proof. apply List.filter_app. Qed.

Lemma ink_whitespace (s : JsString.t) :
  Forall (fun c => is_whitespace c = true) s <-> ink s = [].
Proof.
  induction s as [|c s IH]; simpl.
  - split; [reflexivity|constructor].
  - destruct (is_whitespace c) eqn:Ec; simpl.
    + rewrite <- IH. split; [now inversion 1|now constructor].
    + split; [|discriminate]. inversion 1; congruence.
Qed.

Lemma ink_replace_ws_from (s : JsString.t) (in_run : bool) :
  ink (replace_ws_from in_run s) = ink s.
Proof.
  revert in_run. induction s as [|c s IH]; intros in_run; simpl; [reflexivity|].
  destruct (is_whitespace c) eqn:Ec; simpl.
  - destruct in_run; simpl; apply IH.
  - rewrite Ec. simpl. now rewrite IH.
Qed.

Lemma ink_trim (s : JsString.t) : ink (trim s) = ink s.
Proof.
  unfold trim.
  destruct (Normalization.trimStart_dropped s) as (pre & Hpre & Hws).
  destruct (Normalization.trimEnd_dropped (trimStart s)) as (post & Hpost & Hws').
  rewrite Hpre at 2. rewrite Hpost at 2.
  rewrite !ink_app.
  rewrite (proj1 (ink_whitespace pre) Hws), (proj1 (ink_whitespace post) Hws').
  now rewrite app_nil_r.
Qed.

Lemma ink_join (b : list JsString.t) :
  ink (join [space] b) = concat (map ink b).
Proof.
  induction b as [|t b IH]; [reflexivity|].
  destruct b as [|t' b].
  - simpl. now rewrite app_nil_r.
  - change (join [space] (t :: t' :: b))
      with (t ++ [space] ++ join [space] (t' :: b)).
    rewrite !ink_app, IH. reflexivity.
Qed.

(** The text of a block holds the non-whitespace code units of its
    fragments, all of them and in their order; it is the empty string
    exactly when the fragments hold nothing but whitespace. *)
Theorem blockText_keeps_ink (b : list JsString.t) :
  ink (blockText b) = concat (map ink b)
  /\ (blockText b = []
      <-> Forall (Forall (fun c => is_whitespace c = true)) b).
Proof.
  assert (E : ink (blockText b) = concat (map ink b)).
  { unfold blockText, replace_ws.
    now rewrite ink_trim, ink_replace_ws_from, ink_join. }
  split; [exact E|].
  assert (Hall : Forall (Forall (fun c => is_whitespace c = true)) b
                 <-> concat (map ink b) = []).
  { clear E. induction b as [|t b IH]; simpl.
    - split; [reflexivity|constructor].
    - split.
      + inversion 1; subst.
        rewrite (proj1 (ink_whitespace t)) by assumption. now apply IH.
      + intros H. apply app_eq_nil in H as [H1 H2].
        constructor; [now apply ink_whitespace|now apply IH]. }
  rewrite Hall, <- E. split.
  - now intros ->.
  - destruct (blockText b) as [|c r] eqn:Eb; [reflexivity|].
    destruct (Normalization.blockText_clean b) as (_ & Hhead & _).
    rewrite Eb in Hhead. simpl. rewrite (Hhead c eq_refl). discriminate.
Qed.

(** Normalizing a block text again changes nothing. *)
Theorem blockText_idempotent (b : list JsString.t) :
  blockText [blockText b] = blockText b.
Proof.
  rewrite (Normalization.blockText_words [blockText b]).
  change (join [space] [blockText b]) with (blockText b).
  destruct (Normalization.blockText_clean b) as (Hadj & Hhead & Hlast).
  apply Normalization.join_words_clean; try assumption.
  unfold blockText. apply Normalization.trim_spaces,
    Normalization.replace_ws_from_spaces.
Qed.

End LayoutFacts.

(** ** Further properties of the audio services *)

Module AudioFacts.

Import Gemini Builtins.

Lemma list_pair_ind {A : Type} (P : list A -> Prop) :
  P [] -> (forall a, P [a]) -> (forall a b l, P l -> P (a :: b :: l)) ->
  forall l, P l.
Proof.
  intros H0 H1 H2. fix IH 1. intros [|a [|b l]].
  - exact H0.
  - apply H1.
  - apply H2, IH.
Qed.

Lemma int16_of_bytes_range (lo hi : N) :
  (lo < 256)%N -> (hi < 256)%N ->
  (-32768 <= int16_of_bytes lo hi <= 32767)%Z.
Proof.
  intros Hlo Hhi. unfold int16_of_bytes.
  destruct (Z.ltb_spec (Z.of_N lo + 256 * Z.of_N hi) 32768); lia.
Qed.

(** The 16-bit view exists exactly for an even number of bytes; it
    holds half as many samples, each a signed 16-bit integer. *)
Lemma int16_view_spec (data : list N) :
  match int16_view data with
  | None => Nat.odd (length data) = true
  | Some l =>
      Nat.even (length data) = true
      /\ length data = (2 * length l)%nat
      /\ (Forall (fun b => (b < 256)%N) data ->
          Forall (fun z => (-32768 <= z <= 32767)%Z) l)
  end.
Proof.
  induction data as [| a | a b data IH] using list_pair_ind.
  - simpl. repeat split. constructor.
  - reflexivity.
  - change (int16_view (a :: b :: data))
      with (match int16_view data with
            | Some l => Some (int16_of_bytes a b :: l)
            | None => None
            end).
    change (length (a :: b :: data)) with (S (S (length data))).
    destruct (int16_view data) as [l|].
    + destruct IH as (He & Hl & Hr). split; [exact He|]. split; [simpl; lia|].
      intros Hb. inversion Hb as [|? ? Ha Hb']; subst.
      inversion Hb' as [|? ? Hb0 Hd]; subst.
      constructor; [now apply int16_of_bytes_range|auto].
    + rewrite Nat.odd_succ, Nat.even_succ. exact IH.
Qed.

Lemma sample_range (z : Z) :
  (-32768 <= z <= 32767)%Z ->
  -1 <= inject_Z z / 32768 /\ inject_Z z / 32768 < 1.
Proof.
  intros Hz. unfold Qle, Qlt, Qdiv, Qmult, Qinv, inject_Z. simpl. lia.
Qed.

Lemma channel_samples_spec (dataInt16 : list Z) (numChannels frameCount channel : nat) :
  Forall (fun z => (-32768 <= z <= 32767)%Z) dataInt16 ->
  length (channel_samples dataInt16 numChannels frameCount channel) = frameCount
  /\ Forall (fun v => -1 <= v /\ v < 1)
       (channel_samples dataInt16 numChannels frameCount channel).
Proof.
  intros Hr. unfold channel_samples. split.
  - now rewrite length_map, length_seq.
  - apply List.Forall_forall. intros v Hv.
    apply in_map_iff in Hv as (i & <- & _). apply sample_range.
    destruct (nth_in_or_default (i * numChannels + channel) dataInt16 0%Z) as [H | ->].
    + now apply (proj1 (List.Forall_forall _ _) Hr).
    + lia.
Qed.

Lemma ToUint32_small (n : nat) : (Z.of_nat n < 2 ^ 32)%Z -> ToUint32 n = n.
Proof.
  intros H. unfold ToUint32. rewrite Z.mod_small by lia. apply Nat2Z.id.
Qed.

(** What a buffer returned by [decodeAudioData] looks like. *)
Lemma decodeAudioData_resolved (data : Uint8Array) (buf : AudioBuffer) :
  Forall (fun b => (b < 256)%N) (arrayBuffer data) ->
  decodeAudioData data = Resolved buf ->
  let frames := ToUint32 (length (arrayBuffer data) / 2) in
  Nat.even (length (arrayBuffer data)) = true
  /\ (0 < frames)%nat
  /\ numberOfChannels buf = 1%nat
  /\ sampleRate buf = 24000
  /\ length (channelData buf) = 1%nat
  /\ Forall (fun ch => length ch = frames
                      /\ Forall (fun v => -1 <= v /\ v < 1) ch)
       (channelData buf)
  /\ duration buf == inject_Z (Z.of_nat frames) / 24000
  /\ 0 < duration buf.
Proof.
  intros Hbytes. unfold decodeAudioData.
  pose proof (int16_view_spec (arrayBuffer data)) as Hview.
  destruct (int16_view (arrayBuffer data)) as [dataInt16|]; [|discriminate].
  destruct Hview as (Heven & Hlen & Hrange). specialize (Hrange Hbytes).
  assert (Ehalf : (length (arrayBuffer data) / 2)%nat = length dataInt16).
  { rewrite Hlen, Nat.mul_comm. now apply Nat.div_mul. }
  cbv zeta. rewrite Ehalf. unfold default_numChannels. rewrite Nat.div_1_r.
  destruct (Nat.eqb_spec (ToUint32 (length dataInt16)) 0) as [E0|Hfc].
  { discriminate. }
  intros [= <-]. cbn [numberOfChannels sampleRate channelData duration].
  split; [exact Heven|]. split; [lia|]. split; [reflexivity|].
  split; [reflexivity|]. split; [reflexivity|]. split; [|split].
  - constructor; [|constructor]. now apply channel_samples_spec.
  - reflexivity.
  - unfold Qdiv. apply Qmult_lt_0_compat; [|reflexivity].
    unfold Qlt, inject_Z. simpl. lia.
Qed.

(** [decodeAudioData(data, ctx)] decodes the whole buffer behind
    [data], not the window that [data] is: the offset and the length
    of the array do not matter.  It fails exactly when that buffer
    holds an odd number of bytes or no frame (a frame count that is
    zero as an [unsigned long]).  Otherwise the audio buffer has one
    channel of as many samples as the buffer holds 16-bit frames,
    every sample lies in [[-1, 1)], the rate is 24000 and the
    duration is the frame count over the rate, a positive number. *)
Theorem decodeAudioData_outcome (data : Uint8Array) :
  Forall (fun b => (b < 256)%N) (arrayBuffer data) ->
  let frames := ToUint32 (length (arrayBuffer data) / 2) in
  (forall offset len,
      decodeAudioData (mkUint8Array (arrayBuffer data) offset len)
      = decodeAudioData data)
  /\ match decodeAudioData data with
     | Rejected _ =>
         Nat.odd (length (arrayBuffer data)) = true \/ frames = 0%nat
     | Resolved buf =>
         Nat.even (length (arrayBuffer data)) = true
         /\ (0 < frames)%nat
         /\ numberOfChannels buf = 1%nat
         /\ sampleRate buf = 24000
         /\ length (channelData buf) = 1%nat
         /\ Forall (fun ch => length ch = frames
                             /\ Forall (fun v => -1 <= v /\ v < 1) ch)
              (channelData buf)
         /\ duration buf == inject_Z (Z.of_nat frames) / 24000
         /\ 0 < duration buf
     end.
Proof.
  intros Hbytes. cbv zeta. split; [reflexivity|].
  destruct (decodeAudioData data) as [buf|e] eqn:E.
  - exact (decodeAudioData_resolved data buf Hbytes E).
  - unfold decodeAudioData in E.
    pose proof (int16_view_spec (arrayBuffer data)) as Hview.
    destruct (int16_view (arrayBuffer data)) as [dataInt16|]; [|now left].
    destruct Hview as (_ & Hlen & _).
    assert (Ehalf : (length (arrayBuffer data) / 2)%nat = length dataInt16).
    { rewrite Hlen, Nat.mul_comm. now apply Nat.div_mul. }
    rewrite Ehalf. right. cbv zeta in E.
    unfold default_numChannels in E. rewrite Nat.div_1_r in E.
    destruct (Nat.eqb_spec (ToUint32 (length dataInt16)) 0) as [E0|Hfc];
      [exact E0|discriminate].
Qed.

(** The last two bytes of a buffer of four, seen through an array of
    length two: both frames of the buffer are decoded. *)
Lemma decodeAudioData_outcome_witness :
  Forall (fun b => (b < 256)%N) [0; 128; 255; 127]%N
  /\ decodeAudioData (mkUint8Array [0; 128; 255; 127]%N 2 2)
     = decodeAudioData (Uint8Array_of [0; 128; 255; 127]%N)
  /\ match decodeAudioData (Uint8Array_of [0; 128; 255; 127]%N) with
     | Rejected _ => False
     | Resolved buf => duration buf == 2 / 24000
     end.
Proof.
  assert (Hb : Forall (fun b => (b < 256)%N) [0; 128; 255; 127]%N).
  { repeat constructor. }
  split; [exact Hb|].
  pose proof (decodeAudioData_outcome (Uint8Array_of [0; 128; 255; 127]%N) Hb)
    as [Hwin H].
  split; [exact (Hwin 2%nat 2%nat)|].
  destruct (decodeAudioData (Uint8Array_of [0; 128; 255; 127]%N)) as [buf|e].
  - exact (proj1 (proj2 (proj2 (proj2 (proj2 (proj2 (proj2 H))))))).
  - destruct H as [H|H]; discriminate.
Defined.

(** *** From the speech reply to the audio buffer *)

Lemma base64_digit_range (c d : N) : base64_digit c = Some d -> (d < 64)%N.
Proof.
  unfold base64_digit.
  repeat match goal with
         | |- context [if ?b then _ else _] => destruct b eqn:?
         end; intros [= <-]; try discriminate.
  - apply andb_prop in Heqb as [H1 H2].
    apply N.leb_le in H1, H2. lia.
  - apply andb_prop in Heqb0 as [H1 H2].
    apply N.leb_le in H1, H2. lia.
  - apply andb_prop in Heqb1 as [H1 H2].
    apply N.leb_le in H1, H2. lia.
  - lia.
  - lia.
Qed.

Lemma base64_digits_range (s : JsString.t) (ds : list N) :
  base64_digits s = Some ds -> Forall (fun d => (d < 64)%N) ds.
Proof.
  revert ds. induction s as [|c s IH]; simpl; intros ds.
  - intros [= <-]. constructor.
  - destruct (base64_digit c) as [d|] eqn:Ed; [|discriminate].
    destruct (base64_digits s) as [ds'|]; [|discriminate].
    intros [= <-]. constructor; [eapply base64_digit_range; eassumption|auto].
Qed.

Lemma base64_bytes_range (ds : list N) :
  Forall (fun d => (d < 64)%N) ds ->
  Forall (fun b => (b < 256)%N) (base64_bytes ds).
Proof.
  revert ds. fix IH 1. intros [|a [|b [|c [|d rest]]]] H.
  - constructor.
  - constructor.
  - inversion H as [|? ? Ha H1]; subst. inversion H1 as [|? ? Hb H2]; subst.
    simpl. constructor; [|constructor].
    apply N.Div0.div_lt_upper_bound. lia.
  - inversion H as [|? ? Ha H1]; subst. inversion H1 as [|? ? Hb H2]; subst.
    inversion H2 as [|? ? Hc H3]; subst.
    simpl. constructor; [|constructor; [|constructor]].
    + apply N.Div0.div_lt_upper_bound.
      apply N.Div0.div_lt_upper_bound. lia.
    + now apply N.mod_lt.
  - inversion H as [|? ? Ha H1]; subst. inversion H1 as [|? ? Hb H2]; subst.
    inversion H2 as [|? ? Hc H3]; subst. inversion H3 as [|? ? Hd H4]; subst.
    change (base64_bytes (a :: b :: c :: d :: rest))
      with (let n := (a * 262144 + b * 4096 + c * 64 + d)%N in
            (n / 65536)%N :: ((n / 256) mod 256)%N :: (n mod 256)%N
              :: base64_bytes rest).
    cbv zeta. constructor; [|constructor; [|constructor]].
    + apply N.Div0.div_lt_upper_bound. lia.
    + now apply N.mod_lt.
    + now apply N.mod_lt.
    + apply IH, H4.
Qed.

Lemma atob_range (s bytes : JsString.t) :
  atob s = Resolved bytes -> Forall (fun b => (b < 256)%N) bytes.
Proof.
  unfold atob. destruct (_ =? 1)%nat; [discriminate|].
  destruct (base64_digits _) as [ds|] eqn:E; [|discriminate].
  intros [= <-]. eapply base64_bytes_range, base64_digits_range, E.
Qed.

Lemma generateSpeech_range
    (reply : outcome (option JsString.t)) (audioBytes : Uint8Array) :
  generateSpeech reply = Resolved audioBytes ->
  Forall (fun b => (b < 256)%N) (arrayBuffer audioBytes)
  /\ audioBytes = Uint8Array_of (arrayBuffer audioBytes).
Proof.
  unfold generateSpeech, decode. intros Hspeech.
  destruct reply as [[[|c t]|]|e]; try discriminate.
  destruct (atob (c :: t)) as [binaryString|e] eqn:E; [|discriminate].
  injection Hspeech as <-. split; [|reflexivity].
  eapply atob_range. exact E.
Qed.

(** Whatever the speech service replies: when [generateSpeech]
    resolves, its result is an array with a buffer of its own whose
    bytes are below 256, and when [decodeAudioData] then accepts it,
    the buffer lasts a positive time and all its samples lie in
    [[-1, 1)].  A reply without payload, or with an empty one, is
    rejected. *)
Theorem speech_to_buffer (reply : outcome (option JsString.t)) :
  (reply = Resolved None \/ reply = Resolved (Some []) ->
   generateSpeech reply = Rejected (JsString.lit "No audio generated"))
  /\ (forall audioBytes,
        generateSpeech reply = Resolved audioBytes ->
        Forall (fun b => (b < 256)%N) (arrayBuffer audioBytes)
        /\ audioBytes = Uint8Array_of (arrayBuffer audioBytes)
        /\ forall audioBuffer,
             decodeAudioData audioBytes = Resolved audioBuffer ->
             0 < duration audioBuffer
             /\ Forall (Forall (fun v => -1 <= v /\ v < 1))
                  (channelData audioBuffer)).
Proof.
  split.
  - intros [-> | ->]; reflexivity.
  - intros audioBytes Hspeech.
    destruct (generateSpeech_range reply audioBytes Hspeech) as [Hbytes Hown].
    split; [exact Hbytes|]. split; [exact Hown|]. intros audioBuffer Hdecode.
    destruct (decodeAudioData_resolved audioBytes audioBuffer Hbytes Hdecode)
      as (_ & _ & _ & _ & _ & Hch & _ & Hdur).
    split; [exact Hdur|].
    apply List.Forall_forall. intros ch Hin.
    now apply (proj1 (List.Forall_forall _ _) Hch) in Hin.
Qed.

Lemma speech_to_buffer_witness :
  generateSpeech (Resolved (Some Samples.silence))
  = Resolved (Uint8Array_of [0; 0; 0; 0]%N)
  /\ Forall (fun b => (b < 256)%N) [0; 0; 0; 0]%N.
Proof.
  assert (Hs : generateSpeech (Resolved (Some Samples.silence))
               = Resolved (Uint8Array_of [0; 0; 0; 0]%N)) by reflexivity.
  split; [exact Hs|].
  exact (proj1 (proj2 (speech_to_buffer (Resolved (Some Samples.silence)))
                  _ Hs)).
Defined.

End AudioFacts.

(** ** Further properties of playback *)

Module PlaybackFacts.

Import App Spec Derived.

(** *** The tracked sources and the timeline *)

Lemma timeline_ok_same (st st' : State) :
  nodes st' = nodes st ->
  activeSourcesRef st' = activeSourcesRef st ->
  nextStartTimeRef st' = nextStartTimeRef st ->
  timeline_ok st -> timeline_ok st'.
Proof. unfold timeline_ok. intros -> -> ->. auto. Qed.

Lemma timeline_ok_stopPlayback (st : State) : timeline_ok (stopPlayback st).
Proof. intros s Hs. simpl in Hs. set_solver. Qed.

Lemma timeline_ok_handle (e : Event) (st : State) :
  timeline_ok st -> timeline_ok (handle e st).
Proof.
  destruct e as [|s0]; [intros _; apply timeline_ok_stopPlayback|].
  intros Hok s Hs. simpl in Hs.
  apply elem_of_difference in Hs as [Hs Hne].
  destruct (Hok s Hs) as (n & t & Hn & Ht & Hend).
  exists n, t. split; [|now split].
  simpl. unfold mark_ended. destruct (nodes st !! s0); [|exact Hn].
  rewrite list_lookup_insert_ne; [exact Hn|set_solver].
Qed.

Lemma timeline_ok_suspended (events : list Event) (st : State) :
  timeline_ok st -> timeline_ok (suspended events st).
Proof.
  unfold suspended. intros Hok.
  assert (H : timeline_ok (render st)) by exact Hok.
  revert H. generalize (render st). clear Hok.
  induction events as [|e events IH]; intros st0 H0; simpl; [exact H0|].
  apply IH. exact (timeline_ok_handle e st0 H0).
Qed.

Lemma timeline_ok_startSource
    (snapshot : TTSState) (audioBuffer : AudioBuffer) (now : Q) (st : State) :
  0 <= duration audioBuffer / speed snapshot ->
  timeline_ok st ->
  timeline_ok (startSource snapshot audioBuffer now st).
Proof.
  intros Hd Hok s Hs. simpl in Hs |- *.
  pose proof (Q.le_max_l (nextStartTimeRef st) now) as Hmax.
  apply elem_of_union in Hs as [Hs|Hs].
  - apply elem_of_singleton in Hs. subst s.
    eexists _, _. split; [apply list_lookup_middle; reflexivity|].
    split; [reflexivity|]. simpl. apply Qle_refl.
  - destruct (Hok s Hs) as (n & t & Hn & Ht & Hend).
    exists n, t. split; [now apply lookup_app_l_Some|]. split; [exact Ht|].
    lra.
Qed.

Lemma decoded_duration (reply : outcome (option JsString.t))
    (audioBytes : Builtins.Uint8Array) (audioBuffer : AudioBuffer) :
  Gemini.generateSpeech reply = Resolved audioBytes ->
  Gemini.decodeAudioData audioBytes = Resolved audioBuffer ->
  0 < duration audioBuffer.
Proof.
  intros Hs Hd.
  pose proof (AudioFacts.generateSpeech_range reply audioBytes Hs) as [Hb _].
  now destruct (AudioFacts.decodeAudioData_resolved _ _ Hb Hd)
    as (_ & _ & _ & _ & _ & _ & _ & H).
Qed.

Lemma timeline_ok_speakBlock
    (snapshot : TTSState) (block : TextBlock) (be : BlockEnv) (st : State) :
  0 < speed snapshot ->
  timeline_ok st -> timeline_ok (speakBlock snapshot block be st).
Proof.
  intros Hspeed Hok. unfold speakBlock.
  pose proof (timeline_ok_suspended (speech_events be) st Hok) as Hmid.
  destruct (Gemini.generateSpeech _) as [audioBytes|e] eqn:Es; [|exact Hmid].
  destruct (Gemini.decodeAudioData _) as [audioBuffer|e] eqn:Ed; [|exact Hmid].
  apply timeline_ok_suspended, timeline_ok_startSource; [|exact Hmid].
  apply Timeline.duration_over_speed_nonneg; [|exact Hspeed].
  apply Qlt_le_weak. eapply decoded_duration; eassumption.
Qed.

Lemma timeline_ok_blockLoop
    (env : Env) (snapshot : TTSState) (pIdx fuel bIdx : nat) (st : State) :
  0 < speed snapshot ->
  timeline_ok st ->
  match blockLoop fuel env snapshot pIdx bIdx st with
  | InnerDone st' | InnerReturn st' => timeline_ok st'
  | InnerFuel => True
  end.
Proof.
  intros Hspeed. revert bIdx st.
  induction fuel as [|fuel IH]; intros bIdx st Hok; simpl.
  - destruct (pagesOf st !! pIdx) as [page|]; [|exact Hok].
    destruct (blocks page !! bIdx); [exact I|exact Hok].
  - destruct (pagesOf st !! pIdx) as [page|]; [|exact Hok].
    destruct (blocks page !! bIdx) as [block|]; [|exact Hok].
    destruct (isPlayingRef st); simpl; [|exact Hok].
    apply IH. apply timeline_ok_speakBlock; [exact Hspeed|]. exact Hok.
Qed.

Lemma timeline_ok_set_page_blocks (pIdx : nat) (bs : list TextBlock) (st : State) :
  timeline_ok st -> timeline_ok (set_page_blocks pIdx bs st).
Proof.
  unfold set_page_blocks. destruct (doc st) as [d|]; [|auto].
  destruct (pages d !! pIdx); auto.
Qed.

Lemma timeline_ok_ensureBlocks
    (env : Env) (pIdx : nat) (page : PageContent) (st : State) :
  timeline_ok st ->
  match ensureBlocks env pIdx page st with
  | Continue st' | Throw _ st' => timeline_ok st'
  end.
Proof.
  intros Hok. unfold ensureBlocks. destruct (blocks page); [|exact Hok].
  pose proof (timeline_ok_suspended (cleanup_events (page_env env pIdx))
                (setProcessingStatus (analyzing pIdx) st) Hok) as Hmid.
  destruct (Gemini.processRawLayout _ _); [|exact Hmid].
  exact (timeline_ok_set_page_blocks pIdx _ _ Hmid).
Qed.

(** The inner loop always ends within the fuel [readLoop] gives it. *)
Lemma blockLoop_ends (env : Env) (snapshot : TTSState) (pIdx bIdx : nat)
    (st : State) :
  exists st',
    (blockLoop (length (blocksAt pIdx st) - bIdx) env snapshot pIdx bIdx st
       = InnerDone st'
     \/ blockLoop (length (blocksAt pIdx st) - bIdx) env snapshot pIdx bIdx st
         = InnerReturn st')
    /\ doc st' = doc st.
Proof. apply Playback.blockLoop_total. lia. Qed.

Lemma doc_ensureBlocks_length
    (env : Env) (pIdx : nat) (page : PageContent) (st : State) :
  match ensureBlocks env pIdx page st with
  | Continue st' => length (pagesOf st') = length (pagesOf st)
  | Throw e st' =>
      doc st' = doc st /\ blocks page = []
      /\ cleanup_reply (page_env env pIdx) (rawText page) = Rejected e
  end.
Proof.
  unfold ensureBlocks. destruct (blocks page) eqn:Eb; [|reflexivity].
  destruct (cleanup_reply (page_env env pIdx) (rawText page)) as [r|e] eqn:Er.
  - assert (Hok : exists cleaned,
               Gemini.processRawLayout (Resolved r) (rawText page)
               = Resolved cleaned).
    { destruct r as [[|c t]|]; simpl; eauto. }
    destruct Hok as [cleaned ->].
    change (length (pagesOf (set_page_blocks pIdx [paragraph_of cleaned]
              (suspended (cleanup_events (page_env env pIdx))
                 (setProcessingStatus (analyzing pIdx) st))))
            = length (pagesOf st)).
    rewrite Playback.pages_set_page_blocks. unfold pagesOf.
    now rewrite Playback.doc_suspended.
  - simpl. split; [now rewrite Playback.doc_suspended|]. now split.
Qed.

(** The outer loop ends within [doc.pages.length - pIdx] iterations,
    by its condition, by the [return] of the inner loop, or by the
    error of a clean-up request. *)
Lemma pageLoop_ends
    (env : Env) (snapshot : TTSState) (fuel pIdx bIdx : nat) (st : State) :
  (length (pagesOf st) - pIdx <= fuel)%nat ->
  exists st',
    pageLoop fuel env snapshot pIdx bIdx st = Fulfilled st'
    \/ exists e page p,
         pageLoop fuel env snapshot pIdx bIdx st = Threw e st'
         /\ pagesOf st' !! p = Some page
         /\ blocks page = []
         /\ cleanup_reply (page_env env p) (rawText page) = Rejected e.
Proof.
  revert pIdx bIdx st.
  induction fuel as [|fuel IH]; intros pIdx bIdx st Hfuel; simpl.
  - destruct (pagesOf st !! pIdx) as [page|] eqn:Ep.
    + apply lookup_lt_Some in Ep. lia.
    + eexists. left. reflexivity.
  - destruct (pagesOf st !! pIdx) as [page|] eqn:Ep.
    2:{ eexists. left. reflexivity. }
    pose proof (doc_ensureBlocks_length env pIdx page st) as Hdoc1.
    destruct (ensureBlocks env pIdx page st) as [st1|e st1].
    + destruct (blockLoop_ends env snapshot pIdx bIdx st1)
        as (st2 & [E | E] & Hdoc2); rewrite E.
      * apply IH. unfold pagesOf in *. rewrite Hdoc2. lia.
      * eexists. left. reflexivity.
    + destruct Hdoc1 as (Hdoc & Hb & Hr).
      exists st1. right. exists e, page, pIdx.
      split; [reflexivity|]. unfold pagesOf in *. rewrite Hdoc. auto.
Qed.

Lemma timeline_ok_pageLoop
    (env : Env) (snapshot : TTSState) (fuel pIdx bIdx : nat) (st : State) :
  0 < speed snapshot ->
  timeline_ok st ->
  match pageLoop fuel env snapshot pIdx bIdx st with
  | Fulfilled st' | Threw _ st' => timeline_ok st'
  | OutOfFuel => True
  end.
Proof.
  intros Hspeed. revert pIdx bIdx st.
  induction fuel as [|fuel IH]; intros pIdx bIdx st Hok; simpl.
  - destruct (pagesOf st !! pIdx); [exact I|exact Hok].
  - destruct (pagesOf st !! pIdx) as [page|]; [|exact Hok].
    pose proof (timeline_ok_ensureBlocks env pIdx page st Hok) as Hok1.
    destruct (ensureBlocks env pIdx page st) as [st1|e st1]; [|exact Hok1].
    pose proof (timeline_ok_blockLoop env snapshot pIdx
                  (length (blocksAt pIdx st1) - bIdx) bIdx st1 Hspeed Hok1)
      as Hok2.
    destruct (blockLoop _ _ _ _ _ _) as [st2|st2|]; [|exact Hok2|exact I].
    now apply IH.
Qed.

(** As long as every call that [readLoop] awaits settles (a reply of
    the environment is a value or a rejection; the code sets no
    timeout, and a call that never settles would stall the loop at
    that call), [readLoop] settles: the inner loop ends within
    [page.blocks.length - bIdx] iterations and the outer one within
    [doc.pages.length - pIdx].  It throws only the error of a
    rejected clean-up request, made for a page without blocks; no
    error of the speech service or of the decoder leaves it.  When
    the speed is positive it keeps the tracked set consistent with
    the timeline: every tracked handle is a started source that ends
    no later than [nextStartTimeRef]. *)
Theorem readLoop_settles (env : Env) (snapshot : TTSState) (st : State) :
  (exists st',
      readLoop env snapshot st = Fulfilled st'
      \/ exists e page p,
           readLoop env snapshot st = Threw e st'
           /\ pagesOf st' !! p = Some page
           /\ blocks page = []
           /\ cleanup_reply (page_env env p) (rawText page) = Rejected e)
  /\ (0 < speed snapshot ->
      timeline_ok st ->
      forall st',
        (readLoop env snapshot st = Fulfilled st'
         \/ exists e, readLoop env snapshot st = Threw e st') ->
        timeline_ok st').
Proof.
  unfold readLoop. split.
  - destruct (doc st) as [d|] eqn:Ed; [|eauto].
    destruct (audioContextRef st); [|eauto].
    apply pageLoop_ends. unfold pagesOf. rewrite Ed. lia.
  - intros Hspeed Hok st' Hres.
    destruct (doc st) as [d|] eqn:Ed.
    2:{ destruct Hres as [[= <-]|[e [=]]]. exact Hok. }
    destruct (audioContextRef st).
    2:{ destruct Hres as [[= <-]|[e [=]]]. exact Hok. }
    pose proof (timeline_ok_pageLoop env snapshot
                  (length (pages d) - currentPage snapshot)
                  (currentPage snapshot) (currentBlockIndex snapshot) st
                  Hspeed Hok) as H.
    destruct Hres as [E|[e E]]; rewrite E in H; exact H.
Qed.

(** The clean-up request for the only page is rejected: the run
    throws that error, and nothing is tracked afterwards. *)
Lemma readLoop_settles_witness :
  0 < speed Samples.kore
  /\ timeline_ok (Samples.playing Samples.raw_doc)
  /\ exists st',
       readLoop Samples.cleanup_unavailable Samples.kore
         (Samples.playing Samples.raw_doc) = Threw (JsString.lit "503") st'
       /\ timeline_ok st'.
Proof.
  assert (Hs : 0 < speed Samples.kore) by reflexivity.
  assert (Hok : timeline_ok (Samples.playing Samples.raw_doc)).
  { intros s Hs'. simpl in Hs'. set_solver. }
  split; [exact Hs|]. split; [exact Hok|].
  destruct (readLoop_settles Samples.cleanup_unavailable Samples.kore
              (Samples.playing Samples.raw_doc)) as [[st' Hends] Hkeeps].
  assert (E : readLoop Samples.cleanup_unavailable Samples.kore
                (Samples.playing Samples.raw_doc)
              = Threw (JsString.lit "503") st').
  { destruct Hends as [E|(e & page & p & E & _)].
    - exfalso. revert E. vm_compute. discriminate.
    - rewrite E. f_equal. revert E. vm_compute. now intros [= <- _]. }
  exists st'. split; [exact E|].
  apply (Hkeeps Hs Hok st'). right. eexists. exact E.
Defined.

(** A new source is scheduled behind every tracked one, and no tracked
    handle makes [stop] throw: under the invariant of [readLoop],
    [startSource] starts the new source no earlier than any tracked
    source ends, and [stopPlayback] finds every tracked handle
    started. *)
Theorem tracked_sources_scheduled
    (snapshot : TTSState) (audioBuffer : AudioBuffer) (now : Q) (st : State) :
  timeline_ok st ->
  forall s n,
    s ∈ activeSourcesRef st -> nodes st !! s = Some n ->
    (exists n', stop n = Resolved n')
    /\ exists t,
         startTime n = Some t
         /\ t + duration (buffer n) / playbackRate n
            <= fst (schedule (nextStartTimeRef st) now
                      (duration audioBuffer) (speed snapshot))
         /\ nodes (startSource snapshot audioBuffer now st) !! length (nodes st)
            = Some (mkSource audioBuffer (speed snapshot)
                      (Some (fst (schedule (nextStartTimeRef st) now
                                    (duration audioBuffer) (speed snapshot))))
                      false false).
Proof.
  intros Hok s n Hs Hn.
  destruct (Hok s Hs) as (n0 & t & Hn0 & Ht & Hend).
  rewrite Hn in Hn0. injection Hn0 as <-. split.
  - unfold stop. rewrite Ht. eauto.
  - exists t. split; [exact Ht|]. split.
    + simpl. pose proof (Q.le_max_l (nextStartTimeRef st) now). lra.
    + simpl. now apply list_lookup_middle.
Qed.

Lemma tracked_sources_scheduled_witness :
  timeline_ok Samples.two_sources
  /\ exists n', stop (mkSource Samples.beep 1 (Some 3) false false) = Resolved n'.
Proof.
  assert (Hok : timeline_ok Samples.two_sources).
  { intros s Hs. simpl in Hs.
    apply elem_of_union in Hs as [Hs|Hs]; apply elem_of_singleton in Hs; subst s.
    - eexists _, _. split; [reflexivity|]. split; [reflexivity|].
      vm_compute. discriminate.
    - eexists _, _. split; [reflexivity|]. split; [reflexivity|].
      vm_compute. discriminate. }
  split; [exact Hok|].
  exact (proj1 (tracked_sources_scheduled Samples.kore Samples.beep 0
                  Samples.two_sources Hok 0%nat _ ltac:(simpl; set_solver) eq_refl)).
Defined.

End PlaybackFacts.

(** ** The transport controls *)

Module ControlFacts.

Import App Controls Spec Derived.

Lemma flag_handle (e : Event) (st : State) :
  isPlaying (ttsState st) = false -> isPlaying (ttsState (handle e st)) = false.
Proof. now destruct e. Qed.

(** While the play flag of the state is clear, no render sets the
    flag of the ref. *)
Lemma flag_suspended (events : list Event) (st : State) :
  isPlaying (ttsState st) = false ->
  isPlaying (ttsState (suspended events st)) = false
  /\ isPlayingRef (suspended events st) = false.
Proof.
  unfold suspended. intros H.
  assert (H0 : isPlaying (ttsState (render st)) = false
               /\ isPlayingRef (render st) = false) by (simpl; auto).
  revert H0. generalize (render st). clear H.
  induction events as [|e events IH]; intros st0 [H1 H2]; simpl; [auto|].
  apply IH. simpl. split; apply flag_handle; exact H1.
Qed.

Lemma context_suspended (events : list Event) (st : State) :
  audioContextRef (suspended events st) = audioContextRef st.
Proof.
  unfold suspended.
  assert (H : forall st0,
             audioContextRef (fold_left (fun st e => render (handle e st)) events st0)
             = audioContextRef st0).
  { induction events as [|e events IH]; intros st0; simpl; [reflexivity|].
    rewrite IH. now destruct e. }
  now rewrite H.
Qed.

Lemma nodes_try_stop (l : list nat) (ns : list SourceNode) :
  length (fold_left try_stop l ns) = length ns.
Proof.
  revert ns. induction l as [|s l IH]; intros ns; simpl; [reflexivity|].
  rewrite IH. unfold try_stop. destruct (ns !! s) as [n|]; [|reflexivity].
  destruct (stop n); [apply length_insert|reflexivity].
Qed.

Lemma nodes_handle (e : Event) (st : State) :
  length (nodes (handle e st)) = length (nodes st).
Proof.
  destruct e as [|s]; simpl.
  - apply nodes_try_stop.
  - unfold mark_ended. destruct (nodes st !! s); [apply length_insert|reflexivity].
Qed.

Lemma nodes_suspended (events : list Event) (st : State) :
  length (nodes (suspended events st)) = length (nodes st).
Proof.
  unfold suspended.
  assert (H : forall st0,
             length (nodes (fold_left (fun st e => render (handle e st)) events st0))
             = length (nodes st0)).
  { induction events as [|e events IH]; intros st0; simpl; [reflexivity|].
    rewrite IH. simpl. apply nodes_handle. }
  now rewrite H.
Qed.

Lemma cursor_handle (e : Event) (st : State) :
  currentPage (ttsState (handle e st)) = currentPage (ttsState st)
  /\ currentBlockIndex (ttsState (handle e st)) = currentBlockIndex (ttsState st).
Proof. now destruct e. Qed.

Lemma cursor_suspended (events : list Event) (st : State) :
  currentPage (ttsState (suspended events st)) = currentPage (ttsState st)
  /\ currentBlockIndex (ttsState (suspended events st))
     = currentBlockIndex (ttsState st).
Proof.
  unfold suspended.
  assert (H : forall st0,
             currentPage (ttsState (fold_left (fun st e => render (handle e st)) events st0))
             = currentPage (ttsState st0)
             /\ currentBlockIndex (ttsState (fold_left (fun st e => render (handle e st)) events st0))
                = currentBlockIndex (ttsState st0)).
  { induction events as [|e events IH]; intros st0; simpl; [auto|].
    destruct (IH (render (handle e st0))) as [-> ->]. simpl.
    apply cursor_handle. }
  apply (H (render st)).
Qed.

(** A run entered while the flag of the ref is clear, at a block that
    exists, returns at once and changes nothing. *)
Lemma readLoop_paused (env : Env) (snapshot : TTSState) (st : State)
    (d : DocumentData) (page : PageContent) (block : TextBlock) :
  doc st = Some d ->
  audioContextRef st = true ->
  isPlayingRef st = false ->
  pages d !! currentPage snapshot = Some page ->
  blocks page !! currentBlockIndex snapshot = Some block ->
  readLoop env snapshot st = Fulfilled st.
Proof.
  intros Hd Hctx Hflag Hp Hb. unfold readLoop. rewrite Hd, Hctx.
  assert (Hpages : pagesOf st = pages d) by (unfold pagesOf; now rewrite Hd).
  destruct (length (pages d) - currentPage snapshot)%nat as [|fuel] eqn:Ef.
  { apply lookup_lt_Some in Hp. lia. }
  simpl. rewrite Hpages, Hp.
  assert (He : ensureBlocks env (currentPage snapshot) page st = Continue st).
  { unfold ensureBlocks. destruct (blocks page); [discriminate|reflexivity]. }
  rewrite He. unfold blocksAt. rewrite Hpages, Hp.
  destruct (length (blocks page) - currentBlockIndex snapshot)%nat
    as [|fuel'] eqn:Ef'.
  { apply lookup_lt_Some in Hb. lia. }
  simpl. rewrite Hpages, Hp, Hb, Hflag. reflexivity.
Qed.

(** [playTTS] pressed while the component is at rest (flag clear in
    the rendered state and in the ref) on a block that exists: the
    flag of the state is set, but the loop reads the ref before any
    render has copied the flag into it and returns.  No block is
    published, no source is created, nothing is logged and no timer is
    armed. *)
Theorem playTTS_at_rest_returns
    (penv : PlayEnv) (snapshot : TTSState) (st : State)
    (d : DocumentData) (page : PageContent) (block : TextBlock) :
  doc st = Some d ->
  isPlaying snapshot = false ->
  isPlaying (ttsState st) = false ->
  isPlayingRef st = false ->
  pages d !! currentPage snapshot = Some page ->
  blocks page !! currentBlockIndex snapshot = Some block ->
  (forall events e, context_state penv <> Suspended events (Rejected e)) ->
  exists st',
    playTTS penv snapshot st = Fulfilled st'
    /\ isPlaying (ttsState st') = true
    /\ isPlayingRef st' = false
    /\ length (nodes st') = length (nodes st)
    /\ console st' = console st
    /\ timers st' = timers st
    /\ currentText st' = currentText st.
Proof.
  intros Hd Hsnap Hflag Href Hp Hb Hres. unfold playTTS. rewrite Hd, Hsnap.
  destruct (audioContextRef st) eqn:Hctx.
  - destruct (context_state penv) as [|events [u|e]] eqn:Ec.
    + eexists. split.
      * apply (readLoop_paused _ _ _ d page block); auto.
      * simpl. auto 10.
    + destruct (flag_suspended events st Hflag) as [Hf1 Hf2].
      eexists. split.
      * apply (readLoop_paused _ _ _ d page block); auto.
        -- simpl. rewrite Playback.doc_suspended. exact Hd.
        -- simpl. rewrite context_suspended. exact Hctx.
      * simpl. rewrite nodes_suspended. repeat split; auto.
        -- clear. unfold suspended.
           assert (H : forall st0,
                     console (fold_left (fun st e => render (handle e st)) events st0)
                     = console st0).
           { induction events as [|e events IH]; intros st0; simpl; [reflexivity|].
             rewrite IH. now destruct e. }
           now rewrite H.
        -- clear. unfold suspended.
           assert (H : forall st0,
                     timers (fold_left (fun st e => render (handle e st)) events st0)
                     = timers st0).
           { induction events as [|e events IH]; intros st0; simpl; [reflexivity|].
             rewrite IH. now destruct e. }
           now rewrite H.
        -- clear. unfold suspended.
           assert (H : forall st0,
                     currentText (fold_left (fun st e => render (handle e st)) events st0)
                     = currentText st0).
           { induction events as [|e events IH]; intros st0; simpl; [reflexivity|].
             rewrite IH. now destruct e. }
           now rewrite H.
    + exfalso. now apply (Hres events e).
  - eexists. split.
    + apply (readLoop_paused _ _ _ d page block); auto.
    + simpl. auto 10.
Qed.

(** The first press of the play button after an upload. *)
Lemma playTTS_at_rest_returns_witness :
  exists st',
    playTTS Samples.all_well (with_isPlaying false Samples.kore)
      (Samples.at_rest Samples.one_block_doc) = Fulfilled st'
    /\ isPlaying (ttsState st') = true
    /\ length (nodes st') = 0%nat.
Proof.
  destruct (playTTS_at_rest_returns Samples.all_well
              (with_isPlaying false Samples.kore)
              (Samples.at_rest Samples.one_block_doc)
              Samples.one_block_doc _ Samples.hello
              eq_refl eq_refl eq_refl eq_refl eq_refl eq_refl
              ltac:(discriminate))
    as (st' & E & Hflag & _ & Hnodes & _).
  exists st'. split; [exact E|]. split; [exact Hflag|exact Hnodes].
Defined.

Lemma timers_suspended (events : list Event) (st : State) :
  timers (suspended events st) = timers st.
Proof.
  unfold suspended.
  assert (H : forall st0,
             timers (fold_left (fun st e => render (handle e st)) events st0)
             = timers st0).
  { induction events as [|e events IH]; intros st0; simpl; [reflexivity|].
    rewrite IH. now destruct e. }
  now rewrite H.
Qed.

(** How [seek] ends when the closure and the ref agree on the flag. *)
Lemma seek_result
    (target : nat) (events : list Event) (penv : PlayEnv)
    (snapshot : TTSState) (st : State) (d : DocumentData) :
  doc st = Some d ->
  isPlaying snapshot = isPlayingRef st ->
  seek target events penv snapshot st
  = Fulfilled
      (if isPlayingRef st
       then stopPlayback
              (suspended events
                 (setTimeout 100
                    (stopPlayback (setTtsState (with_cursor target 0) st))))
       else setTtsState (with_cursor target 0) st).
Proof.
  intros Hd Hsnap. unfold seek.
  change (isPlayingRef (setTtsState (with_cursor target 0) st))
    with (isPlayingRef st).
  destruct (isPlayingRef st); [|reflexivity].
  unfold playTTS. rewrite Playback.doc_suspended. simpl doc.
  now rewrite Hd, Hsnap.
Qed.

Lemma seek_cursor
    (target : nat) (events : list Event) (penv : PlayEnv)
    (snapshot : TTSState) (st : State) (d : DocumentData) :
  doc st = Some d ->
  isPlaying snapshot = isPlayingRef st ->
  exists st',
    seek target events penv snapshot st = Fulfilled st'
    /\ currentPage (ttsState st') = target
    /\ currentBlockIndex (ttsState st') = 0%nat.
Proof.
  intros Hd Hsnap. rewrite (seek_result target events penv snapshot st d Hd Hsnap).
  eexists. split; [reflexivity|].
  destruct (isPlayingRef st); [|now split].
  exact (cursor_suspended events
           (setTimeout 100
              (stopPlayback (setTtsState (with_cursor target 0) st)))).
Qed.

(** The call of [playTTS] that a page button delays does not restart
    the narration.  The handler moves the cursor to the head of the
    target page; when the component plays (flag set in the rendered
    state and in the ref) it calls [stopPlayback] and arms the 100 ms
    timer.  The delayed [playTTS] still sees the flag of the render in
    which the button was pressed, takes the call for a request to
    pause and calls [stopPlayback] a second time: it does not call
    [readLoop], asks no service for anything (the outcome is the same
    whatever the services would reply) and creates no source.  When
    it returns the flag is clear in the state and in the ref, so that
    a loop that comes to its flag check afterwards returns there.
    What a [readLoop] in flight does before it comes to that check is
    not part of this statement. *)
Theorem seek_does_not_resume
    (target : nat) (events : list Event) (penv : PlayEnv)
    (snapshot : TTSState) (st : State) (d : DocumentData) :
  doc st = Some d ->
  isPlaying snapshot = isPlayingRef st ->
  exists st',
    seek target events penv snapshot st = Fulfilled st'
    /\ (forall penv', seek target events penv' snapshot st = Fulfilled st')
    /\ currentPage (ttsState st') = target
    /\ currentBlockIndex (ttsState st') = 0%nat
    /\ length (nodes st') = length (nodes st)
    /\ (isPlayingRef st = true ->
        st' = stopPlayback
                (suspended events
                   (setTimeout 100
                      (stopPlayback (setTtsState (with_cursor target 0) st))))
        /\ isPlaying (ttsState st') = false
        /\ isPlayingRef st' = false
        /\ activeSourcesRef st' = ∅
        /\ nextStartTimeRef st' = 0
        /\ timers st' = timers st ++ [100]
        /\ forall env snap fuel pIdx bIdx page block,
             pagesOf st' !! pIdx = Some page ->
             blocks page !! bIdx = Some block ->
             blockLoop (S fuel) env snap pIdx bIdx st' = InnerReturn st').
Proof.
  intros Hd Hsnap. unfold seek.
  change (isPlayingRef (setTtsState (with_cursor target 0) st))
    with (isPlayingRef st).
  destruct (isPlayingRef st) eqn:Href.
  - set (st1 := suspended events
                  (setTimeout 100
                     (stopPlayback (setTtsState (with_cursor target 0) st)))).
    assert (Hd1 : doc st1 = Some d).
    { unfold st1. rewrite Playback.doc_suspended. exact Hd. }
    unfold playTTS. rewrite Hd1, Hsnap.
    exists (stopPlayback st1).
    destruct (cursor_suspended events
                (setTimeout 100
                   (stopPlayback (setTtsState (with_cursor target 0) st))))
      as [Hc1 Hc2].
    destruct (flag_suspended events
                (setTimeout 100
                   (stopPlayback (setTtsState (with_cursor target 0) st)))
                eq_refl) as [_ Hf2].
    fold st1 in Hf2.
    split; [reflexivity|]. split; [reflexivity|].
    split; [exact Hc1|]. split; [exact Hc2|]. split.
    + simpl. rewrite nodes_try_stop. unfold st1. rewrite nodes_suspended.
      simpl. apply nodes_try_stop.
    + intros _. split; [reflexivity|]. split; [reflexivity|].
      split; [exact Hf2|]. split; [reflexivity|]. split; [reflexivity|].
      split; [simpl; unfold st1; now rewrite timers_suspended|].
      intros env snap fuel pIdx bIdx page block Hp Hb.
      simpl blockLoop. rewrite Hp, Hb.
      change (isPlayingRef (stopPlayback st1)) with (isPlayingRef st1).
      now rewrite Hf2.
  - eexists. split; [reflexivity|]. split; [reflexivity|]. simpl.
    split; [reflexivity|]. split; [reflexivity|]. split; [reflexivity|].
    discriminate.
Qed.

Lemma seek_does_not_resume_witness :
  exists st',
    seek 0 [] Samples.all_well Samples.kore
      (Samples.playing Samples.one_block_doc) = Fulfilled st'
    /\ isPlaying (ttsState st') = false
    /\ blockLoop 1 Samples.stop_while_synthesizing Samples.kore 0 0 st'
       = InnerReturn st'.
Proof.
  destruct (seek_does_not_resume 0 [] Samples.all_well Samples.kore
              (Samples.playing Samples.one_block_doc) Samples.one_block_doc
              eq_refl eq_refl) as (st' & E & _ & _ & _ & _ & H).
  exists st'. split; [exact E|].
  destruct (H eq_refl) as (Est & Hflag & _ & _ & _ & _ & Hloop).
  split; [exact Hflag|].
  apply (Hloop Samples.stop_while_synthesizing Samples.kore 0%nat 0%nat 0%nat
           {| pageNumber := 1; blocks := [Samples.hello];
              rawText := JsString.lit "Hello" |} Samples.hello);
    [rewrite Est|]; reflexivity.
Defined.

(** After the previous-page or the next-page button the cursor is at
    the head of a page of the document: one page back, but not before
    the first, or one page ahead, but not beyond the last. *)
Theorem page_buttons_keep_cursor_in_range
    (events : list Event) (penv : PlayEnv) (snapshot : TTSState) (st : State)
    (d : DocumentData) :
  doc st = Some d ->
  pages d <> [] ->
  (currentPage snapshot < length (pages d))%nat ->
  isPlaying snapshot = isPlayingRef st ->
  (exists st',
      previousPage events penv snapshot st = Fulfilled st'
      /\ currentPage (ttsState st') = (currentPage snapshot - 1)%nat
      /\ currentBlockIndex (ttsState st') = 0%nat
      /\ (currentPage (ttsState st') < length (pages d))%nat)
  /\ (exists st',
        nextPage events penv snapshot st = Fulfilled st'
        /\ currentPage (ttsState st')
           = (if (S (currentPage snapshot) <? length (pages d))%nat
              then S (currentPage snapshot) else currentPage snapshot)
        /\ currentBlockIndex (ttsState st') = 0%nat
        /\ (currentPage (ttsState st') < length (pages d))%nat).
Proof.
  intros Hd Hne Hcur Hsnap. split.
  - destruct (seek_cursor (previousTarget snapshot) events penv
                snapshot st d Hd Hsnap) as (st' & E & Hp & Hb).
    exists st'. split; [exact E|]. unfold previousTarget in Hp.
    rewrite Hp, Hb. repeat split; lia.
  - unfold nextPage. rewrite Hd.
    destruct (seek_cursor (nextTarget d snapshot) events penv
                snapshot st d Hd Hsnap) as (st' & E & Hp & Hb).
    exists st'. split; [exact E|]. unfold nextTarget in Hp.
    rewrite Hp, Hb.
    destruct (Nat.ltb_spec (S (currentPage snapshot)) (length (pages d)));
      repeat split; lia.
Qed.

Lemma page_buttons_keep_cursor_in_range_witness :
  exists st',
    nextPage [] Samples.all_well (with_isPlaying false Samples.kore)
      (Samples.at_rest Samples.one_block_doc) = Fulfilled st'
    /\ currentPage (ttsState st') = 0%nat.
Proof.
  destruct (proj2 (page_buttons_keep_cursor_in_range [] Samples.all_well
                     (with_isPlaying false Samples.kore)
                     (Samples.at_rest Samples.one_block_doc)
                     Samples.one_block_doc eq_refl ltac:(discriminate)
                     ltac:(simpl; lia) eq_refl))
    as (st' & E & Hp & _).
  exists st'. split; [exact E|exact Hp].
Defined.

End ControlFacts.

(** ** The PDF and OCR services *)

Module DocumentFacts.

Import Js Pdf Derived.

(** *** [performOCR] *)

(** [performOCR] returns the recognized text only after its worker was
    terminated.  When the worker cannot be created nothing is left
    behind; when recognition (or termination) fails the error is
    thrown and the worker that was created is still alive. *)
Theorem performOCR_workers
    (lib : Ocr.Tesseract) (imageSrc : JsString.t) (workers : nat) :
  match Ocr.performOCR lib imageSrc workers with
  | (n, Ok text) =>
      n = workers /\ Ocr.recognize lib imageSrc = Ok text
      /\ Ocr.terminate lib = Ok tt
  | (n, Err e) =>
      (Ocr.createWorker lib = Err e /\ n = workers)
      \/ (Ocr.createWorker lib = Ok tt /\ n = S workers
          /\ (Ocr.recognize lib imageSrc = Err e
              \/ Ocr.terminate lib = Err e))
  end.
Proof.
  unfold Ocr.performOCR.
  destruct (Ocr.createWorker lib) as [[]|e]; [|now left].
  destruct (Ocr.recognize lib imageSrc) as [text|e].
  - destruct (Ocr.terminate lib) as [[]|e].
    + simpl. auto.
    + right. auto.
  - right. auto.
Qed.

(** *** [parsePdf] *)

Lemma content_imap (k : nat) (l : list JsString.t) :
  map content (imap (fun n => toBlock (k + n)) l) = l.
Proof.
  revert k. induction l as [|c l IH]; intros k; [reflexivity|].
  simpl. f_equal. rewrite <- (IH (S k)) at 2. f_equal.
  apply imap_ext. intros i x _. simpl. f_equal. lia.
Qed.

Lemma content_toBlocks (l : list JsString.t) : map content (imap toBlock l) = l.
Proof. exact (content_imap 0 l). Qed.

(** The page that [parsePdf] builds from what pdf.js reports: its
    blocks are the texts that [clusterTextItems] returns for the
    fragments (the reading-order pass in between has no effect), in
    the same order; the [j]-th block is a paragraph of order [j] and
    confidence 1; [rawText] is the line-feed join of the block
    contents; there are no more blocks than fragments and none
    exactly when the page has no fragment. *)
Theorem pageContent_shape (i : nat) (page : PdfPage) :
  let fragments := map (toTextItem (viewport page)) (textItems page) in
  let texts :=
    Layout.clusterTextItems fragments
      (vpWidth (viewport page)) (vpHeight (viewport page)) in
  let built := pageContent i page in
  pageNumber built = i
  /\ map content (blocks built) = texts
  /\ (forall j b,
        blocks built !! j = Some b ->
        type b = paragraph /\ order b = inject_Z (Z.of_nat j) /\ confidence b = 1)
  /\ rawText built = JsString.join [lineFeed] (map content (blocks built))
  /\ (length (blocks built) <= length (textItems page))%nat
  /\ (blocks built = [] <-> textItems page = []).
Proof.
  cbv zeta. unfold pageContent. cbv zeta. cbn [pageNumber blocks rawText].
  set (fragments := map (toTextItem (viewport page)) (textItems page)).
  assert (E : Layout.clusterTextItems (Layout.determineReadingOrder fragments)
                (vpWidth (viewport page)) (vpHeight (viewport page))
              = Layout.clusterTextItems fragments
                  (vpWidth (viewport page)) (vpHeight (viewport page))).
  { rewrite !Clusterer.clusterTextItems_blocks. unfold Layout.clusterBlocks.
    now rewrite LayoutFacts.sortedItems_after_reading_order. }
  rewrite E.
  set (texts := Layout.clusterTextItems fragments _ _).
  destruct (LayoutFacts.clusterTextItems_at_most fragments
              (vpWidth (viewport page)) (vpHeight (viewport page)))
    as [Hle Hnil].
  fold texts in Hle, Hnil.
  split; [reflexivity|]. split; [apply content_toBlocks|]. split; [|split; [|split]].
  - intros j b Hb. rewrite list_lookup_imap in Hb.
    destruct (texts !! j) as [c|]; [|discriminate].
    injection Hb as <-. now repeat split.
  - now rewrite content_toBlocks.
  - rewrite length_imap. unfold fragments in Hle. now rewrite length_map in Hle.
  - split.
    + intros H. apply (f_equal (@length _)) in H. rewrite length_imap in H.
      apply length_zero_iff_nil in H. apply Hnil in H.
      unfold fragments in H. now apply map_eq_nil in H.
    + intros H. unfold fragments in Hnil. rewrite H in Hnil.
      now rewrite (proj2 Hnil eq_refl).
Qed.

Lemma readPages_ok (i : nat) (fetched : list (result PdfPage))
    (pages : list PageContent) :
  readPages i fetched = Ok pages ->
  exists pdfPages,
    fetched = map Ok pdfPages
    /\ pages = imap (fun k => pageContent (i + k)) pdfPages.
Proof.
  revert i pages. induction fetched as [|[page|e] fetched IH]; intros i pages.
  - intros [= <-]. now exists [].
  - simpl. destruct (readPages (S i) fetched) as [rest|e] eqn:E; [|discriminate].
    intros [= <-]. destruct (IH (S i) rest E) as (pdfPages & -> & ->).
    exists (page :: pdfPages). split; [reflexivity|].
    simpl. rewrite Nat.add_0_r. f_equal.
    apply imap_ext. intros k x _. simpl. f_equal. lia.
  - discriminate.
Qed.

Lemma readPages_err (i : nat) (fetched : list (result PdfPage)) (e : Error) :
  readPages i fetched = Err e ->
  exists before rest, fetched = map Ok before ++ Err e :: rest.
Proof.
  revert i. induction fetched as [|[page|e0] fetched IH]; intros i.
  - discriminate.
  - simpl. destruct (readPages (S i) fetched) as [rest|e1] eqn:E; [discriminate|].
    intros [= <-]. destruct (IH (S i) E) as (before & rest & ->).
    now exists (page :: before), rest.
  - intros [= <-]. now exists [], fetched.
Qed.

(** [parsePdf] either returns one page per page of the document,
    numbered from 1 in document order, and logs nothing; or it fails
    without any page: it logs the first error met (on loading, or on
    fetching a page after all earlier ones were fetched) and throws
    it, replaced by the fixed "corrupted or encrypted" error when its
    name is [InvalidPDFException] or its message mentions
    "structure". *)
Theorem parsePdf_outcome (file : PdfFile) :
  match parsePdf file with
  | (logged, Ok pages) =>
      logged = []
      /\ exists pdfPages,
           file = Ok (map Ok pdfPages)
           /\ length pages = length pdfPages
           /\ forall k pdfPage,
                pdfPages !! k = Some pdfPage ->
                pages !! k = Some (pageContent (S k) pdfPage)
  | (logged, Err thrown) =>
      exists cause,
        logged = [(JsString.lit "PDF Parsing Error:", cause)]
        /\ (file = Err cause
            \/ exists before rest,
                 file = Ok (map Ok before ++ Err cause :: rest))
        /\ thrown
           = if bool_decide (errName cause = JsString.lit "InvalidPDFException")
                || includes (JsString.lit "structure") (errMessage cause)
             then corrupted else cause
  end.
Proof.
  unfold parsePdf.
  destruct file as [fetched|e].
  - destruct (readPages 1 fetched) as [pages|e] eqn:E.
    + split; [reflexivity|].
      destruct (readPages_ok 1 fetched pages E) as (pdfPages & -> & ->).
      exists pdfPages. split; [reflexivity|]. split; [apply length_imap|].
      intros k pdfPage Hk. rewrite list_lookup_imap, Hk. reflexivity.
    + destruct (readPages_err 1 fetched e E) as (before & rest & ->).
      destruct (bool_decide _ || includes _ _) eqn:Ec; exists e; rewrite Ec;
        (split; [reflexivity|]; split; [right; eauto|reflexivity]).
  - destruct (bool_decide _ || includes _ _) eqn:Ec; exists e; rewrite Ec;
      (split; [reflexivity|]; split; [now left|reflexivity]).
Qed.

Lemma pageContent_shape_witness :
  blocks (pageContent 1 Samples.pdf_page) !! 1%nat
  = Some (toBlock 1 (JsString.lit "Right1"))
  /\ order (toBlock 1 (JsString.lit "Right1")) = inject_Z (Z.of_nat 1).
Proof.
  assert (H : blocks (pageContent 1 Samples.pdf_page) !! 1%nat
              = Some (toBlock 1 (JsString.lit "Right1"))) by reflexivity.
  split; [exact H|].
  exact (proj1 (proj2 (proj1 (proj2 (proj2 (pageContent_shape 1 Samples.pdf_page)))
                         1%nat _ H))).
Defined.

Lemma parsePdf_outcome_witness :
  snd (parsePdf Samples.broken_pdf) = Err corrupted
  /\ match parsePdf Samples.broken_pdf with
     | (logged, Ok _) => logged = []
     | (logged, Err _) => length logged = 1%nat
     end.
Proof.
  split; [reflexivity|].
  pose proof (parsePdf_outcome Samples.broken_pdf) as H.
  destruct (parsePdf Samples.broken_pdf) as [logged [pages|thrown]].
  - exact (proj1 H).
  - destruct H as (cause & -> & _). reflexivity.
Defined.

(** *** [handleFileUpload] *)

Import Upload.







(** A file whose type is neither [application/pdf], nor an image type,
    nor [text/plain] is refused: the "Format not supported" alert is
    shown and logged, no service is called (no worker is created) and
    the document in place is kept. *)
Theorem handleFileUpload_unsupported (env : Env) (file : File) (st : State) :
  fileType file <> JsString.lit "application/pdf" ->
  startsWith (JsString.lit "image/") (fileType file) = false ->
  fileType file <> JsString.lit "text/plain" ->
  handleFileUpload env (Some file) st
  = {| doc := doc st;
       isProcessing := false;
       processingStatus := [];
       alerts := alerts st ++ [errMessage unsupported];
       console := console st ++ [([], unsupported)];
       workers := workers st |}.
Proof.
  intros Hpdf Himg Htxt. unfold handleFileUpload, gatherPages.
  rewrite (bool_decide_eq_false_2 _ Hpdf), Himg, (bool_decide_eq_false_2 _ Htxt).
  reflexivity.
Qed.

Lemma handleFileUpload_unsupported_witness :
  alerts (handleFileUpload Samples.upload_env (Some Samples.zip_upload)
            Samples.no_upload_yet)
  = [JsString.lit "Format not supported. Please use PDF, JPG, PNG, or TXT."].
Proof.
  rewrite (handleFileUpload_unsupported Samples.upload_env Samples.zip_upload
             Samples.no_upload_yet);
    [reflexivity|discriminate|reflexivity|discriminate].
Defined.

(** A PDF with pages.  When its pages hold at least 100 code units of
    text, OCR is not run (no worker is created) and the published
    first page keeps its raw text; when they hold less, the first page
    is rendered and read by OCR and its raw text becomes the OCR text.
    In both cases the blocks that clustering gave the first page are
    replaced by one paragraph, the clean-up of its raw text, and the
    other pages are published as parsed. *)
Theorem pdf_upload_first_page
    (env : Env) (file : File) (st : State)
    (logged : list (JsString.t * Error)) (first : PageContent)
    (rest : list PageContent) :
  fileType file = JsString.lit "application/pdf" ->
  parsePdf (asPdf file) = (logged, Ok (first :: rest)) ->
  let st' := handleFileUpload env (Some file) st in
  ((100 <= totalText (first :: rest))%nat ->
   workers st' = workers st
   /\ forall cleaned,
        Gemini.processRawLayout (cleanup_reply env (rawText first)) (rawText first)
        = Resolved cleaned ->
        exists d,
          doc st' = Some d
          /\ App.pages d
             = mkPage (pageNumber first) [App.paragraph_of cleaned] (rawText first)
                 :: rest)
  /\ ((totalText (first :: rest) < 100)%nat ->
      forall image ocrText cleaned,
        firstPageImage file = Ok image ->
        Ocr.performOCR (tesseract env) image (workers st) = (workers st, Ok ocrText) ->
        Gemini.processRawLayout (cleanup_reply env ocrText) ocrText
        = Resolved cleaned ->
        exists d,
          doc st' = Some d
          /\ App.pages d
             = mkPage (pageNumber first) [App.paragraph_of cleaned] ocrText :: rest).
Proof.
  intros Htype Hparse. cbv zeta. unfold handleFileUpload, gatherPages.
  rewrite (bool_decide_eq_true_2 _ Htype), Hparse. split.
  - intros Hlen. apply Nat.ltb_ge in Hlen. rewrite Hlen. simpl andb. cbv iota.
    unfold publish. split.
    + destruct (Gemini.processRawLayout _ _); reflexivity.
    + intros cleaned Hc. simpl rawText. rewrite Hc. eexists. split; reflexivity.
  - intros Hlen image ocrText cleaned Himg Hocr Hc.
    apply Nat.ltb_lt in Hlen. rewrite Hlen.
    change (0 <? length (first :: rest))%nat with true. simpl andb. cbv iota.
    rewrite Himg. unfold runOCR. simpl workers. rewrite Hocr.
    unfold publish, set_first_rawText. cbv iota. cbn [rawText pageNumber].
    rewrite Hc. eexists. split; reflexivity.
Qed.

Lemma pdf_upload_first_page_witness :
  exists d,
    doc (handleFileUpload Samples.upload_env (Some Samples.pdf_upload)
           Samples.no_upload_yet) = Some d
    /\ map rawText (App.pages d) = [JsString.lit "Scanned text"].
Proof.
  destruct (proj2 (pdf_upload_first_page Samples.upload_env Samples.pdf_upload
                     Samples.no_upload_yet [] _ [] eq_refl eq_refl)
              ltac:(vm_compute; lia)
              (JsString.lit "data:image/jpeg;base64,AAAA")
              (JsString.lit "Scanned text") (JsString.lit "Scanned text")
              eq_refl eq_refl eq_refl) as (d & Hd & Hp).
  exists d. split; [exact Hd|]. now rewrite Hp.
Defined.

End DocumentFacts.

(** ** The visualizer *)

Module VisualizerFacts.

Import Visualizer Derived.

Lemma animateBar_band (isPlaying : bool) (canvasHeight random h : Q) :
  10 <= canvasHeight -> unit_draw random ->
  in_band canvasHeight h ->
  in_band canvasHeight (animateBar isPlaying canvasHeight random h).
Proof.
  unfold in_band, animateBar, unit_draw. intros HH [Hr0 Hr1] [H2 H5].
  destruct isPlaying.
  - assert (Hlo : 0 <= random * (canvasHeight - 10)).
    { apply Qmult_le_0_compat; lra. }
    assert (Hhi : random * (canvasHeight - 10) <= 1 * (canvasHeight - 10)).
    { apply Qmult_le_compat_r; lra. }
    cbv zeta. split; lra.
  - split; lra.
Qed.

Lemma animate_length (isPlaying : bool) (canvasHeight : Q)
    (randoms heights : list Q) :
  length (animate isPlaying canvasHeight randoms heights) = length heights.
Proof.
  revert randoms. induction heights as [|h hs IH]; intros randoms; simpl.
  - reflexivity.
  - now rewrite IH.
Qed.

Lemma animate_band (isPlaying : bool) (canvasHeight : Q)
    (randoms heights : list Q) :
  10 <= canvasHeight ->
  List.Forall unit_draw randoms ->
  List.Forall (in_band canvasHeight) heights ->
  List.Forall (in_band canvasHeight)
    (animate isPlaying canvasHeight randoms heights).
Proof.
  intros HH Hr Hh. revert randoms Hr.
  induction Hh as [|h hs Hh Hhs IH]; intros randoms Hr; simpl.
  - constructor.
  - constructor.
    + apply animateBar_band; [exact HH| |exact Hh].
      destruct Hr as [|r rs Hr0 _]; simpl; [|exact Hr0].
      split; lra.
    + apply IH. destruct Hr as [|r rs _ Hrs]; simpl; [constructor|exact Hrs].
Qed.

Lemma initialHeights_band (canvasHeight : Q) :
  10 <= canvasHeight ->
  List.Forall (in_band canvasHeight) initialHeights.
Proof.
  intros HH. unfold initialHeights.
  induction bars as [|n IH]; simpl; constructor; [|exact IH].
  split; lra.
Qed.

Lemma frames_length (isPlaying : bool) (canvasHeight : Q)
    (draws : list (list Q)) :
  length (frames isPlaying canvasHeight draws) = bars.
Proof.
  unfold frames.
  assert (H : forall heights,
             length (fold_left
                       (fun heights randoms =>
                          animate isPlaying canvasHeight randoms heights)
                       draws heights) = length heights).
  { induction draws as [|d ds IH]; intros heights; simpl.
    - reflexivity.
    - now rewrite IH, animate_length. }
  rewrite H. unfold initialHeights. apply repeat_length.
Qed.

Lemma frames_band (isPlaying : bool) (canvasHeight : Q)
    (draws : list (list Q)) :
  10 <= canvasHeight ->
  List.Forall (List.Forall unit_draw) draws ->
  List.Forall (in_band canvasHeight) (frames isPlaying canvasHeight draws).
Proof.
  intros HH Hd. unfold frames.
  assert (H : forall heights,
             List.Forall (in_band canvasHeight) heights ->
             List.Forall (in_band canvasHeight)
               (fold_left
                  (fun heights randoms =>
                     animate isPlaying canvasHeight randoms heights)
                  draws heights)).
  { induction Hd as [|d ds Hd0 Hds IH]; intros heights Hh; simpl.
    - exact Hh.
    - apply IH, animate_band; assumption. }
  apply H, initialHeights_band, HH.
Qed.

(** On a canvas at least 96 wide and 10 high, whatever [Math.random]
    returns and however many frames have been drawn, there are 24
    bars, each between 2 and [canvas.height - 5] high (numbers taken
    as exact rationals), and the rectangle drawn for each lies on the
    canvas. *)
Theorem bars_stay_on_canvas
    (isPlaying : bool) (canvasWidth canvasHeight : Q)
    (draws : list (list Q)) :
  96 <= canvasWidth -> 10 <= canvasHeight ->
  List.Forall (List.Forall unit_draw) draws ->
  let heights := frames isPlaying canvasHeight draws in
  length heights = bars
  /\ forall (i : nat) (h : Q),
       nth_error heights i = Some h ->
       in_band canvasHeight h
       /\ inside_canvas canvasWidth canvasHeight
            (barRect canvasWidth canvasHeight i h).
Proof.
  intros HW HH Hd heights. split; [apply frames_length|].
  intros i h Hi.
  assert (Hlt : (i < bars)%nat).
  { rewrite <- (frames_length isPlaying canvasHeight draws).
    apply nth_error_Some. fold heights. now rewrite Hi. }
  assert (Hb : in_band canvasHeight h).
  { pose proof (frames_band isPlaying canvasHeight draws HH Hd) as Hall.
    rewrite List.Forall_forall in Hall. apply Hall.
    eapply nth_error_In. exact Hi. }
  split; [exact Hb|].
  destruct Hb as [H2 H5].
  unfold inside_canvas, barRect. cbn [left top rectWidth rectHeight].
  unfold bars in *. change (inject_Z (Z.of_nat 24)) with 24.
  assert (Hi0 : 0 <= inject_Z (Z.of_nat i)).
  { change 0 with (inject_Z 0). rewrite <- Zle_Qle. lia. }
  assert (Hi1 : inject_Z (Z.of_nat i) <= 23).
  { change 23 with (inject_Z 23). rewrite <- Zle_Qle. lia. }
  set (k := inject_Z (Z.of_nat i)) in *.
  assert (Hw : canvasWidth / 24 == canvasWidth * (1 # 24)) by (field).
  rewrite !Hw.
  assert (Hkw : 0 <= k * (canvasWidth * (1 # 24))).
  { apply Qmult_le_0_compat; lra. }
  assert (Hkw' : k * (canvasWidth * (1 # 24)) <= 23 * (canvasWidth * (1 # 24))).
  { apply Qmult_le_compat_r; lra. }
  assert (Ht : (canvasHeight - h) / 2 == (canvasHeight - h) * (1 # 2)) by (field).
  rewrite !Ht.
  repeat split; lra.
Qed.

Lemma bars_stay_on_canvas_witness :
  length (frames true 40 [[1 # 2; 9 # 10]; []]) = bars
  /\ forall (i : nat) (h : Q),
       nth_error (frames true 40 [[1 # 2; 9 # 10]; []]) i = Some h ->
       in_band 40 h /\ inside_canvas 200 40 (barRect 200 40 i h).
Proof.
  apply (bars_stay_on_canvas true 200 40 [[1 # 2; 9 # 10]; []]).
  - lra.
  - lra.
  - repeat constructor; lra.
Defined.

Lemma animate_rest (canvasHeight : Q) (randoms heights : list Q) :
  List.Forall (fun h => h == 2) heights ->
  List.Forall (fun h => h == 2) (animate false canvasHeight randoms heights).
Proof.
  intros Hh. revert randoms.
  induction Hh as [|h hs Hh Hhs IH]; intros randoms; simpl.
  - constructor.
  - constructor; [|apply IH]. unfold animateBar. rewrite Hh. lra.
Qed.

(** While nothing plays, the bars do not move: the effect starts from
    a fresh array of heights 2 each time [isPlaying] changes, so every
    frame draws every bar 2 high, on a canvas of any size.  The bars
    drop at once when playback stops; nothing is left for the easing
    of the [else] branch to shrink. *)
Theorem bars_flat_when_not_playing
    (canvasHeight : Q) (draws : list (list Q)) :
  List.Forall (fun h => h == 2) (frames false canvasHeight draws).
Proof.
  unfold frames.
  assert (H : forall heights,
             List.Forall (fun h => h == 2) heights ->
             List.Forall (fun h => h == 2)
               (fold_left
                  (fun heights randoms =>
                     animate false canvasHeight randoms heights)
                  draws heights)).
  { induction draws as [|d ds IH]; intros heights Hh; simpl.
    - exact Hh.
    - apply IH, animate_rest, Hh. }
  apply H. unfold initialHeights.
  induction bars as [|n IH]; simpl; constructor; [reflexivity|exact IH].
Qed.

End VisualizerFacts.
